(** * django_statemachine: a shallow embedding of [state_machine.py]

    The engine is embedded as a state-and-exception monad over a [World]
    that holds what the Python code mutates: the [State] objects (a heap,
    because the table and the transition specification share them and
    [merge_data] updates them in place), the class attribute [_states],
    the instance attribute [current_state_code], and a trace of the calls
    the engine makes into user code (guard, commit hook, handlers, logger). *)

From Stdlib Require Import List String ZArith Bool Arith Lia.
Import ListNotations.

Set Implicit Arguments.

(** ** Exceptions *)

(** An exception raised by user code (a handler or the commit hook).
    [derives_Exception] tells whether its class derives from [Exception];
    [SystemExit], [KeyboardInterrupt] and [GeneratorExit] do not. *)
Record UserExc := mkUserExc {
  exc_name : string;
  derives_Exception : bool
}.

(** Decidable equality, for codes and symbols. *)
Class EqDec (A : Type) := eq_dec : forall a b : A, {a = b} + {a <> b}.

Section Engine.

(** State codes: any hashable Python object except [None]. *)
Variable Code : Type.
Context {Code_eq_dec : EqDec Code}.
(** Python's [hash] on codes. *)
Variable hash_code : Code -> Z.
(** Transition symbols: any hashable Python object, [None] included. *)
Variable Symbol : Type.
Context {Symbol_eq_dec : EqDec Symbol}.
(** What a handler returns. *)
Variable RetVal : Type.

Definition code_eqb (a b : Code) : bool :=
  if eq_dec a b then true else false.

Definition symbol_eqb (a b : Symbol) : bool :=
  if eq_dec a b then true else false.

(** ** class State *)

Record State := mkState {
  code : Code;
  label : option string;
  is_initial : option bool;
  is_terminal : option bool
}.

(** [State(code)]: every optional argument left at its default [None]. *)
Definition State_of_code (c : Code) : State := mkState c None None None.

(** Truth value of an optional flag, as [if s.is_initial] tests it. *)
Definition truthy (b : option bool) : bool :=
  match b with Some true => true | _ => false end.

(** ** Objects and values *)

(** [State] objects live at addresses.  [ASpec n] is the n-th [State]
    instance the user created (those written in [transitions] or in a
    [handle] pattern); [AWrap c] is the instance that [states] creates at
    [state = State(state)] for the bare code [c] and stores in the table. *)
Inductive addr :=
| ASpec (n : nat)
| AWrap (c : Code).

Definition addr_eqb (a b : addr) : bool :=
  match a, b with
  | ASpec n, ASpec m => Nat.eqb n m
  | AWrap c, AWrap d => code_eqb c d
  | _, _ => false
  end.

Definition Heap := addr -> State.

Definition heap_set (h : Heap) (a : addr) (s : State) : Heap :=
  fun b => if addr_eqb b a then s else h b.

(** A state as the transition specification writes it: a bare code or a
    [State] instance. *)
Inductive Ref :=
| Bare (c : Code)
| Inst (n : nat).

(** A run-time value where a state is expected. *)
Inductive Value :=
| VNone
| VCode (c : Code)
| VState (a : addr).

Definition value_of_ref (r : Ref) : Value :=
  match r with
  | Bare c => VCode c
  | Inst n => VState (ASpec n)
  end.

(** *** Equality and hashing *)

(** [State.__eq__(self, other)]. A code is never [None], so [self.code ==
    None] is false. *)
Definition State__eq__ (h : Heap) (self : addr) (other : Value) : bool :=
  match other with
  | VState b => code_eqb (code (h self)) (code (h b))
  | VCode c => code_eqb (code (h self)) c
  | VNone => false
  end.

(** [State.__ne__] *)
Definition State__ne__ (h : Heap) (self : addr) (other : Value) : bool :=
  negb (State__eq__ h self other).

(** [__eq__] of the built-in types of codes and of [None]: [None] stands
    for [NotImplemented], which they answer for an operand of another
    class. *)
Definition builtin__eq__ (self other : Value) : option bool :=
  match self, other with
  | VNone, VNone => Some true
  | VCode c, VCode d => Some (code_eqb c d)
  | _, _ => None
  end.

(** [type(v).__eq__(v, w)] *)
Definition dunder_eq (h : Heap) (v w : Value) : option bool :=
  match v with
  | VState a => Some (State__eq__ h a w)
  | _ => builtin__eq__ v w
  end.

(** Python's [v == w]: the left operand's [__eq__], then the reflected
    call on the right operand, then identity. *)
Definition py_eq (h : Heap) (v w : Value) : bool :=
  match dunder_eq h v w with
  | Some b => b
  | None =>
      match dunder_eq h w v with
      | Some b => b
      | None => false
      end
  end.

(** [State.__hash__] and the built-in hash of a code. *)
Definition py_hash (h : Heap) (v : Value) : option Z :=
  match v with
  | VState a => Some (hash_code (code (h a)))
  | VCode c => Some (hash_code c)
  | VNone => None
  end.

(** The code a non-[None] value stands for. *)
Definition value_code (h : Heap) (v : Value) : option Code :=
  match v with
  | VState a => Some (code (h a))
  | VCode c => Some c
  | VNone => None
  end.

(** ** The engine's exceptions *)

Inductive Exc :=
| KeyError
| ValueError
| ImproperlyConfigured
| IllegalTransition (current_state : Value) (symbol : Symbol)
| Foreign (e : UserExc).

(** *** State.merge_data *)

Definition opt_eqb {A} (eqb : A -> A -> bool) (x y : option A) : bool :=
  match x, y with
  | None, None => true
  | Some a, Some b => eqb a b
  | _, _ => false
  end.

Definition is_some {A} (x : option A) : bool :=
  match x with Some _ => true | None => false end.

(** One round of the loop over the attribute names: [Some v] is the value
    [self] holds afterwards, [None] means [ImproperlyConfigured]. *)
Definition merge_attr {A} (eqb : A -> A -> bool) (mine theirs : option A)
  : option (option A) :=
  if negb (opt_eqb eqb mine theirs) && is_some theirs then
    match mine with
    | None => Some theirs
    | Some _ => None
    end
  else Some mine.

(** [self.merge_data(other)] on the attribute values.  The first component
    is [self] after the call: attributes merged before a conflict stay
    merged when the call raises. *)
Definition merge_data (self other : State) : State * option Exc :=
  if negb (code_eqb (code self) (code other)) then (self, Some ValueError)
  else
    match merge_attr String.eqb (label self) (label other) with
    | None => (self, Some ImproperlyConfigured)
    | Some l =>
        let s1 := mkState (code self) l (is_initial self) (is_terminal self) in
        match merge_attr Bool.eqb (is_initial s1) (is_initial other) with
        | None => (s1, Some ImproperlyConfigured)
        | Some i =>
            let s2 := mkState (code s1) (label s1) i (is_terminal s1) in
            match merge_attr Bool.eqb (is_terminal s2) (is_terminal other) with
            | None => (s2, Some ImproperlyConfigured)
            | Some t => (mkState (code s2) (label s2) (is_initial s2) t, None)
            end
        end
    end.


(** ** What the engine mutates, and what it calls *)

(** Calls into user code and into the logger, in the order they happen,
    and the assignments to [current_state_code]. *)
Inductive Event :=
| EvGuard (from_state : Value) (symbol : Symbol) (next_state : Value)
| EvAssign (c : Code)
| EvSave
| EvHandler (id : nat) (from_state : Value) (symbol : Symbol) (to_state : Value)
| EvLogText
| EvLogHandler (id : nat) (e : UserExc).

(** [_states] is the class attribute ([None] until the table is built);
    the table is a dict from codes to [State] objects, in insertion order. *)
Record World := mkWorld {
  heap : Heap;
  _states : option (list (Code * addr));
  current_state_code : option Code;
  trace : list Event
}.

Definition set_heap (h : Heap) (w : World) : World :=
  mkWorld h (_states w) (current_state_code w) (trace w).

Definition set_states (t : option (list (Code * addr))) (w : World) : World :=
  mkWorld (heap w) t (current_state_code w) (trace w).

Definition set_current_state_code (c : option Code) (w : World) : World :=
  mkWorld (heap w) (_states w) c (trace w).

Definition emit (e : Event) (w : World) : World :=
  mkWorld (heap w) (_states w) (current_state_code w) (trace w ++ [e]).

(** A computation either returns or raises; what it changed stays changed
    in both cases. *)
Definition M (A : Type) : Type := World -> (Exc + A) * World.

Definition ret {A} (x : A) : M A := fun w => (inr x, w).

Definition raise {A} (e : Exc) : M A := fun w => (inl e, w).

Definition bind {A B} (c : M A) (k : A -> M B) : M B :=
  fun w =>
    match c w with
    | (inr x, w') => k x w'
    | (inl e, w') => (inl e, w')
    end.

Notation "x <- c1 ;; c2" := (bind c1 (fun x => c2))
  (at level 61, c1 at next level, right associativity).
Notation "c1 ;; c2" := (bind c1 (fun _ => c2))
  (at level 61, right associativity).

(** [try: body except KeyError: handler] *)
Definition try_except_KeyError {A} (body handler : M A) : M A :=
  fun w =>
    match body w with
    | (inl KeyError, w') => handler w'
    | r => r
    end.

Definition modify (f : World -> World) : M unit := fun w => (inr tt, f w).

Definition read {A} (f : World -> A) : M A := fun w => (inr (f w), w).

(** [for x in xs: body(x)] *)
Fixpoint for_each {A} (xs : list A) (body : A -> M unit) : M unit :=
  match xs with
  | [] => ret tt
  | x :: xs' => body x ;; for_each xs' body
  end.

(** What user code sees of a value: for a [State] object, its attributes
    at the time of the call. *)
Inductive Seen :=
| SNone
| SCode (c : Code)
| SState (s : State).

Definition see (h : Heap) (v : Value) : Seen :=
  match v with
  | VNone => SNone
  | VCode c => SCode c
  | VState a => SState (h a)
  end.

(** *** Dicts and sets keyed by states *)

(** [d[key]] for a dict whose keys are states of the specification. *)
Definition spec_get {V} (h : Heap) (d : list (Ref * V)) (key : Value) : option V :=
  match find (fun kv => py_eq h (value_of_ref (fst kv)) key) d with
  | Some kv => Some (snd kv)
  | None => None
  end.

(** [d[symbol]] *)
Definition symbol_get {V} (d : list (Symbol * V)) (symbol : Symbol) : option V :=
  match find (fun kv => symbol_eqb (fst kv) symbol) d with
  | Some kv => Some (snd kv)
  | None => None
  end.

(** [cls._states[key]]; the keys of the table are codes. *)
Definition table_get (h : Heap) (t : list (Code * addr)) (key : Value) : option addr :=
  match find (fun kv => py_eq h (VCode (fst kv)) key) t with
  | Some kv => Some (snd kv)
  | None => None
  end.

(** [s.add(x)] and [set(xs)]: an element equal to one already there is
    not added again. *)
Definition set_add (h : Heap) (s : list Value) (x : Value) : list Value :=
  if existsb (fun y => py_eq h y x) s then s else s ++ [x].

Definition py_set (h : Heap) (xs : list Value) : list Value :=
  fold_left (set_add h) xs [].

(** [a - b] on sets *)
Definition set_difference (h : Heap) (a b : list Value) : list Value :=
  filter (fun x => negb (existsb (fun y => py_eq h y x) b)) a.

(** ** class StateMachine: the state table *)

Section Definition_.

(** The class attribute [transitions]: a dict of dicts, in insertion order. *)
Variable transitions : list (Ref * list (Symbol * Ref)).

(** The values of the inner dicts: the [right_side] comprehension. *)
Definition right_side : list Ref :=
  flat_map (fun kv => map snd (snd kv)) transitions.

(** [cls.transitions.keys()] *)
Definition left_side : list Ref := map fst transitions.

Definition the_table (w : World) : list (Code * addr) :=
  match _states w with
  | Some t => t
  | None => []
  end.

(** [not cls._states]: [None] and the empty dict are both false. *)
Definition not_states (w : World) : bool :=
  match _states w with
  | None | Some [] => true
  | Some (_ :: _) => false
  end.

(** [state = State(state)] unless [state] is a [State] already: where the
    object lives and what it holds. *)
Definition as_state (h : Heap) (r : Ref) : addr * State :=
  match r with
  | Inst n => (ASpec n, h (ASpec n))
  | Bare c => (AWrap c, State_of_code c)
  end.

(** The object made by [State(state)] for a bare code stays alive only
    when it enters the table; a [State] instance of the specification is
    already on the heap. *)
Definition keep (h : Heap) (r : Ref) : Heap :=
  match r with
  | Inst _ => h
  | Bare c => heap_set h (AWrap c) (State_of_code c)
  end.

(** One round of the loop that gathers the states. *)
Definition gather (r : Ref) : M unit :=
  fun w =>
    let h := heap w in
    let '(a, state) := as_state h r in
    match table_get h (the_table w) (VCode (code state)) with
    | None =>
        (inr tt,
         set_states (Some (the_table w ++ [(code state, a)]))
           (set_heap (keep h r) w))
    | Some b =>
        let '(merged, err) := merge_data (h b) state in
        let w' := set_heap (heap_set h b merged) w in
        match err with
        | Some e => (inl e, w')
        | None => (inr tt, w')
        end
    end.

(** [[s for s in cls._states.values() if s.is_initial]] *)
Definition marked (flag : State -> option bool) (w : World) : list Value :=
  map (fun kv => VState (snd kv))
      (filter (fun kv => truthy (flag (heap w (snd kv)))) (the_table w)).

(** [deduce_initial_states] *)
Definition deduce_initial_states (h : Heap) : list Value :=
  set_difference h (py_set h (map value_of_ref left_side))
                   (py_set h (map value_of_ref right_side)).

(** [deduce_terminal_states] *)
Definition deduce_terminal_states (h : Heap) : list Value :=
  set_difference h (py_set h (map value_of_ref right_side))
                   (py_set h (map value_of_ref left_side)).

(** [cls._states[state].is_initial = True] *)
Definition mark_initial (state : Value) : M unit :=
  fun w =>
    match table_get (heap w) (the_table w) state with
    | None => (inl KeyError, w)
    | Some a =>
        let s := heap w a in
        (inr tt,
         set_heap (heap_set (heap w) a
                     (mkState (code s) (label s) (Some true) (is_terminal s))) w)
    end.

(** [cls._states[state].is_terminal = True] *)
Definition mark_terminal (state : Value) : M unit :=
  fun w =>
    match table_get (heap w) (the_table w) state with
    | None => (inl KeyError, w)
    | Some a =>
        let s := heap w a in
        (inr tt,
         set_heap (heap_set (heap w) a
                     (mkState (code s) (label s) (is_initial s) (Some true))) w)
    end.

(** The initial states the construction settles on, read after the
    gathering loop: the marked ones, or else the deduced ones. *)
Definition resolved_initials (w : World) : list Value :=
  match marked is_initial w with
  | [] => deduce_initial_states (heap w)
  | initials => initials
  end.

(** The body of [states] under [if not cls._states], in two parts: the
    loop that gathers the states into a new dict, and the marking of the
    initial and terminal states. *)
Definition gather_states : M unit :=
  modify (set_states (Some [])) ;;
  for_each (right_side ++ left_side) gather.

Definition mark_states : M unit :=
  initials <- read resolved_initials ;;
  terminals <- read (marked is_terminal) ;;
  (if negb (List.length initials =? 1) then raise ImproperlyConfigured else ret tt) ;;
  terminals <- (match terminals with
                | [] => read (fun w => deduce_terminal_states (heap w))
                | _ => ret terminals
                end) ;;
  for_each initials mark_initial ;;
  for_each terminals mark_terminal.

Definition build_states : M unit :=
  gather_states ;; mark_states.

(** The class property [states]. *)
Definition states : M (list (Code * addr)) :=
  fun w =>
    if not_states w then (build_states ;; read the_table) w
    else (inr (the_table w), w).

(** The key a [current_state_code] makes in a lookup. *)
Definition value_of_code (c : option Code) : Value :=
  match c with
  | Some c => VCode c
  | None => VNone
  end.

(** The getter of the property [current_state]. *)
Definition current_state : M Value :=
  try_except_KeyError
    (t <- states ;;
     fun w =>
       match table_get (heap w) t (value_of_code (current_state_code w)) with
       | Some a => (inr (VState a), w)
       | None => (inl KeyError, w)
       end)
    (ret VNone).

(** The setter of the property [current_state]. *)
Definition set_current_state (state : Value) : M unit :=
  t <- states ;;
  fun w =>
    match table_get (heap w) t state with
    | None => (inl KeyError, w)
    | Some a =>
        let c := code (heap w a) in
        (inr tt, emit (EvAssign c) (set_current_state_code (Some c) w))
    end.

(** [get_initial_state]: the loop falls through to [None]. *)
Definition get_initial_state : M Value :=
  t <- states ;;
  read (fun w =>
          match find (fun kv => truthy (is_initial (heap w (snd kv)))) t with
          | Some kv => VState (snd kv)
          | None => VNone
          end).

(** [get_terminals] *)
Definition get_terminals : M (list Value) :=
  t <- states ;;
  read (fun w =>
          map (fun kv => VState (snd kv))
              (filter (fun kv => truthy (is_terminal (heap w (snd kv)))) t)).

(** [__init__], run after the initialisers of the other base classes have
    set [current_state_code] (to the class default [None] or to a stored
    value). *)
Definition __init__ : M unit :=
  c <- read current_state_code ;;
  match c with
  | None => state <- get_initial_state ;; set_current_state state
  | Some _ => ret tt
  end.

(** [get_next] *)
Definition get_next (symbol : Symbol) : M Ref :=
  cs <- current_state ;;
  fun w =>
    match spec_get (heap w) transitions cs with
    | None => (inl KeyError, w)
    | Some row =>
        match symbol_get row symbol with
        | None => (inl KeyError, w)
        | Some next_state => (inr next_state, w)
        end
    end.

End Definition_.

(** ** Handlers *)

(** One component of a rule: [StateMachine.ANY] or a value to compare. *)
Inductive Matcher (A : Type) :=
| ANY
| Exactly (x : A).
Arguments ANY {A}.

(** The key [(from_state, symbol, to_state)] of the dict [handlers]. *)
Definition Rule : Type := Matcher Value * Matcher Symbol * Matcher Value.

Inductive Outcome :=
| Returns (v : RetVal)
| Raises (e : UserExc).

(** A handler is a function object: [handler_id] is its identity, the
    body is run on the machine's current code and on the three arguments
    as the handler sees them. *)
Record Handler := mkHandler {
  handler_id : nat;
  handler_body : option Code -> Seen -> Symbol -> Seen -> Outcome
}.

Definition Rules : Type := list (Rule * list Handler).

(** Equality of two dict keys, component by component; [ANY] is a bare
    [object()], equal to itself only. *)
Definition matcher_eq {A} (eqb : A -> A -> bool) (m1 m2 : Matcher A) : bool :=
  match m1, m2 with
  | ANY, ANY => true
  | Exactly x, Exactly y => eqb x y
  | _, _ => false
  end.

Definition rule_eq (h : Heap) (r1 r2 : Rule) : bool :=
  let '(f1, s1, t1) := r1 in
  let '(f2, s2, t2) := r2 in
  matcher_eq (py_eq h) f1 f2 && matcher_eq symbol_eqb s1 s2
  && matcher_eq (py_eq h) t1 t2.

(** [d[k] = v] *)
Definition rules_set (h : Heap) (d : Rules) (k : Rule) (v : list Handler) : Rules :=
  if existsb (fun kv => rule_eq h (fst kv) k) d
  then map (fun kv => if rule_eq h (fst kv) k then (fst kv, v) else kv) d
  else d ++ [(k, v)].

(** [d.update(other)] *)
Definition rules_update (h : Heap) (d other : Rules) : Rules :=
  fold_left (fun acc kv => rules_set h acc (fst kv) (snd kv)) other d.

(** [s.add(fun)] on a set of functions.  The list stands for the set: it
    holds a function once.  Python iterates a set in an order of its own,
    by hash; the order of the list, that of registration, stands in for
    it, and no property below tells the order in which the handlers of one
    rule are called from the order in which they were registered. *)
Definition handlers_add (s : list Handler) (f : Handler) : list Handler :=
  if existsb (fun g => Nat.eqb (handler_id g) (handler_id f)) s then s
  else s ++ [f].

(** [d[k].add(fun)] on a [defaultdict(set)] *)
Definition rules_add (h : Heap) (d : Rules) (k : Rule) (f : Handler) : Rules :=
  if existsb (fun kv => rule_eq h (fst kv) k) d
  then map (fun kv => if rule_eq h (fst kv) k
                      then (fst kv, handlers_add (snd kv) f) else kv) d
  else d ++ [(k, [f])].

(** The method resolution order of a class [cls] that derives from
    [StateMachine], as far as handlers go.
    - [below]: for [cls] and then each of its bases that come before
      [StateMachine], the [handlers] entry of the class's own [__dict__],
      when it has one;
    - [base_handlers]: [StateMachine.handlers];
    - [above]: for each class after [StateMachine] (at least [object]),
      what its [get_handlers] returns, when it defines one. *)
Record Hierarchy := mkHierarchy {
  below : list (option Rules);
  base_handlers : Rules;
  above : list (option Rules)
}.

Fixpoint first_some {A} (l : list (option A)) : option A :=
  match l with
  | [] => None
  | Some x :: _ => Some x
  | None :: l' => first_some l'
  end.

(** The attribute [cls.handlers], looked up along the MRO. *)
Definition cls_handlers (mro : Hierarchy) : Rules :=
  match first_some (below mro) with
  | Some d => d
  | None => base_handlers mro
  end.

(** [get_handlers].  [super()] is [super(StateMachine, cls)]: the lookup
    of [get_handlers] starts after [StateMachine] in the MRO of [cls]. *)
Definition get_handlers (h : Heap) (mro : Hierarchy) : Rules :=
  let handlers :=
    match first_some (above mro) with
    | Some inherited => inherited
    | None => []
    end in
  rules_update h handlers (cls_handlers mro).

(** The decorator made by [cls.handle(from_state, symbol, to_state)],
    applied to [fun], for the class at the head of [mro]. *)
Definition handle (h : Heap) (rule : Rule) (f : Handler) (mro : Hierarchy)
  : Hierarchy :=
  match below mro with
  | [] => mkHierarchy [] (rules_add h (base_handlers mro) rule f) (above mro)
  | own :: bases =>
      let d := match own with
               | Some d => d
               | None => []
               end in
      mkHierarchy (Some (rules_add h d rule f) :: bases)
                  (base_handlers mro) (above mro)
  end.

(** The same registration made on the [n]-th class of the MRO: the
    classes before it are left alone. *)
Definition handle_at (n : nat) (h : Heap) (rule : Rule) (f : Handler)
           (mro : Hierarchy) : Hierarchy :=
  let sub := handle h rule f
               (mkHierarchy (skipn n (below mro)) (base_handlers mro) (above mro)) in
  mkHierarchy (firstn n (below mro) ++ below sub) (base_handlers sub) (above sub).

(** [condition == arg or condition is StateMachine.ANY] *)
Definition condition_ok {A} (eqb : A -> A -> bool) (condition : Matcher A) (arg : A)
  : bool :=
  match condition with
  | ANY => true
  | Exactly c => eqb c arg
  end.

(** [matches] in [call_handlers] *)
Definition matches (h : Heap) (rule : Rule) (from_state : Value)
           (symbol : Symbol) (to_state : Value) : bool :=
  let '(f, s, t) := rule in
  condition_ok (py_eq h) f from_state && condition_ok symbol_eqb s symbol
  && condition_ok (py_eq h) t to_state.

(** An entry of the list [call_handlers] returns. *)
Definition Result : Type := nat * (RetVal + UserExc).

(** The [try] statement around one handler call, appending to [results]. *)
Definition call_handler (from_state : Value) (symbol : Symbol) (to_state : Value)
           (results : list Result) (handler : Handler) : M (list Result) :=
  fun w =>
    let id := handler_id handler in
    let w1 := emit (EvHandler id from_state symbol to_state) w in
    match handler_body handler (current_state_code w)
            (see (heap w) from_state) symbol (see (heap w) to_state) with
    | Returns v => (inr (results ++ [(id, inl v)]), w1)
    | Raises e =>
        if derives_Exception e
        then (inr (results ++ [(id, inr e)]),
              emit (EvLogHandler id e) (emit EvLogText w1))
        else (inl (Foreign e), w1)
    end.

(** [for x in xs: acc = body(acc, x)] *)
Fixpoint fold_M {A B} (body : B -> A -> M B) (xs : list A) (acc : B) : M B :=
  match xs with
  | [] => ret acc
  | x :: xs' => acc' <- body acc x ;; fold_M body xs' acc'
  end.

(** [call_handlers] *)
Definition call_handlers (mro : Hierarchy) (from_state : Value) (symbol : Symbol)
           (to_state : Value) : M (list Result) :=
  rules <- read (fun w => get_handlers (heap w) mro) ;;
  fold_M (fun results kv =>
            ok <- read (fun w => matches (heap w) (fst kv) from_state symbol to_state) ;;
            if ok
            then fold_M (call_handler from_state symbol to_state) (snd kv) results
            else ret results)
         rules [].

(** ** Transitions *)

Section Machine.

Variable transitions : list (Ref * list (Symbol * Ref)).
(** The guard [allow_transition], on what it sees of its arguments. *)
Variable allow_transition : Seen -> Symbol -> Seen -> bool.
(** What [self.save()] resolves to when a class before [StateMachine] in
    the MRO defines [save] (a Django model does), and what
    [super().save] resolves to after [StateMachine], if anything; both
    run on the current code and return the exception they raise, if any. *)
Variable save_override : option (option Code -> option UserExc).
Variable super_save : option (option Code -> option UserExc).
Variable mro : Hierarchy.

Definition run_hook (hook : option Code -> option UserExc) : M unit :=
  fun w =>
    match hook (current_state_code w) with
    | Some e => (inl (Foreign e), w)
    | None => (inr tt, w)
    end.

(** [StateMachine.save] *)
Definition save : M unit :=
  match super_save with
  | Some hook => run_hook hook
  | None => ret tt
  end.

(** [self.save()] *)
Definition self_save : M unit :=
  modify (emit EvSave) ;;
  match save_override with
  | Some hook => run_hook hook
  | None => save
  end.

(** [self.allow_transition(from_state, symbol, next_state)] *)
Definition call_guard (from_state : Value) (symbol : Symbol) (next_state : Value)
  : M bool :=
  modify (emit (EvGuard from_state symbol next_state)) ;;
  read (fun w => allow_transition (see (heap w) from_state) symbol
                                  (see (heap w) next_state)).

(** [raise IllegalTransition((self.current_state, symbol))] *)
Definition raise_IllegalTransition {A} (symbol : Symbol) : M A :=
  cs <- current_state transitions ;;
  raise (IllegalTransition cs symbol).

(** [transition] *)
Definition transition (symbol : Symbol) : M (list Result) :=
  next_state <- try_except_KeyError
                  (get_next transitions symbol)
                  (raise_IllegalTransition symbol) ;;
  let next_state := value_of_ref next_state in
  from_state <- current_state transitions ;;
  allowed <- call_guard from_state symbol next_state ;;
  if negb allowed then raise_IllegalTransition symbol
  else
    current_state_ <- current_state transitions ;;
    set_current_state transitions next_state ;;
    self_save ;;
    call_handlers mro current_state_ symbol next_state.

End Machine.

(** ** class StateMachineModel ([models.py]) *)

Section Model.

Variable transitions : list (Ref * list (Symbol * Ref)).
(** The messages of Django's system check framework. *)
Variable Message : Type.

(** What [check] raises: the [AttributeError] of an attribute lookup that
    finds nothing, or an exception of the engine that it does not catch. *)
Inductive CheckExc :=
| AttributeError
| Uncaught (e : Exc).

(** [e.message] on an exception of the engine.  [ImproperlyConfigured] is
    declared with an empty body and is raised with one positional
    argument, which an exception keeps in [args]; neither the class nor
    [Exception] has an attribute [message]. *)
Definition message (e : Exc) : option string := None.

(** [StateMachineModel.check].  [errors] is the list that
    [super().check] returned; [Error text] stands for
    [checks.Error(text, hint=None, obj=cls,
    id='StateMachine.ImproperlyConfigured')]. *)
Definition check (Error : string -> Message) (errors : list Message)
  : World -> (CheckExc + list Message) * World :=
  fun w =>
    match states transitions w with
    | (inr _, w') => (inr errors, w')
    | (inl ImproperlyConfigured, w') =>
        match message ImproperlyConfigured with
        | Some text => (inr (errors ++ [Error text]), w')
        | None => (inl AttributeError, w')
        end
    | (inl e, w') => (inl (Uncaught e), w')
    end.

End Model.


End Engine.

Arguments ASpec {Code} n.
Arguments Inst {Code} n.
Arguments VNone {Code}.
Arguments SNone {Code}.
Arguments KeyError {Code Symbol}.
Arguments ValueError {Code Symbol}.
Arguments ImproperlyConfigured {Code Symbol}.
Arguments Foreign {Code Symbol} e.
Arguments EvSave {Code Symbol}.
Arguments EvLogText {Code Symbol}.
Arguments EvLogHandler {Code Symbol} id e.
Arguments EvAssign {Code Symbol} c.
Arguments Returns {RetVal} v.
Arguments Raises {RetVal} e.
Arguments ANY {A}.
Arguments merge_data {Code Code_eq_dec Symbol} self other.
Arguments AttributeError {Code Symbol}.

(** ** What the specification says of [merge_data] *)

Section MergeSpec.

Variable Code : Type.

(** Both sides hold a value for the attribute, and the values differ. *)
Definition conflicting {A} (mine theirs : option A) : Prop :=
  exists x y, mine = Some x /\ theirs = Some y /\ x <> y.

(** The value that is not null, when there is one. *)
Definition non_null {A} (mine theirs : option A) : option A :=
  match mine with
  | Some x => Some x
  | None => theirs
  end.

Definition conflict (self other : State Code) : Prop :=
  conflicting (label self) (label other)
  \/ conflicting (is_initial self) (is_initial other)
  \/ conflicting (is_terminal self) (is_terminal other).

Definition merged (self other : State Code) : State Code :=
  mkState (code self)
          (non_null (label self) (label other))
          (non_null (is_initial self) (is_initial other))
          (non_null (is_terminal self) (is_terminal other)).

End MergeSpec.

(** ** The machines of [tests.py] *)

Module Tests.

Open Scope string_scope.

(** Symbols are strings or [None]. *)
Definition Sym : Type := option string.

#[export] Instance nat_EqDec : EqDec nat := Nat.eq_dec.

#[export] Instance Sym_EqDec : EqDec Sym.
Proof. intros a b. unfold Sym in a, b. decide equality. apply string_dec. Defined.

Definition hash_nat (n : nat) : Z := Z.of_nat n.

(** [State(0, "initial")] and [State(1, "label1")] *)
Definition initial : State nat := mkState 0 (Some "initial") None None.
Definition label1 : State nat := mkState 1 (Some "label1") None None.

(** The heap when the class body of [TestStateMachine] has run. *)
Definition heap0 : Heap nat :=
  fun a =>
    match a with
    | ASpec 0 => initial
    | ASpec 1 => label1
    | ASpec _ => State_of_code 0
    | AWrap c => State_of_code c
    end.

(** [TestStateMachine.transitions] *)
Definition transitions : list (Ref nat * list (Sym * Ref nat)) :=
  [ (Inst 0, [(Some "success", Inst 1); (Some "fail", Bare 2)]);
    (Bare 1, [(None, Bare 2)]) ].

(** A new instance of a class whose table is not built yet. *)
Definition world0 : World nat Sym := mkWorld heap0 None None [].

(** An instance whose stored code is no state of the machine. *)
Definition stale : World nat Sym := mkWorld heap0 None (Some 7) [].

Definition always : Seen nat -> Sym -> Seen nat -> bool := fun _ _ _ => true.

(** Handlers: one that returns, one that raises an [Exception], one that
    leaves through [sys.exit()]. *)
Definition returns (id : nat) : Handler nat Sym string :=
  mkHandler id (fun _ _ _ _ => Returns "ok").

Definition fails (id : nat) : Handler nat Sym string :=
  mkHandler id (fun _ _ _ _ => Raises (mkUserExc "CallableCalled" true)).

Definition exits (id : nat) : Handler nat Sym string :=
  mkHandler id (fun _ _ _ _ => Raises (mkUserExc "SystemExit" false)).

Definition from_0 : Rule nat Sym := (Exactly (VCode 0), ANY, ANY).
Definition to_1 : Rule nat Sym := (ANY, ANY, Exactly (VCode 1)).

(** A class deriving from [StateMachine] alone, with no handler yet. *)
Definition plain : Hierarchy nat Sym string := mkHierarchy [None] [] [None].

(** [SMSub(SMSuper(StateMachine))], no handler yet. *)
Definition SMSub : Hierarchy nat Sym string := mkHierarchy [None; None] [] [None].

(** [@SMSuper.handle(from_state=0)] on handler 1, then
    [@SMSub.handle(to_state=1)] on handler 2. *)
Definition SMSub_both : Hierarchy nat Sym string :=
  handle heap0 to_1 (returns 2)
    (handle_at 1 heap0 from_0 (returns 1) SMSub).

(** [@SMSuper.handle(from_state=0)] alone, as [test_subclassing] has it. *)
Definition SMSub_inherits : Hierarchy nat Sym string :=
  handle_at 1 heap0 from_0 (returns 1) SMSub.

Definition machine (mro : Hierarchy nat Sym string)
  : Sym -> M nat Sym (list (Result string)) :=
  transition transitions always None None mro.

Definition init : M nat Sym unit := __init__ transitions.

(** The instance after [__init__], and after [transition("success")]. *)
Definition started : World nat Sym := snd (init world0).

Definition after_success : World nat Sym :=
  snd (machine plain (Some "success") started).

(** Two handlers that both match the move from 0 to 1: the first raises
    an [Exception], or leaves through [sys.exit()]. *)
Definition raising : Hierarchy nat Sym string :=
  handle heap0 to_1 (returns 2) (handle heap0 from_0 (fails 1) plain).

Definition exiting : Hierarchy nat Sym string :=
  handle heap0 to_1 (returns 2) (handle heap0 from_0 (exits 1) plain).

(** The base class of [SMSub], with the same registrations. *)
Definition SMSuper_both : Hierarchy nat Sym string :=
  mkHierarchy (tl (below SMSub_both)) (base_handlers SMSub_both)
              (above SMSub_both).

(** A [save] that fails, as that of a model whose database is away. *)
Definition database_down : option nat -> option UserExc :=
  fun _ => Some (mkUserExc "DatabaseError" true).

Definition stored (mro : Hierarchy nat Sym string)
  : Sym -> M nat Sym (list (Result string)) :=
  transition transitions always (Some database_down) None mro.

(** Two declarations of the state 0 with different labels. *)
Definition zero_a : State nat := mkState 0 (Some "a") None None.
Definition zero_b : State nat := mkState 0 (Some "b") None (Some true).
Definition zero_bare : State nat := State_of_code 0.

(** The transitions of the purpose example:
    [{0: {"go": 1, "skip": 2}, 1: {"done": 2}}]. *)
Definition example : list (Ref nat * list (Sym * Ref nat)) :=
  [ (Bare 0, [(Some "go", Bare 1); (Some "skip", Bare 2)]);
    (Bare 1, [(Some "done", Bare 2)]) ].


(** [{State(0, "a"): {"go": 1}, 1: {"back": State(0, "b")}}]: the state 0
    is declared with two labels. *)
Definition heap_clash : Heap nat :=
  fun a =>
    match a with
    | ASpec 0 => zero_a
    | ASpec 1 => mkState 0 (Some "b") None None
    | ASpec _ => State_of_code 0
    | AWrap c => State_of_code c
    end.

Definition clash : list (Ref nat * list (Sym * Ref nat)) :=
  [ (Inst 0, [(Some "go", Bare 1)]); (Bare 1, [(Some "back", Inst 1)]) ].

(** [{0: {"go": 1}, 1: {"back": 0}}]: every state is a destination. *)
Definition cycle : list (Ref nat * list (Sym * Ref nat)) :=
  [ (Bare 0, [(Some "go", Bare 1)]); (Bare 1, [(Some "back", Bare 0)]) ].

(** [{State(0, is_initial=True): {"go": State(1, is_initial=True)}}] *)
Definition heap_two : Heap nat :=
  fun a =>
    match a with
    | ASpec 0 => mkState 0 None (Some true) None
    | ASpec 1 => mkState 1 None (Some true) None
    | ASpec _ => State_of_code 0
    | AWrap c => State_of_code c
    end.

Definition two_initials : list (Ref nat * list (Sym * Ref nat)) :=
  [ (Inst 0, [(Some "go", Inst 1)]) ].

(** The class after its table was built, and after the construction of
    [cycle] has raised. *)
Definition built : World nat Sym := snd (states transitions world0).

Definition failed : World nat Sym := snd (states cycle world0).

(** A class with one handler, [@cls.handle(from_state=0)]. *)
Definition notified : Hierarchy nat Sym string :=
  handle heap0 from_0 (returns 1) plain.


(** A handler that is left through [KeyboardInterrupt], and a class with
    three rules that all match the move from 0 to 1: the first handler
    raises an [Exception], the second [KeyboardInterrupt], the third
    returns. *)
Definition interrupts (id : nat) : Handler nat Sym string :=
  mkHandler id (fun _ _ _ _ => Raises (mkUserExc "KeyboardInterrupt" false)).

Definition on_success : Rule nat Sym := (ANY, Exactly (Some "success"), ANY).

Definition mixed : Hierarchy nat Sym string :=
  handle heap0 to_1 (returns 3)
    (handle heap0 on_success (interrupts 2)
       (handle heap0 from_0 (fails 1) plain)).

(** [{State(0, is_initial=True): {"go": 1}, 1: {"back": 0}}]: one initial
    state and no terminal state. *)
Definition heap_loop : Heap nat :=
  fun a =>
    match a with
    | ASpec 0 => mkState 0 None (Some true) None
    | ASpec _ => State_of_code 0
    | AWrap c => State_of_code c
    end.

Definition loop : list (Ref nat * list (Sym * Ref nat)) :=
  [ (Inst 0, [(Some "go", Bare 1)]); (Bare 1, [(Some "back", Bare 0)]) ].

Definition world_loop : World nat Sym := mkWorld heap_loop None None [].

End Tests.

(** ** Vocabulary of the properties *)

Section Vocabulary.

Variable Code : Type.
Context {Code_eq_dec : EqDec Code}.
Variable Symbol : Type.
Context {Symbol_eq_dec : EqDec Symbol}.
Variable RetVal : Type.

(** The instance is as it was: same code, nothing called. *)
Definition untouched (w w' : World Code Symbol) : Prop :=
  current_state_code w' = current_state_code w /\ trace w' = trace w.

(** The exceptions the engine raises while it builds or reads the table. *)
Definition table_exc (e : Exc Code Symbol) : Prop :=
  match e with
  | KeyError | ValueError | ImproperlyConfigured => True
  | _ => False
  end.

(** A computation that leaves the instance alone and raises nothing but
    the exceptions of the table. *)
Definition quiet {A} (m : M Code Symbol A) : Prop :=
  forall w r w', m w = (r, w') ->
    untouched w w' /\ (forall e, r = inl e -> table_exc e).

(** What [call_handlers] adds to the trace. *)
Definition is_dispatch_event (e : Event Code Symbol) : Prop :=
  match e with
  | EvHandler _ _ _ _ | EvLogText | EvLogHandler _ _ => True
  | _ => False
  end.

(** The commit hook that [self.save()] ends up running. *)
Definition commit_hook (save_override super_save : option (option Code -> option UserExc))
  : option Code -> option UserExc :=
  match save_override, super_save with
  | Some hook, _ => hook
  | None, Some hook => hook
  | None, None => fun _ => None
  end.

(** Every entry of the table sits under its own code. *)
Definition table_ok (w : World Code Symbol) : Prop :=
  forall k a, In (k, a) (the_table w) -> code (heap w a) = k.

(** [current_state_code] is the code of a state of the table. *)
Definition in_table (w : World Code Symbol) : Prop :=
  exists c a,
    current_state_code w = Some c
    /\ table_get (heap w) (the_table w) (VCode c) = Some a
    /\ code (heap w a) = c.

(** The handlers of the rules that match, in dispatch order. *)
Definition selected (h : Heap Code) (rules : Rules Code Symbol RetVal)
           (from_state : Value Code) (symbol : Symbol) (to_state : Value Code)
  : list (Handler Code Symbol RetVal) :=
  flat_map (fun kv => if matches h (fst kv) from_state symbol to_state
                      then snd kv else []) rules.

(** What one handler does when called, and what is recorded of it. *)
Definition outcome (w : World Code Symbol) (from_state : Value Code)
           (symbol : Symbol) (to_state : Value Code)
           (handler : Handler Code Symbol RetVal) : Outcome RetVal :=
  handler_body handler (current_state_code w)
               (see (heap w) from_state) symbol (see (heap w) to_state).

Definition recorded (w : World Code Symbol) (from_state : Value Code)
           (symbol : Symbol) (to_state : Value Code)
           (handler : Handler Code Symbol RetVal) : Result RetVal :=
  (handler_id handler,
   match outcome w from_state symbol to_state handler with
   | Returns v => inl v
   | Raises e => inr e
   end).

(** The handler raises nothing that [except Exception] lets through. *)
Definition raises_only_Exception (w : World Code Symbol) (from_state : Value Code)
           (symbol : Symbol) (to_state : Value Code)
           (handler : Handler Code Symbol RetVal) : Prop :=
  forall e, outcome w from_state symbol to_state handler = Raises e ->
            derives_Exception e = true.

(** What the call of one handler adds to the trace. *)
Definition dispatch_events (w : World Code Symbol) (from_state : Value Code)
           (symbol : Symbol) (to_state : Value Code)
           (handler : Handler Code Symbol RetVal) : list (Event Code Symbol) :=
  EvHandler (handler_id handler) from_state symbol to_state
  :: match outcome w from_state symbol to_state handler with
     | Returns _ => []
     | Raises e => [EvLogText; EvLogHandler (handler_id handler) e]
     end.

(** A computation that only runs handlers: it changes neither the
    objects, nor the table, nor the code, adds dispatch events only, and
    raises nothing but what a handler raised past [except Exception]. *)
Definition only_dispatches {A} (m : M Code Symbol A) : Prop :=
  forall w r w', m w = (r, w') ->
    heap w' = heap w /\ _states w' = _states w
    /\ current_state_code w' = current_state_code w
    /\ (exists post, trace w' = trace w ++ post /\ Forall is_dispatch_event post)
    /\ (forall e, r = inl e ->
          exists u, e = Foreign u /\ derives_Exception u = false).

(** No handler reachable from the class ever raises past [except
    Exception]. *)
Definition well_behaved (mro : Hierarchy Code Symbol RetVal) : Prop :=
  forall h rule handlers handler,
    In (rule, handlers) (get_handlers h mro) -> In handler handlers ->
    forall c f s t e,
      handler_body handler c f s t = Raises e -> derives_Exception e = true.




(** [table_ok], and the objects made for bare codes sit under the code
    they were made for. *)
Definition table_sound (w : World Code Symbol) : Prop :=
  forall k a, In (k, a) (the_table w) ->
              code (heap w a) = k /\ (forall d, a = AWrap d -> d = k).

(** A computation that keeps a property of the world, whether it returns
    or raises. *)
Definition preserves {A} (P : World Code Symbol -> Prop) (m : M Code Symbol A)
  : Prop :=
  forall w r w', m w = (r, w') -> P w -> P w'.


(** *** Table construction, as the specification tells it *)

(** What a state of the specification declares: the attributes of the
    [State] instance when construction starts, or none for a bare code. *)
Definition declared (h0 : Heap Code) (r : Ref Code) : State Code :=
  snd (as_state h0 r).

(** Two declarations of one code hold different non-null values for an
    attribute. *)
Definition conflict_among (h0 : Heap Code) (refs : list (Ref Code)) : Prop :=
  exists r1 r2,
    In r1 refs /\ In r2 refs
    /\ code (declared h0 r1) = code (declared h0 r2)
    /\ conflict (declared h0 r1) (declared h0 r2).

(** Some declaration of the code is marked [is_initial]. *)
Definition explicitly_initial (h0 : Heap Code) (refs : list (Ref Code)) (c : Code)
  : Prop :=
  exists r, In r refs /\ code (declared h0 r) = c
            /\ is_initial (declared h0 r) = Some true.

(** The code is a key of [transitions] and never a destination. *)
Definition only_source (h0 : Heap Code)
           (transitions : list (Ref Code * list (Symbol * Ref Code))) (c : Code)
  : Prop :=
  (exists r, In r (left_side transitions) /\ code (declared h0 r) = c)
  /\ ~ (exists r, In r (right_side transitions) /\ code (declared h0 r) = c).

(** The initial set: the codes marked explicitly when there are any, the
    deduced ones otherwise. *)
Definition initial_set (h0 : Heap Code)
           (transitions : list (Ref Code * list (Symbol * Ref Code))) (c : Code)
  : Prop :=
  let refs := right_side transitions ++ left_side transitions in
  ((exists d, explicitly_initial h0 refs d) /\ explicitly_initial h0 refs c)
  \/ (~ (exists d, explicitly_initial h0 refs d) /\ only_source h0 transitions c).

Definition exactly_one {A} (P : A -> Prop) : Prop :=
  exists x, P x /\ forall y, P y -> y = x.

(** *** The invariant of the gathering loop *)

(** The attribute [f] that the declaration gives, if it gives one, is
    the one the merged state has. *)
Definition agrees_on {A} (f : State Code -> option A) (s m : State Code) : Prop :=
  f s = None \/ f s = f m.

Definition agrees (s m : State Code) : Prop :=
  agrees_on (@label _) s m /\ agrees_on (@is_initial _) s m
  /\ agrees_on (@is_terminal _) s m.

(** The attribute [f] that the merged state has, if it has one, comes
    from a declaration of its code. *)
Definition supported_on {A} (f : State Code -> option A) (h0 : Heap Code)
           (seen : list (Ref Code)) (k : Code) (m : State Code) : Prop :=
  f m = None
  \/ exists r, In r seen /\ code (declared h0 r) = k /\ f (declared h0 r) = f m.

Definition supported (h0 : Heap Code) (seen : list (Ref Code)) (k : Code)
           (m : State Code) : Prop :=
  supported_on (@label _) h0 seen k m /\ supported_on (@is_initial _) h0 seen k m
  /\ supported_on (@is_terminal _) h0 seen k m.

(** What a successful merge makes of one attribute. *)
Definition joins {A} (mine theirs v : option A) : Prop :=
  v = non_null mine theirs /\ (theirs = None \/ theirs = v)
  /\ (mine = None \/ mine = v).

(** The world after the loop has gone through [seen], from the heap [h0]. *)
Record gathered (h0 : Heap Code) (seen : list (Ref Code)) (w : World Code Symbol)
  : Prop := mkGathered {
  g_codes : forall n, code (heap w (ASpec n)) = code (h0 (ASpec n));
  g_sound : table_sound w;
  g_nodup : NoDup (map fst (the_table w));
  g_keys : forall c, In c (map fst (the_table w))
                     <-> exists r, In r seen /\ code (declared h0 r) = c;
  g_fresh : forall n, (forall k, ~ In (k, ASpec n) (the_table w)) ->
                      heap w (ASpec n) = h0 (ASpec n);
  g_from : forall k n, In (k, ASpec n) (the_table w) -> In (Inst n) seen;
  g_agrees : forall k a r, In (k, a) (the_table w) -> In r seen ->
                           code (declared h0 r) = k ->
                           agrees (declared h0 r) (heap w a);
  g_supported : forall k a, In (k, a) (the_table w) ->
                            supported h0 seen k (heap w a)
}.


(** The table has an entry for the code of the value. *)
Definition findable (w : World Code Symbol) (v : Value Code) : Prop :=
  exists k, In k (map fst (the_table w)) /\ value_code (heap w) v = Some k.

(** Same table, and every object has kept its code. *)
Definition same_codes (w w' : World Code Symbol) : Prop :=
  the_table w' = the_table w /\ forall a, code (heap w' a) = code (heap w a).


(** [c] is the code of the state that the table holds for [state]: what
    the setter of [current_state] stores. *)
Definition code_in_table (w : World Code Symbol) (state : Value Code) (c : Code)
  : Prop :=
  exists b, table_get (heap w) (the_table w) state = Some b
            /\ code (heap w b) = c.


(** *** Marking, as the specification tells it *)

(** Some declaration of the code is marked [is_terminal]. *)
Definition explicitly_terminal (h0 : Heap Code) (refs : list (Ref Code)) (c : Code)
  : Prop :=
  exists r, In r refs /\ code (declared h0 r) = c
            /\ is_terminal (declared h0 r) = Some true.

(** The code is a destination and never a key of [transitions]. *)
Definition only_destination (h0 : Heap Code)
           (transitions : list (Ref Code * list (Symbol * Ref Code))) (c : Code)
  : Prop :=
  (exists r, In r (right_side transitions) /\ code (declared h0 r) = c)
  /\ ~ (exists r, In r (left_side transitions) /\ code (declared h0 r) = c).

(** The terminal set: the codes marked explicitly when there are any, the
    deduced ones otherwise. *)
Definition terminal_set (h0 : Heap Code)
           (transitions : list (Ref Code * list (Symbol * Ref Code))) (c : Code)
  : Prop :=
  let refs := right_side transitions ++ left_side transitions in
  ((exists d, explicitly_terminal h0 refs d) /\ explicitly_terminal h0 refs c)
  \/ (~ (exists d, explicitly_terminal h0 refs d) /\ only_destination h0 transitions c).

(** The terminal states the construction settles on, read after the
    gathering loop: the marked ones, or else the deduced ones. *)
Definition resolved_terminals
           (transitions : list (Ref Code * list (Symbol * Ref Code)))
           (w : World Code Symbol) : list (Value Code) :=
  match marked (@is_terminal _) w with
  | [] => deduce_terminal_states transitions (heap w)
  | terminals => terminals
  end.

(** The two assignments of the marking loops, on the attribute values. *)
Definition set_initial (s : State Code) : State Code :=
  mkState (code s) (label s) (Some true) (is_terminal s).

Definition set_terminal (s : State Code) : State Code :=
  mkState (code s) (label s) (is_initial s) (Some true).

(** [cls._states[state]] is updated in place by [upd]: the shape that
    [mark_initial] and [mark_terminal] share. *)
Definition mark_by (upd : State Code -> State Code) (state : Value Code)
  : M Code Symbol unit :=
  fun w =>
    match table_get (heap w) (the_table w) state with
    | None => (inl KeyError, w)
    | Some a => (inr tt, set_heap (heap_set (heap w) a (upd (heap w a))) w)
    end.

(** One of the values [vs] is looked up in the table to the object [a]. *)
Definition lands (w : World Code Symbol) (vs : list (Value Code)) (a : addr Code)
  : bool :=
  existsb (fun v => match table_get (heap w) (the_table w) v with
                    | Some b => addr_eqb b a
                    | None => false
                    end) vs.

(** The objects after the two marking loops have run from [w1]. *)
Definition marked_heap
           (transitions : list (Ref Code * list (Symbol * Ref Code)))
           (w1 : World Code Symbol) (a : addr Code) : State Code :=
  let s := if lands w1 (resolved_initials transitions w1) a
           then set_initial (heap w1 a) else heap w1 a in
  if lands w1 (resolved_terminals transitions w1) a then set_terminal s else s.


(** The class has a table that [not cls._states] takes for built. *)
Definition has_table (w : World Code Symbol) : Prop := the_table w <> [].


(** *** Rules, as the specification tells them *)

(** A component of a rule is [ANY], or stands for the code of the
    argument (for [None] when the argument is [None]). *)
Definition stands_for (h : Heap Code) (condition : Matcher (Value Code))
           (arg : Value Code) : Prop :=
  match condition with
  | ANY => True
  | Exactly v => value_code h v = value_code h arg
  end.

Definition is_symbol (condition : Matcher Symbol) (symbol : Symbol) : Prop :=
  match condition with
  | ANY => True
  | Exactly s => s = symbol
  end.

(** The dict holds the key [k], and every set under a key equal to [k]
    holds the function [f]. *)
Definition registered (h : Heap Code) (d : Rules Code Symbol RetVal)
           (k : Rule Code Symbol) (f : Handler Code Symbol RetVal) : Prop :=
  (exists kv, In kv d /\ rule_eq h (fst kv) k = true)
  /\ forall kv, In kv d -> rule_eq h (fst kv) k = true ->
                exists g, In g (snd kv) /\ handler_id g = handler_id f.


(** The objects and the table of the class are those of [w0]. *)
Definition keeps_class (w0 w : World Code Symbol) : Prop :=
  heap w = heap w0 /\ _states w = _states w0.


End Vocabulary.

(** * Properties *)

Section Properties.

Variable Code : Type.
Context {Code_eq_dec : EqDec Code}.
Variable Symbol : Type.
Context {Symbol_eq_dec : EqDec Symbol}.
Variable RetVal : Type.

(** ** Equality *)

Lemma code_eqb_true (a b : Code) : code_eqb a b = true <-> a = b.
Proof. unfold code_eqb. destruct (eq_dec a b); split; congruence. Qed.

Lemma code_eqb_refl (a : Code) : code_eqb a a = true.
Proof. now apply code_eqb_true. Qed.

Lemma code_eqb_false (a b : Code) : code_eqb a b = false <-> a <> b.
Proof. unfold code_eqb. destruct (eq_dec a b); split; congruence. Qed.

Lemma addr_eqb_true (a b : addr Code) : addr_eqb a b = true <-> a = b.
Proof.
  destruct a, b; simpl; try (split; congruence).
  - rewrite Nat.eqb_eq. split; congruence.
  - rewrite code_eqb_true. split; congruence.
Qed.

Lemma heap_set_same (h : Heap Code) (a : addr Code) (s : State Code) :
  heap_set h a s a = s.
Proof.
  unfold heap_set. now rewrite (proj2 (addr_eqb_true a a) eq_refl).
Qed.

Lemma heap_set_other (h : Heap Code) (a b : addr Code) (s : State Code) :
  b <> a -> heap_set h a s b = h b.
Proof.
  unfold heap_set. intros N. destruct (addr_eqb b a) eqn:E; [|reflexivity].
  apply addr_eqb_true in E. contradiction.
Qed.

(** Two values that stand for states are equal exactly when their codes
    are. *)
Lemma py_eq_codes (h : Heap Code) (v w : Value Code) (c d : Code) :
  value_code h v = Some c -> value_code h w = Some d ->
  (py_eq h v w = true <-> c = d).
Proof.
  destruct v, w; simpl; intros Hv Hw; try discriminate;
    injection Hv as <-; injection Hw as <-; unfold py_eq; simpl.
  - apply code_eqb_true.
  - rewrite code_eqb_true. split; congruence.
  - apply code_eqb_true.
  - apply code_eqb_true.
Qed.

Lemma py_eq_sym (h : Heap Code) (v w : Value Code) : py_eq h v w = py_eq h w v.
Proof.
  destruct v, w; unfold py_eq; simpl; try reflexivity; unfold code_eqb;
    repeat match goal with |- context [eq_dec ?a ?b] =>
      destruct (eq_dec a b) end; congruence.
Qed.

Lemma py_eq_None (h : Heap Code) (v : Value Code) (c : Code) :
  value_code h v = Some c -> py_eq h v VNone = false.
Proof. destruct v; simpl; intros; try discriminate; reflexivity. Qed.

Section Hashing.

(** Python's [hash] on codes. *)
Variable hash_code : Code -> Z.

(** C8: a [State] made from a code equals that code, whichever side it
    stands on, and hashes like it; two [State]s, or a [State] and a bare
    code, are equal exactly when the codes are. *)
Theorem C8_state_equals_code :
  forall (h : Heap Code) (a b : addr Code) (c d : Code),
    let h' := heap_set h a (State_of_code c) in
    py_eq h' (VState a) (VCode c) = true
    /\ py_eq h' (VCode c) (VState a) = true
    /\ py_hash hash_code h' (VState a) = py_hash hash_code h' (VCode c)
    /\ (py_eq h (VState a) (VState b) = true <-> code (h a) = code (h b))
    /\ (py_eq h (VState a) (VCode d) = true <-> code (h a) = d)
    /\ (py_eq h (VCode d) (VState a) = true <-> d = code (h a))
    /\ py_eq h (VState a) (VState b) = py_eq h (VState b) (VState a)
    /\ py_eq h (VState a) (VCode d) = py_eq h (VCode d) (VState a).
Proof.
  intros h a b c d h'.
  assert (Ha : code (h' a) = c) by (unfold h'; now rewrite heap_set_same).
  repeat split; try apply py_eq_sym.
  - apply (py_eq_codes h' (VState a) (VCode c) (c := c) (d := c));
      simpl; congruence.
  - apply (py_eq_codes h' (VCode c) (VState a) (c := c) (d := c));
      simpl; congruence.
  - simpl. now rewrite Ha.
  - now apply (py_eq_codes h (VState a) (VState b)).
  - now apply (py_eq_codes h (VState a) (VState b)).
  - now apply (py_eq_codes h (VState a) (VCode d)).
  - now apply (py_eq_codes h (VState a) (VCode d)).
  - now apply (py_eq_codes h (VCode d) (VState a)).
  - now apply (py_eq_codes h (VCode d) (VState a)).
Qed.

End Hashing.

(** ** State.merge_data *)

Lemma merge_attr_conflict {A} (eqb : A -> A -> bool)
      (eqb_eq : forall x y, eqb x y = true <-> x = y) (mine theirs : option A) :
  conflicting mine theirs -> merge_attr eqb mine theirs = None.
Proof.
  intros (x & y & -> & -> & N). unfold merge_attr. simpl.
  destruct (eqb x y) eqn:E; [|reflexivity].
  apply eqb_eq in E. contradiction.
Qed.

Lemma merge_attr_agree {A} (eqb : A -> A -> bool)
      (eqb_eq : forall x y, eqb x y = true <-> x = y) (mine theirs : option A) :
  ~ conflicting mine theirs ->
  merge_attr eqb mine theirs = Some (non_null mine theirs).
Proof.
  intros N. unfold merge_attr.
  destruct mine as [x|], theirs as [y|]; simpl; try reflexivity.
  destruct (eqb x y) eqn:E; [reflexivity|].
  exfalso. apply N. exists x, y. repeat split.
  intros ->. rewrite (proj2 (eqb_eq y y) eq_refl) in E. discriminate.
Qed.

(** C6: merging states of different codes is a [ValueError]; with equal
    codes the merge raises [ImproperlyConfigured] when an attribute holds
    two different non-null values, and otherwise yields, attribute by
    attribute, the value that is not null. *)
Theorem C6_merge_data (self other : State Code) :
  (code self <> code other ->
   snd (merge_data (Symbol := Symbol) self other) = Some ValueError)
  /\ (code self = code other -> conflict self other ->
      snd (merge_data (Symbol := Symbol) self other) = Some ImproperlyConfigured)
  /\ (code self = code other -> ~ conflict self other ->
      merge_data (Symbol := Symbol) self other = (merged self other, None)).
Proof.
  unfold merge_data. repeat split.
  - intros N. apply code_eqb_false in N. now rewrite N.
  - intros E C. rewrite (proj2 (code_eqb_true _ _) E). simpl.
    destruct (merge_attr String.eqb (label self) (label other)) eqn:L;
      [|reflexivity].
    destruct (merge_attr Bool.eqb (is_initial self) (is_initial other)) eqn:I;
      [|reflexivity].
    destruct (merge_attr Bool.eqb (is_terminal self) (is_terminal other)) eqn:T;
      [|reflexivity].
    exfalso. destruct C as [C|[C|C]].
    + rewrite (merge_attr_conflict String.eqb String.eqb_eq C) in L. discriminate.
    + rewrite (merge_attr_conflict Bool.eqb Bool.eqb_true_iff C) in I. discriminate.
    + rewrite (merge_attr_conflict Bool.eqb Bool.eqb_true_iff C) in T. discriminate.
  - intros E N. rewrite (proj2 (code_eqb_true _ _) E). simpl.
    rewrite (merge_attr_agree String.eqb String.eqb_eq) by (intros C; apply N; now left).
    rewrite (merge_attr_agree Bool.eqb Bool.eqb_true_iff)
      by (intros C; apply N; right; now left).
    rewrite (merge_attr_agree Bool.eqb Bool.eqb_true_iff)
      by (intros C; apply N; right; now right).
    reflexivity.
Qed.

(** ** The monad *)

Lemma bind_inv {A B} (m : M Code Symbol A) (k : A -> M Code Symbol B) w r w' :
  bind m k w = (r, w') ->
  (exists x w1, m w = (inr x, w1) /\ k x w1 = (r, w'))
  \/ (exists e, m w = (inl e, w') /\ r = inl e).
Proof.
  unfold bind. destruct (m w) as [[e|x] w1]; intros H.
  - right. exists e. injection H as <- <-. now split.
  - left. now exists x, w1.
Qed.

Lemma untouched_refl (w : World Code Symbol) : untouched w w.
Proof. now split. Qed.

Lemma untouched_trans (w1 w2 w3 : World Code Symbol) :
  untouched w1 w2 -> untouched w2 w3 -> untouched w1 w3.
Proof. intros [A B] [C D]. split; congruence. Qed.

Lemma quiet_ret {A} (x : A) : quiet (ret (Code := Code) (Symbol := Symbol) x).
Proof.
  intros w r w' H. injection H as <- <-. split; [apply untouched_refl|].
  discriminate.
Qed.

Lemma quiet_raise {A} (e : Exc Code Symbol) :
  table_exc e -> quiet (raise (A := A) e).
Proof.
  intros T w r w' H. injection H as <- <-. split; [apply untouched_refl|].
  intros e' E. now injection E as <-.
Qed.

Lemma quiet_bind {A B} (m : M Code Symbol A) (k : A -> M Code Symbol B) :
  quiet m -> (forall x, quiet (k x)) -> quiet (bind m k).
Proof.
  intros Qm Qk w r w' H.
  apply bind_inv in H as [(x & w1 & Hm & Hk)|(e & Hm & ->)].
  - destruct (Qm _ _ _ Hm) as [U _]. destruct (Qk x _ _ _ Hk) as [U' T].
    split; [eapply untouched_trans; eauto | exact T].
  - destruct (Qm _ _ _ Hm) as [U T]. split; [exact U|].
    intros e' E. injection E as <-. now apply T.
Qed.

Lemma quiet_read {A} (f : World Code Symbol -> A) : quiet (read f).
Proof.
  intros w r w' H. injection H as <- <-. split; [apply untouched_refl|].
  discriminate.
Qed.

Lemma quiet_modify (f : World Code Symbol -> World Code Symbol) :
  (forall w, untouched w (f w)) -> quiet (modify f).
Proof.
  intros U w r w' H. injection H as <- <-. split; [apply U | discriminate].
Qed.

Lemma quiet_try {A} (body handler : M Code Symbol A) :
  quiet body -> quiet handler -> quiet (try_except_KeyError body handler).
Proof.
  intros Qb Qh w r w'. unfold try_except_KeyError.
  destruct (body w) as [[e|x] w1] eqn:Hb.
  - destruct (Qb _ _ _ Hb) as [U T].
    destruct e; intros H;
      try (injection H as <- <-; split; [exact U|];
           intros e' E; injection E as <-; now apply (T _ eq_refl)).
    destruct (Qh _ _ _ H) as [U' T'].
    split; [eapply untouched_trans; eauto | exact T'].
  - intros H. injection H as <- <-. destruct (Qb _ _ _ Hb) as [U T].
    split; [exact U | discriminate].
Qed.

Lemma quiet_for_each {A} (xs : list A) (body : A -> M Code Symbol unit) :
  (forall x, quiet (body x)) -> quiet (for_each xs body).
Proof.
  intros Q. induction xs as [|x xs IH]; simpl.
  - apply quiet_ret.
  - apply quiet_bind; [apply Q | intros _; exact IH].
Qed.

Lemma set_heap_untouched (h : Heap Code) (w : World Code Symbol) :
  untouched w (set_heap h w).
Proof. now split. Qed.

Lemma set_states_untouched t (w : World Code Symbol) :
  untouched w (set_states t w).
Proof. now split. Qed.


(** ** Building and reading the table leaves the instance alone *)

Section Quiet.

Variable transitions : list (Ref Code * list (Symbol * Ref Code)).

Lemma quiet_gather (r : Ref Code) : quiet (gather (Symbol := Symbol) r).
Proof.
  intros w res w'. unfold gather.
  destruct (as_state (heap w) r) as [a state].
  destruct (table_get _ _ _) as [b|].
  - destruct (merge_data (Symbol := Symbol) (heap w b) state) as [m [e|]] eqn:E;
      intros H; inversion H; subst; (split; [now split|]).
    + intros e' E'. injection E' as <-.
      unfold merge_data in E.
      repeat match type of E with
             | (if ?c then _ else _) = _ => destruct c
             | match ?c with Some _ => _ | None => _ end = _ => destruct c
             end; inversion E; exact I.
    + discriminate.
  - intros H. injection H as <- <-. split; [now split | discriminate].
Qed.

Lemma quiet_mark_initial (v : Value Code) : quiet (mark_initial (Symbol := Symbol) v).
Proof.
  intros w res w'. unfold mark_initial.
  destruct (table_get _ _ _); intros H; injection H as <- <-;
    (split; [now split|]); [discriminate|].
  intros e E. now injection E as <-.
Qed.

Lemma quiet_mark_terminal (v : Value Code) : quiet (mark_terminal (Symbol := Symbol) v).
Proof.
  intros w res w'. unfold mark_terminal.
  destruct (table_get _ _ _); intros H; injection H as <- <-;
    (split; [now split|]); [discriminate|].
  intros e E. now injection E as <-.
Qed.

Lemma quiet_gather_states : quiet (gather_states transitions).
Proof.
  unfold gather_states.
  apply quiet_bind; [apply quiet_modify; intros; apply set_states_untouched|].
  intros _. apply quiet_for_each, quiet_gather.
Qed.

Lemma quiet_mark_states : quiet (mark_states transitions).
Proof.
  unfold mark_states.
  apply quiet_bind; [apply quiet_read|].
  intros initials. apply quiet_bind; [apply quiet_read|].
  intros terminals. apply quiet_bind.
  { destruct (negb _); [now apply quiet_raise | apply quiet_ret]. }
  intros _. apply quiet_bind.
  { destruct terminals; [apply quiet_read | apply quiet_ret]. }
  intros terminals'. apply quiet_bind; [apply quiet_for_each, quiet_mark_initial|].
  intros _. apply quiet_for_each, quiet_mark_terminal.
Qed.

Lemma quiet_build_states : quiet (build_states transitions).
Proof.
  unfold build_states.
  apply quiet_bind; [apply quiet_gather_states | intros _; apply quiet_mark_states].
Qed.

Lemma quiet_states : quiet (states transitions).
Proof.
  intros w r w'. unfold states. destruct (not_states w).
  - apply (@quiet_bind _ _ (build_states transitions) (fun _ => read (@the_table _ _)));
      [apply quiet_build_states | intros _; apply quiet_read].
  - intros H. injection H as <- <-. split; [apply untouched_refl | discriminate].
Qed.

Lemma quiet_current_state : quiet (current_state transitions).
Proof.
  unfold current_state. apply quiet_try; [|apply quiet_ret].
  apply quiet_bind; [apply quiet_states|]. intros t w r w'.
  destruct (table_get _ _ _); intros H; injection H as <- <-;
    (split; [apply untouched_refl|]); [discriminate|].
  intros e E. now injection E as <-.
Qed.

Lemma quiet_get_initial_state : quiet (get_initial_state transitions).
Proof.
  unfold get_initial_state. apply quiet_bind; [apply quiet_states|].
  intros t. apply quiet_read.
Qed.

Lemma quiet_get_next (symbol : Symbol) : quiet (get_next transitions symbol).
Proof.
  unfold get_next. apply quiet_bind; [apply quiet_current_state|]. intros cs w r w'.
  destruct (spec_get _ _ _) as [row|].
  - destruct (symbol_get row symbol); intros H; injection H as <- <-;
      (split; [apply untouched_refl|]); [discriminate|].
    intros e E. now injection E as <-.
  - intros H. injection H as <- <-. split; [apply untouched_refl|].
    intros e E. now injection E as <-.
Qed.

End Quiet.


(** ** Dispatch *)

Lemma only_dispatches_ret {A} (x : A) :
  only_dispatches (ret (Code := Code) (Symbol := Symbol) x).
Proof.
  intros w r w' H. injection H as <- <-. repeat split.
  - exists []. now rewrite app_nil_r.
  - discriminate.
Qed.

Lemma only_dispatches_read {A} (f : World Code Symbol -> A) :
  only_dispatches (read f).
Proof.
  intros w r w' H. injection H as <- <-. repeat split.
  - exists []. now rewrite app_nil_r.
  - discriminate.
Qed.

Lemma only_dispatches_bind {A B} (m : M Code Symbol A) (k : A -> M Code Symbol B) :
  only_dispatches m -> (forall x, only_dispatches (k x)) ->
  only_dispatches (bind m k).
Proof.
  intros Dm Dk w r w' H.
  apply bind_inv in H as [(x & w1 & Hm & Hk)|(e & Hm & ->)].
  - destruct (Dm _ _ _ Hm) as (H1 & S1 & C1 & (p1 & T1 & F1) & _).
    destruct (Dk x _ _ _ Hk) as (H2 & S2 & C2 & (p2 & T2 & F2) & E2).
    repeat split; try congruence; try exact E2.
    exists (p1 ++ p2). split.
    + rewrite T2, T1. now rewrite app_assoc.
    + apply Forall_app. now split.
  - destruct (Dm _ _ _ Hm) as (H1 & S1 & C1 & P1 & E1).
    repeat split; try assumption.
    intros e' E. injection E as <-. now apply E1.
Qed.

Lemma only_dispatches_fold {A B} (body : B -> A -> M Code Symbol B) (xs : list A) :
  (forall acc x, only_dispatches (body acc x)) ->
  forall acc, only_dispatches (fold_M body xs acc).
Proof.
  intros D. induction xs as [|x xs IH]; intros acc; simpl.
  - apply only_dispatches_ret.
  - apply only_dispatches_bind; [apply D | intros acc'; apply IH].
Qed.

Ltac all_dispatch_events :=
  repeat (apply Forall_cons; [exact I|]); apply Forall_nil.

Lemma only_dispatches_call_handler (from_state : Value Code) (symbol : Symbol)
      (to_state : Value Code) (results : list (Result RetVal))
      (handler : Handler Code Symbol RetVal) :
  only_dispatches (call_handler from_state symbol to_state results handler).
Proof.
  intros w r w'. unfold call_handler.
  destruct (handler_body _ _ _ _ _) as [v|e].
  - intros H. injection H as <- <-. repeat split.
    + eexists. split; [reflexivity | all_dispatch_events].
    + discriminate.
  - destruct (derives_Exception e) eqn:D; intros H; injection H as <- <-;
      repeat split.
    + exists [EvHandler (handler_id handler) from_state symbol to_state;
              EvLogText; EvLogHandler (handler_id handler) e].
      split; [simpl; now rewrite <- !app_assoc | all_dispatch_events].
    + discriminate.
    + eexists. split; [reflexivity | all_dispatch_events].
    + intros e' E. injection E as <-. now exists e.
Qed.

Lemma only_dispatches_call_handlers (mro : Hierarchy Code Symbol RetVal)
      (from_state : Value Code) (symbol : Symbol) (to_state : Value Code) :
  only_dispatches (call_handlers mro from_state symbol to_state).
Proof.
  unfold call_handlers. apply only_dispatches_bind; [apply only_dispatches_read|].
  intros rules. apply only_dispatches_fold. intros acc kv.
  apply only_dispatches_bind; [apply only_dispatches_read|].
  intros [|]; [|apply only_dispatches_ret].
  apply only_dispatches_fold. intros acc' handler.
  apply only_dispatches_call_handler.
Qed.


Section DispatchExact.

Variables (from_state : Value Code) (symbol : Symbol) (to_state : Value Code).
(** The world in which dispatch starts. *)
Variable w0 : World Code Symbol.

(** Dispatch passes through worlds that differ from [w0] by the trace. *)
Let same (w : World Code Symbol) : Prop :=
  heap w = heap w0 /\ current_state_code w = current_state_code w0.

Lemma call_handler_exact (results : list (Result RetVal))
      (handler : Handler Code Symbol RetVal) (w : World Code Symbol) :
  raises_only_Exception w0 from_state symbol to_state handler -> same w ->
  exists w',
    call_handler from_state symbol to_state results handler w
    = (inr (results ++ [recorded w0 from_state symbol to_state handler]), w')
    /\ same w'
    /\ trace w' = trace w ++ dispatch_events w0 from_state symbol to_state handler.
Proof.
  intros R [Hh Hc]. unfold call_handler, recorded, dispatch_events.
  unfold raises_only_Exception in R. unfold outcome in *. rewrite Hh, Hc.
  destruct (handler_body _ _ _ _ _) as [v|e].
  - eexists. split; [reflexivity|]. split; [split; assumption | reflexivity].
  - rewrite (R e eq_refl). eexists. split; [reflexivity|].
    split; [split; assumption|]. simpl. now rewrite <- !app_assoc.
Qed.

Lemma call_handlers_of_rule (handlers : list (Handler Code Symbol RetVal)) :
  forall (results : list (Result RetVal)) (w : World Code Symbol),
    Forall (raises_only_Exception w0 from_state symbol to_state) handlers ->
    same w ->
    exists w',
      fold_M (call_handler from_state symbol to_state) handlers results w
      = (inr (results ++ map (recorded w0 from_state symbol to_state) handlers), w')
      /\ same w'
      /\ trace w' = trace w
                    ++ flat_map (dispatch_events w0 from_state symbol to_state) handlers.
Proof.
  induction handlers as [|handler handlers IH]; intros results w F S; simpl.
  - exists w. rewrite !app_nil_r. split; [reflexivity|]. now split.
  - inversion F as [|? ? R F']; subst.
    destruct (call_handler_exact results R S) as (w1 & E1 & S1 & T1).
    destruct (IH (results ++ [recorded w0 from_state symbol to_state handler])
                 w1 F' S1) as (w2 & E2 & S2 & T2).
    exists w2. unfold bind. rewrite E1, E2. repeat split; try apply S2.
    + now rewrite <- app_assoc.
    + rewrite T2, T1. now rewrite <- app_assoc.
Qed.

Lemma call_handlers_of_rules (rules : Rules Code Symbol RetVal) :
  forall (results : list (Result RetVal)) (w : World Code Symbol),
    Forall (raises_only_Exception w0 from_state symbol to_state)
           (selected (heap w0) rules from_state symbol to_state) ->
    same w ->
    exists w',
      fold_M (fun results kv =>
                bind (read (fun w => matches (heap w) (fst kv)
                                             from_state symbol to_state))
                     (fun ok : bool =>
                        if ok
                        then fold_M (call_handler from_state symbol to_state)
                                    (snd kv) results
                        else ret results))
             rules results w
      = (inr (results
              ++ map (recorded w0 from_state symbol to_state)
                     (selected (heap w0) rules from_state symbol to_state)), w')
      /\ same w'
      /\ trace w' = trace w
                    ++ flat_map (dispatch_events w0 from_state symbol to_state)
                                (selected (heap w0) rules from_state symbol to_state).
Proof.
  induction rules as [|[rule handlers] rules IH]; intros results w F S; simpl.
  - exists w. rewrite !app_nil_r. split; [reflexivity|]. now split.
  - unfold selected in F. simpl in F. apply Forall_app in F as [F1 F2].
    unfold bind at 1. unfold bind at 1. unfold read at 1.
    destruct S as [Hh Hc]. rewrite Hh.
    destruct (matches (heap w0) rule from_state symbol to_state) eqn:Hm.
    + destruct (call_handlers_of_rule results F1 (conj Hh Hc)) as (w1 & E1 & S1 & T1).
      rewrite E1.
      destruct (IH (results ++ map (recorded w0 from_state symbol to_state) handlers)
                   w1 F2 S1) as (w2 & E2 & S2 & T2).
      exists w2. rewrite E2. rewrite map_app, flat_map_app.
      split; [now rewrite <- app_assoc|]. split; [exact S2|].
      rewrite T2, T1. now rewrite <- app_assoc.
    + destruct (IH results w F2 (conj Hh Hc)) as (w2 & E2 & S2 & T2).
      exists w2. unfold ret at 1. rewrite E2.
      split; [reflexivity|]. split; [exact S2 | exact T2].
Qed.

End DispatchExact.

(** *** Dispatch that a handler leaves *)

Section DispatchEscape.

Variables (from_state : Value Code) (symbol : Symbol) (to_state : Value Code).
(** The world in which dispatch starts. *)
Variable w0 : World Code Symbol.

Let unchanged (w : World Code Symbol) : Prop :=
  heap w = heap w0 /\ current_state_code w = current_state_code w0.

(** The handler that raises past [except Exception], and its exception. *)
Variable escaping : Handler Code Symbol RetVal.
Variable exc : UserExc.
Hypothesis raises : outcome w0 from_state symbol to_state escaping = Raises exc.
Hypothesis not_caught : derives_Exception exc = false.

Lemma call_handler_escapes (results : list (Result RetVal)) (w : World Code Symbol) :
  unchanged w ->
  call_handler from_state symbol to_state results escaping w
  = (inl (Foreign exc),
     emit (EvHandler (handler_id escaping) from_state symbol to_state) w).
Proof.
  intros [Hh Hc]. unfold call_handler. unfold outcome in raises.
  now rewrite Hh, Hc, raises, not_caught.
Qed.

Lemma escape_in_rule (pre post : list (Handler Code Symbol RetVal)) :
  forall (results : list (Result RetVal)) (w : World Code Symbol),
    Forall (raises_only_Exception w0 from_state symbol to_state) pre ->
    unchanged w ->
    exists w',
      fold_M (call_handler from_state symbol to_state) (pre ++ escaping :: post)
             results w
      = (inl (Foreign exc), w')
      /\ unchanged w'
      /\ trace w' = trace w
                    ++ flat_map (dispatch_events w0 from_state symbol to_state) pre
                    ++ [EvHandler (handler_id escaping) from_state symbol to_state].
Proof.
  induction pre as [|p pre IH]; intros results w F S; simpl.
  - eexists. unfold bind. rewrite (call_handler_escapes results S).
    split; [reflexivity|]. split; [exact S | reflexivity].
  - inversion F as [|? ? R F']; subst.
    destruct (@call_handler_exact from_state symbol to_state w0 results p w R S)
      as (w1 & E1 & S1 & T1).
    destruct (IH (results ++ [recorded w0 from_state symbol to_state p]) w1 F' S1)
      as (w2 & E2 & S2 & T2).
    exists w2. unfold bind. rewrite E1, E2. split; [reflexivity|].
    split; [exact S2|]. rewrite T2, T1. now rewrite <- !app_assoc.
Qed.

Lemma escape_in_rules (rules : Rules Code Symbol RetVal) :
  forall (pre post : list (Handler Code Symbol RetVal))
         (results : list (Result RetVal)) (w : World Code Symbol),
    selected (heap w0) rules from_state symbol to_state = pre ++ escaping :: post ->
    Forall (raises_only_Exception w0 from_state symbol to_state) pre ->
    unchanged w ->
    exists w',
      fold_M (fun results kv =>
                bind (read (fun w => matches (heap w) (fst kv)
                                             from_state symbol to_state))
                     (fun ok : bool =>
                        if ok
                        then fold_M (call_handler from_state symbol to_state)
                                    (snd kv) results
                        else ret results))
             rules results w
      = (inl (Foreign exc), w')
      /\ unchanged w'
      /\ trace w' = trace w
                    ++ flat_map (dispatch_events w0 from_state symbol to_state) pre
                    ++ [EvHandler (handler_id escaping) from_state symbol to_state].
Proof.
  induction rules as [|[rule handlers] rules IH]; intros pre post results w Sel F S.
  - unfold selected in Sel. simpl in Sel.
    exfalso. exact (app_cons_not_nil _ _ _ Sel).
  - unfold selected in Sel. simpl in Sel. fold (selected (heap w0) rules
                                                  from_state symbol to_state) in Sel.
    simpl. unfold bind at 1. unfold bind at 1. unfold read at 1.
    destruct S as [Hh Hc]. rewrite Hh.
    destruct (matches (heap w0) rule from_state symbol to_state) eqn:Hm.
    + apply app_eq_app in Sel as (l & [[Eh El]|[Ep Es]]).
      * destruct l as [|x l].
        -- rewrite app_nil_r in Eh. subst handlers. simpl in El.
           destruct (@call_handlers_of_rule from_state symbol to_state w0 pre
                       results w F (conj Hh Hc)) as (w1 & E1 & S1 & T1).
           rewrite E1.
           destruct (IH [] post
                        (results ++ map (recorded w0 from_state symbol to_state) pre)
                        w1 (eq_sym El) (Forall_nil _) S1) as (w2 & E2 & S2 & T2).
           exists w2. rewrite E2. split; [reflexivity|]. split; [exact S2|].
           rewrite T2, T1. simpl. now rewrite <- !app_assoc.
        -- simpl in El. injection El as <- El. subst handlers.
           destruct (@escape_in_rule pre l results w F (conj Hh Hc))
             as (w1 & E1 & S1 & T1).
           exists w1. rewrite E1. split; [reflexivity|]. split; [exact S1 | exact T1].
      * subst pre. apply Forall_app in F as [F1 F2].
        destruct (@call_handlers_of_rule from_state symbol to_state w0 handlers
                    results w F1 (conj Hh Hc)) as (w1 & E1 & S1 & T1).
        rewrite E1.
        destruct (IH l post
                     (results ++ map (recorded w0 from_state symbol to_state) handlers)
                     w1 Es F2 S1) as (w2 & E2 & S2 & T2).
        exists w2. rewrite E2. split; [reflexivity|]. split; [exact S2|].
        rewrite T2, T1, flat_map_app. now rewrite <- !app_assoc.
    + destruct (IH pre post results w Sel F (conj Hh Hc)) as (w2 & E2 & S2 & T2).
      exists w2. unfold ret at 1. rewrite E2.
      split; [reflexivity|]. split; [exact S2 | exact T2].
Qed.

End DispatchEscape.


(** ** Reading the table *)

Section Reading.

Variable transitions : list (Ref Code * list (Symbol * Ref Code)).

Lemma states_returns_the_table (w w1 : World Code Symbol) t :
  states transitions w = (inr t, w1) -> t = the_table w1.
Proof.
  unfold states. destruct (not_states w).
  - intros H. apply bind_inv in H as [(x & w2 & _ & H)|(e & _ & H)];
      [|discriminate].
    now injection H as <- <-.
  - intros H. now injection H as <- <-.
Qed.

(** Once the table holds a state, [states] returns it as it is. *)
Lemma states_cached (w : World Code Symbol) :
  the_table w <> [] -> states transitions w = (inr (the_table w), w).
Proof.
  unfold states, not_states, the_table.
  destruct (_states w) as [[|kv t]|]; intros N; try contradiction; reflexivity.
Qed.

Lemma table_get_nonempty (h : Heap Code) t (v : Value Code) (a : addr Code) :
  table_get h t v = Some a -> t <> [].
Proof. intros H ->. discriminate. Qed.

Lemma current_state_cases (w w1 : World Code Symbol) r :
  current_state transitions w = (r, w1) ->
  (exists e, r = inl e /\ table_exc e)
  \/ r = inr VNone
  \/ (exists a, r = inr (VState a)
                /\ table_get (heap w1) (the_table w1)
                             (value_of_code (current_state_code w1)) = Some a).
Proof.
  unfold current_state, try_except_KeyError.
  destruct (bind _ _ w) as [[e|v] w2] eqn:B.
  - destruct e; intros H; try (injection H as <- <-);
      try (left; eexists; split; [reflexivity | exact I]).
    + right; now left.
    + apply bind_inv in B as [(? & ? & ? & B)|(x & B & E)].
      * destruct (table_get _ _ _); discriminate.
      * pose proof (quiet_states transitions) as Q. destruct (Q _ _ _ B) as [_ T].
        injection E as <-. destruct (T _ eq_refl).
    + apply bind_inv in B as [(? & ? & ? & B)|(x & B & E)].
      * destruct (table_get _ _ _); discriminate.
      * pose proof (quiet_states transitions) as Q. destruct (Q _ _ _ B) as [_ T].
        injection E as <-. destruct (T _ eq_refl).
  - intros H. injection H as <- <-.
    apply bind_inv in B as [(t & w3 & S & B)|(? & _ & ?)]; [|discriminate].
    apply states_returns_the_table in S as ->.
    destruct (table_get _ _ _) as [a|] eqn:G; [|discriminate].
    injection B as <- <-. right; right. now exists a.
Qed.

Lemma current_state_again (w : World Code Symbol) (a : addr Code) :
  table_get (heap w) (the_table w) (value_of_code (current_state_code w)) = Some a ->
  current_state transitions w = (inr (VState a), w).
Proof.
  intros G. unfold current_state, try_except_KeyError, bind.
  rewrite (states_cached w (@table_get_nonempty _ _ _ _ G)). now rewrite G.
Qed.

Lemma spec_get_None {V} (h : Heap Code) (d : list (Ref Code * V)) :
  spec_get h d VNone = None.
Proof.
  unfold spec_get. induction d as [|[k v] d IH]; simpl; [reflexivity|].
  rewrite (py_eq_None h (value_of_ref k) (c := match k with
                                               | Bare c => c
                                               | Inst n => code (h (ASpec n))
                                               end)); [exact IH|].
  now destruct k.
Qed.

Lemma get_next_cases (symbol : Symbol) (w w1 : World Code Symbol) (next : Ref Code) :
  get_next transitions symbol w = (inr next, w1) ->
  exists a row,
    table_get (heap w1) (the_table w1)
              (value_of_code (current_state_code w1)) = Some a
    /\ spec_get (heap w1) transitions (VState a) = Some row
    /\ symbol_get row symbol = Some next.
Proof.
  unfold get_next. intros H.
  apply bind_inv in H as [(cs & w2 & C & H)|(? & _ & ?)]; [|discriminate].
  destruct (spec_get (heap w2) transitions cs) as [row|] eqn:G; [|discriminate].
  destruct (symbol_get row symbol) as [n|] eqn:Sy; [|discriminate].
  injection H as <- <-.
  apply current_state_cases in C as [(e & ? & _)|[C|(a & C & T)]];
    try discriminate.
  - injection C as ->. rewrite spec_get_None in G. discriminate.
  - injection C as ->. now exists a, row.
Qed.

(** The setter, once the table holds a state. *)
Lemma set_current_state_cached (state : Value Code) (w : World Code Symbol) :
  the_table w <> [] ->
  set_current_state transitions state w
  = match table_get (heap w) (the_table w) state with
    | None => (inl KeyError, w)
    | Some a =>
        (inr tt, emit (EvAssign (code (heap w a)))
                      (set_current_state_code (Some (code (heap w a))) w))
    end.
Proof.
  intros N. unfold set_current_state, bind. now rewrite (states_cached w N).
Qed.

End Reading.


(** ** Soundness of the table *)

Lemma preserves_ret {A} (P : World Code Symbol -> Prop) (x : A) :
  preserves P (ret x).
Proof. intros w r w' H. now injection H as <- <-. Qed.

Lemma preserves_raise {A} (P : World Code Symbol -> Prop) (e : Exc Code Symbol) :
  preserves P (raise (A := A) e).
Proof. intros w r w' H. now injection H as <- <-. Qed.

Lemma preserves_read {A} (P : World Code Symbol -> Prop)
      (f : World Code Symbol -> A) :
  preserves P (read f).
Proof. intros w r w' H. now injection H as <- <-. Qed.

Lemma preserves_bind {A B} (P : World Code Symbol -> Prop)
      (m : M Code Symbol A) (k : A -> M Code Symbol B) :
  preserves P m -> (forall x, preserves P (k x)) -> preserves P (bind m k).
Proof.
  intros Pm Pk w r w' H Hw.
  apply bind_inv in H as [(x & w1 & Hm & Hk)|(e & Hm & ->)].
  - exact (Pk x _ _ _ Hk (Pm _ _ _ Hm Hw)).
  - exact (Pm _ _ _ Hm Hw).
Qed.

Lemma preserves_for_each {A} (P : World Code Symbol -> Prop) (xs : list A)
      (body : A -> M Code Symbol unit) :
  (forall x, preserves P (body x)) -> preserves P (for_each xs body).
Proof.
  intros Pb. induction xs as [|x xs IH]; simpl.
  - apply preserves_ret.
  - apply preserves_bind; [apply Pb | intros _; exact IH].
Qed.

Lemma table_get_In (h : Heap Code) (t : list (Code * addr Code)) (v : Value Code)
      (a : addr Code) :
  table_get h t v = Some a ->
  exists k, In (k, a) t /\ py_eq h (VCode k) v = true.
Proof.
  unfold table_get. destruct (find _ t) as [[k b]|] eqn:F; [|discriminate].
  intros H. injection H as <-. apply find_some in F as [I E].
  now exists k.
Qed.

Lemma table_get_by_code (h : Heap Code) (t : list (Code * addr Code))
      (v : Value Code) (c : Code) :
  value_code h v = Some c -> table_get h t v = table_get h t (VCode c).
Proof.
  intros V. unfold table_get. induction t as [|[k b] t IH]; simpl; [reflexivity|].
  assert (E : py_eq h (VCode k) v = py_eq h (VCode k) (VCode c)).
  { destruct v; simpl in V; try discriminate; injection V as <-;
      unfold py_eq; simpl; [reflexivity|].
    unfold code_eqb. destruct (eq_dec (code (h a)) k), (eq_dec k (code (h a)));
      congruence. }
  rewrite E. destruct (py_eq h (VCode k) (VCode c)); [reflexivity | exact IH].
Qed.

Lemma table_get_None (h : Heap Code) (t : list (Code * addr Code)) :
  table_get h t VNone = None.
Proof.
  unfold table_get. induction t as [|[k b] t IH]; simpl; [reflexivity | exact IH].
Qed.

Lemma table_get_absent (h : Heap Code) (t : list (Code * addr Code)) (c : Code) :
  table_get h t (VCode c) = None -> forall a, ~ In (c, a) t.
Proof.
  unfold table_get. intros F a I.
  destruct (find _ t) eqn:E; [discriminate|].
  apply (find_none _ _ E) in I. simpl in I. unfold py_eq in I. simpl in I.
  rewrite code_eqb_refl in I. discriminate.
Qed.

Lemma table_sound_ok (w : World Code Symbol) : table_sound w -> table_ok w.
Proof. intros S k a I. now apply S. Qed.

Lemma merge_data_code (self other : State Code) :
  code (fst (merge_data (Symbol := Symbol) self other)) = code self.
Proof.
  unfold merge_data.
  repeat match goal with
         | |- context [if ?c then _ else _] => destruct c
         | |- context [match ?c with Some _ => _ | None => _ end] => destruct c
         end; reflexivity.
Qed.

Lemma preserves_gather (r : Ref Code) :
  preserves (@table_sound _ _) (gather (Symbol := Symbol) r).
Proof.
  intros w res w' H S. unfold gather in H.
  destruct (as_state (heap w) r) as [a state] eqn:A.
  destruct (table_get (heap w) (the_table w) (VCode (code state))) as [b|] eqn:G.
  - pose proof (merge_data_code (heap w b) state) as Mc.
    destruct (merge_data (heap w b) state) as [m e]. simpl in Mc.
    assert (W : w' = set_heap (heap_set (heap w) b m) w)
      by (destruct e; now injection H as <- <-).
    subst w'. intros k a' I. change (In (k, a') (the_table w)) in I.
    destruct (S _ _ I) as [Ck Wk]. split; [|exact Wk]. simpl.
    unfold heap_set. destruct (addr_eqb a' b) eqn:E; [|exact Ck].
    apply addr_eqb_true in E as ->. congruence.
  - injection H as <- <-. intros k a' I. simpl in I.
    apply in_app_or in I as [I|[I|[]]].
    + destruct (S _ _ I) as [Ck Wk]. split; [|exact Wk]. simpl.
      destruct r as [c|n]; simpl in *; [|exact Ck].
      injection A as <- <-. simpl in G.
      rewrite heap_set_other; [exact Ck|].
      intros ->. specialize (Wk c eq_refl) as ->.
      exact (table_get_absent _ _ _ G _ I).
    + injection I as <- <-. destruct r as [c|n]; simpl in *; injection A as <- <-.
      * rewrite heap_set_same. split; [reflexivity|]. intros d E. now injection E.
      * split; [reflexivity | discriminate].
Qed.

Lemma preserves_mark_initial (v : Value Code) :
  preserves (@table_sound _ _) (mark_initial (Symbol := Symbol) v).
Proof.
  intros w res w' H S. unfold mark_initial in H.
  destruct (table_get _ _ _) as [b|]; injection H as <- <-; [|exact S].
  intros k a I. destruct (S _ _ I) as [Ck Wk]. split; [|exact Wk]. simpl.
  unfold heap_set. destruct (addr_eqb a b) eqn:E; [|exact Ck].
  apply addr_eqb_true in E as ->. exact Ck.
Qed.

Lemma preserves_mark_terminal (v : Value Code) :
  preserves (@table_sound _ _) (mark_terminal (Symbol := Symbol) v).
Proof.
  intros w res w' H S. unfold mark_terminal in H.
  destruct (table_get _ _ _) as [b|]; injection H as <- <-; [|exact S].
  intros k a I. destruct (S _ _ I) as [Ck Wk]. split; [|exact Wk]. simpl.
  unfold heap_set. destruct (addr_eqb a b) eqn:E; [|exact Ck].
  apply addr_eqb_true in E as ->. exact Ck.
Qed.


Section Sound.

Variable transitions : list (Ref Code * list (Symbol * Ref Code)).

(** Whatever the world was, the table that the gathering loop leaves is
    sound, also when the loop raises half-way. *)
Lemma gather_states_sound (w w' : World Code Symbol) r :
  gather_states transitions w = (r, w') -> table_sound w'.
Proof.
  unfold gather_states. intros H.
  apply bind_inv in H as [(? & w1 & M & H)|(? & M & _)]; [|discriminate].
  injection M as _ <-.
  apply (preserves_for_each (P := @table_sound _ _)) in H;
    [apply H; intros k a [] | apply preserves_gather].
Qed.

Lemma preserves_mark_states :
  preserves (@table_sound _ _) (mark_states transitions).
Proof.
  unfold mark_states.
  apply preserves_bind; [apply preserves_read|].
  intros initials. apply preserves_bind; [apply preserves_read|].
  intros terminals. apply preserves_bind.
  { destruct (negb _); [apply preserves_raise | apply preserves_ret]. }
  intros _. apply preserves_bind.
  { destruct terminals; [apply preserves_read | apply preserves_ret]. }
  intros terminals'.
  apply preserves_bind; [apply preserves_for_each, preserves_mark_initial|].
  intros _. apply preserves_for_each, preserves_mark_terminal.
Qed.

Lemma build_states_sound (w w' : World Code Symbol) r :
  build_states transitions w = (r, w') -> table_sound w'.
Proof.
  unfold build_states. intros H.
  apply bind_inv in H as [(? & w1 & G & H)|(? & G & _)].
  - apply gather_states_sound in G. pose proof preserves_mark_states as P.
    exact (P _ _ _ H G).
  - now apply gather_states_sound in G.
Qed.

Lemma not_states_empty (w : World Code Symbol) :
  not_states w = true -> the_table w = [].
Proof.
  unfold not_states, the_table. now destruct (_states w) as [[|? ?]|].
Qed.

Lemma preserves_states : preserves (@table_ok _ _) (states transitions).
Proof.
  intros w r w' H Ok. unfold states in H. destruct (not_states w) eqn:N.
  - apply bind_inv in H as [(? & w1 & B & H)|(? & B & _)].
    + injection H as _ <-. apply build_states_sound in B.
      now apply table_sound_ok.
    + apply build_states_sound in B. now apply table_sound_ok.
  - now injection H as _ <-.
Qed.

Lemma preserves_try {A} (P : World Code Symbol -> Prop)
      (body handler : M Code Symbol A) :
  preserves P body -> preserves P handler ->
  preserves P (try_except_KeyError body handler).
Proof.
  intros Pb Ph w r w' H Hw. unfold try_except_KeyError in H.
  destruct (body w) as [[e|x] w1] eqn:B.
  - pose proof (Pb _ _ _ B Hw) as H1.
    destruct e; try (now injection H as _ <-). exact (Ph _ _ _ H H1).
  - injection H as _ <-. exact (Pb _ _ _ B Hw).
Qed.

Lemma preserves_current_state : preserves (@table_ok _ _) (current_state transitions).
Proof.
  unfold current_state. apply preserves_try; [|apply preserves_ret].
  apply preserves_bind; [apply preserves_states|].
  intros t w r w' H. destruct (table_get _ _ _); now injection H as _ <-.
Qed.

Lemma preserves_get_next (symbol : Symbol) :
  preserves (@table_ok _ _) (get_next transitions symbol).
Proof.
  unfold get_next. apply preserves_bind; [apply preserves_current_state|].
  intros cs w r w' H.
  destruct (spec_get _ _ _) as [row|]; [destruct (symbol_get _ _)|];
    now injection H as _ <-.
Qed.

(** The code stored for a state of the table is a key of the table, and
    the getter finds a state under it. *)
Lemma stored_code_in_table (w : World Code Symbol) (v : Value Code) (b : addr Code)
      (w' : World Code Symbol) :
  table_ok w ->
  table_get (heap w) (the_table w) v = Some b ->
  heap w' = heap w -> _states w' = _states w ->
  current_state_code w' = Some (code (heap w b)) ->
  in_table w' /\ table_ok w'.
Proof.
  intros Ok G Hh Hs Hc.
  assert (Ht : the_table w' = the_table w) by (unfold the_table; now rewrite Hs).
  split.
  - exists (code (heap w b)), b. rewrite Hh, Ht. repeat split; try assumption.
    destruct (table_get_In _ _ _ G) as (k & I & E).
    rewrite (Ok _ _ I).
    destruct v as [|c|a].
    + now rewrite table_get_None in G.
    + apply (py_eq_codes (heap w) (VCode k) (VCode c) (c := k) (d := c)) in E;
        try reflexivity. now subst.
    + rewrite (table_get_by_code (heap w) (the_table w) (VState a) (c := code (heap w a)))
        in G by reflexivity.
      apply (py_eq_codes (heap w) (VCode k) (VState a) (c := k) (d := code (heap w a)))
        in E; try reflexivity. now subst.
  - intros k a I. rewrite Hh. rewrite Ht in I. now apply Ok.
Qed.

End Sound.


(** ** Construction of the table *)

Lemma merge_attr_Some {A} (eqb : A -> A -> bool)
      (eqb_eq : forall x y, eqb x y = true <-> x = y) (mine theirs v : option A) :
  merge_attr eqb mine theirs = Some v -> joins mine theirs v.
Proof.
  unfold merge_attr, joins. destruct mine as [x|], theirs as [y|]; simpl.
  - destruct (eqb x y) eqn:E; simpl; intros H; [|discriminate].
    injection H as <-. apply eqb_eq in E as ->. repeat split; now right.
  - intros H. injection H as <-. repeat split; [now left | now right].
  - intros H. injection H as <-. repeat split; [now right | now left].
  - intros H. injection H as <-. repeat split; now left.
Qed.

Lemma merge_attr_None {A} (eqb : A -> A -> bool)
      (eqb_eq : forall x y, eqb x y = true <-> x = y) (mine theirs : option A) :
  merge_attr eqb mine theirs = None -> conflicting mine theirs.
Proof.
  unfold merge_attr. destruct mine as [x|], theirs as [y|]; simpl; try discriminate.
  destruct (eqb x y) eqn:E; simpl; [discriminate|]. intros _.
  exists x, y. repeat split. intros ->.
  rewrite (proj2 (eqb_eq y y) eq_refl) in E. discriminate.
Qed.

Lemma merge_data_returns (self other m : State Code) :
  merge_data (Symbol := Symbol) self other = (m, None) ->
  code m = code self
  /\ joins (label self) (label other) (label m)
  /\ joins (is_initial self) (is_initial other) (is_initial m)
  /\ joins (is_terminal self) (is_terminal other) (is_terminal m).
Proof.
  unfold merge_data. destruct (negb _); [discriminate|].
  destruct (merge_attr String.eqb _ _) as [l|] eqn:L; [|discriminate]. simpl.
  destruct (merge_attr Bool.eqb (is_initial self) _) as [i|] eqn:I; [|discriminate].
  destruct (merge_attr Bool.eqb (is_terminal self) _) as [t|] eqn:T; [|discriminate].
  intros H. injection H as <-. simpl.
  split; [reflexivity|]. split; [|split].
  - exact (merge_attr_Some String.eqb String.eqb_eq _ _ L).
  - exact (merge_attr_Some Bool.eqb Bool.eqb_true_iff _ _ I).
  - exact (merge_attr_Some Bool.eqb Bool.eqb_true_iff _ _ T).
Qed.

Lemma merge_data_raises (self other m : State Code) (e : Exc Code Symbol) :
  merge_data self other = (m, Some e) -> code self = code other ->
  e = ImproperlyConfigured /\ conflict self other.
Proof.
  unfold merge_data. intros H E. rewrite (proj2 (code_eqb_true _ _) E) in H.
  simpl in H.
  destruct (merge_attr String.eqb _ _) as [l|] eqn:L.
  - simpl in H.
    destruct (merge_attr Bool.eqb (is_initial self) _) as [i|] eqn:I.
    + destruct (merge_attr Bool.eqb (is_terminal self) _) as [t|] eqn:T;
        [discriminate|].
      injection H as _ <-. split; [reflexivity|]. right; right.
      exact (merge_attr_None Bool.eqb Bool.eqb_true_iff _ _ T).
    + injection H as _ <-. split; [reflexivity|]. right; left.
      exact (merge_attr_None Bool.eqb Bool.eqb_true_iff _ _ I).
  - injection H as _ <-. split; [reflexivity|]. left.
    exact (merge_attr_None String.eqb String.eqb_eq _ _ L).
Qed.

Lemma py_eq_iff (h : Heap Code) (v w : Value Code) :
  py_eq h v w = true <-> value_code h v = value_code h w.
Proof.
  destruct v, w; unfold py_eq; simpl; try (split; congruence);
    rewrite code_eqb_true; split; congruence.
Qed.

Lemma table_get_code_Some (h : Heap Code) (t : list (Code * addr Code))
      (c : Code) (a : addr Code) :
  table_get h t (VCode c) = Some a -> In (c, a) t.
Proof.
  intros G. apply table_get_In in G as (k & I & E).
  apply py_eq_iff in E. simpl in E. now injection E as ->.
Qed.

Lemma table_get_key (h : Heap Code) (t : list (Code * addr Code)) (c : Code) :
  In c (map fst t) -> exists a, table_get h t (VCode c) = Some a.
Proof.
  intros I. destruct (table_get h t (VCode c)) as [a|] eqn:G; [now exists a|].
  apply in_map_iff in I as ([k a] & <- & I).
  now destruct (table_get_absent _ _ _ G a).
Qed.

Lemma NoDup_keys_unique (t : list (Code * addr Code)) (k : Code) (a b : addr Code) :
  NoDup (map fst t) -> In (k, a) t -> In (k, b) t -> a = b.
Proof.
  induction t as [|[k' a'] t IH]; simpl; intros N Ia Ib; [destruct Ia|].
  inversion N as [|? ? Nk N']; subst.
  destruct Ia as [Ea|Ia], Ib as [Eb|Ib].
  - congruence.
  - injection Ea as -> ->. exfalso. apply Nk.
    apply in_map_iff. now exists (k, b).
  - injection Eb as -> ->. exfalso. apply Nk.
    apply in_map_iff. now exists (k, a).
  - now apply IH.
Qed.

(** The lookups of the table read nothing of the heap but the codes. *)
Lemma table_get_codes (h h' : Heap Code) (t : list (Code * addr Code))
      (v : Value Code) :
  value_code h' v = value_code h v -> table_get h' t v = table_get h t v.
Proof.
  intros E. unfold table_get.
  assert (F : forall kv : Code * addr Code,
             py_eq h' (VCode (fst kv)) v = py_eq h (VCode (fst kv)) v).
  { intros kv. destruct (py_eq h (VCode (fst kv)) v) eqn:P.
    - apply py_eq_iff. apply py_eq_iff in P. simpl in *. congruence.
    - destruct (py_eq h' (VCode (fst kv)) v) eqn:P'; [|reflexivity].
      apply py_eq_iff in P'. simpl in P'. rewrite E in P'.
      apply (py_eq_iff h (VCode (fst kv)) v) in P'. congruence. }
  induction t as [|kv t IH]; simpl; [reflexivity|].
  rewrite F. destruct (py_eq h (VCode (fst kv)) v); [reflexivity | exact IH].
Qed.


Lemma agrees_on_later {A} (f : State Code -> option A) (s hb st m : State Code) :
  joins (f hb) (f st) (f m) -> agrees_on f s hb -> agrees_on f s m.
Proof.
  intros (_ & _ & [N|E]) [S|S]; unfold agrees_on.
  - now left.
  - left. congruence.
  - now left.
  - right. congruence.
Qed.

Lemma agrees_on_merged {A} (f : State Code -> option A) (hb st m : State Code) :
  joins (f hb) (f st) (f m) -> agrees_on f st m.
Proof. now intros (_ & T & _). Qed.

Lemma agrees_refl (s : State Code) : agrees s s.
Proof. repeat split; now right. Qed.

Lemma supported_on_more {A} (f : State Code -> option A) (h0 : Heap Code)
      (seen seen' : list (Ref Code)) (k : Code) (m : State Code) :
  (forall r, In r seen -> In r seen') ->
  supported_on f h0 seen k m -> supported_on f h0 seen' k m.
Proof.
  intros Sub [N|(r & I & C & E)]; [now left|]. right. exists r. auto.
Qed.

Lemma supported_on_merged {A} (f : State Code -> option A) (h0 : Heap Code)
      (seen seen' : list (Ref Code)) (k : Code) (hb st m : State Code) :
  (forall r, In r seen -> In r seen') ->
  joins (f hb) (f st) (f m) ->
  supported_on f h0 seen k hb ->
  (f st = None
   \/ exists r, In r seen' /\ code (declared h0 r) = k /\ f (declared h0 r) = f st) ->
  supported_on f h0 seen' k m.
Proof.
  intros Sub (V & _ & _) Hb St. unfold supported_on. rewrite V.
  destruct (f hb) as [x|] eqn:Fb; simpl.
  - destruct Hb as [N|(r & I & C & E)]; [congruence|].
    right. exists r. repeat split; auto. congruence.
  - exact St.
Qed.

Lemma supported_self (h0 : Heap Code) (seen : list (Ref Code)) (r : Ref Code) :
  In r seen -> supported h0 seen (code (declared h0 r)) (declared h0 r).
Proof. intros I. repeat split; right; now exists r. Qed.

Lemma conflicting_irrefl {A} (x : option A) : ~ conflicting x x.
Proof. intros (a & b & E1 & E2 & N). congruence. Qed.

Lemma conflict_irrefl (s : State Code) : ~ conflict s s.
Proof. intros [C|[C|C]]; exact (conflicting_irrefl C). Qed.


Section Gathering.

(** The heap when construction starts. *)
Variable h0 : Heap Code.

Lemma as_state_code (seen : list (Ref Code)) (w : World Code Symbol) (r : Ref Code) :
  gathered h0 seen w ->
  code (snd (as_state (heap w) r)) = code (declared h0 r).
Proof.
  intros G. destruct r as [c|n]; simpl; [reflexivity | apply (g_codes G)].
Qed.

Lemma as_state_addr (h : Heap Code) (r : Ref Code) (n : nat) :
  fst (as_state h r) = ASpec n -> r = Inst n.
Proof. destruct r; simpl; intros E; now inversion E. Qed.

(** One round of the loop keeps the invariant, or raises on a conflict
    between two declarations. *)
Lemma gather_step (seen : list (Ref Code)) (r : Ref Code)
      (w w' : World Code Symbol) res :
  gathered h0 seen w -> gather r w = (res, w') ->
  (res = inr tt /\ gathered h0 (seen ++ [r]) w')
  \/ (res = inl ImproperlyConfigured /\ conflict_among h0 (seen ++ [r])).
Proof.
  intros G H.
  pose proof (preserves_gather r H (g_sound G)) as Sound'.
  pose proof (as_state_code r G) as Cs.
  pose proof (g_agrees G) as Ga.
  assert (Sub : forall x, In x seen -> In x (seen ++ [r]))
    by (intros; apply in_or_app; now left).
  assert (Last : In r (seen ++ [r])) by (apply in_or_app; right; now left).
  unfold gather in H. destruct (as_state (heap w) r) as [a state] eqn:A.
  simpl in Cs.
  destruct (table_get (heap w) (the_table w) (VCode (code state))) as [b|] eqn:T.
  - (* the code is in the table: merge *)
    apply table_get_code_Some in T.
    pose proof (proj1 (g_sound G _ _ T)) as Cb.
    (* where [state] comes from *)
    assert (Origin : state = declared h0 r \/ (In r seen /\ state = heap w b)).
    { destruct r as [c|n]; simpl in A; injection A as <- <-; [now left|].
      destruct (addr_eqb b (ASpec n)) eqn:E.
      - apply addr_eqb_true in E as ->. right. split; [|reflexivity].
        exact (g_from G _ _ T).
      - left. unfold declared. simpl. apply (g_fresh G). intros k I.
        pose proof (proj1 (g_sound G _ _ I)) as Ck. simpl in Ck.
        rewrite Ck in T. rewrite (@NoDup_keys_unique _ _ _ _ (g_nodup G) T I) in E.
        simpl in E. now rewrite Nat.eqb_refl in E. }
    destruct (merge_data (heap w b) state) as [m [e|]] eqn:M.
    + (* conflict *)
      injection H as <- <-. right.
      apply merge_data_raises in M as [-> C]; [|congruence].
      split; [reflexivity|].
      destruct Origin as [O|[_ O]];
        [|rewrite O in C; now destruct (conflict_irrefl C)].
      rewrite O in C.
      destruct (g_supported G _ _ T) as (Sl & Si & St).
      assert (K : forall A (f : State Code -> option A),
                 supported_on f h0 seen (code state) (heap w b) ->
                 conflicting (f (heap w b)) (f (declared h0 r)) ->
                 exists r', In r' seen /\ code (declared h0 r') = code state
                            /\ conflicting (f (declared h0 r')) (f (declared h0 r))).
      { intros A0 f [N|(r' & I & C' & E)] (x & y & Ex & Ey & Nxy); [congruence|].
        exists r'. repeat split; try assumption. exists x, y.
        repeat split; try assumption. congruence. }
      destruct C as [C|[C|C]].
      * destruct (K _ _ Sl C) as (r' & I & C' & X). exists r', r.
        repeat split; auto; [congruence | now left].
      * destruct (K _ _ Si C) as (r' & I & C' & X). exists r', r.
        repeat split; auto; [congruence | right; now left].
      * destruct (K _ _ St C) as (r' & I & C' & X). exists r', r.
        repeat split; auto; [congruence | right; now right].
    + (* merged *)
      injection H as <- <-. left. split; [reflexivity|].
      apply merge_data_returns in M as (Cm & Jl & Ji & Jt).
      assert (Hb : forall a', a' <> b ->
                              heap_set (heap w) b m a' = heap w a')
        by (intros; now apply heap_set_other).
      assert (Hm : heap_set (heap w) b m b = m) by apply heap_set_same.
      constructor;
        change (the_table (set_heap (heap_set (heap w) b m) w)) with (the_table w);
        change (heap (set_heap (heap_set (heap w) b m) w))
          with (heap_set (heap w) b m).
      * intros n. destruct (addr_eqb (ASpec n) b) eqn:E.
        -- apply addr_eqb_true in E. subst b. rewrite Hm, Cm. apply (g_codes G).
        -- rewrite Hb; [apply (g_codes G)|]. intros <-.
           simpl in E. now rewrite Nat.eqb_refl in E.
      * exact Sound'.
      * exact (g_nodup G).
      * intros c. rewrite (g_keys G). split.
        -- intros (r' & I & E). exists r'. auto.
        -- intros (r' & I & E). apply in_app_or in I as [I|[<-|[]]].
           ++ now exists r'.
           ++ apply (g_keys G). apply in_map_iff. exists (code state, b).
              split; [simpl; congruence | exact T].
      * intros n F. rewrite Hb; [now apply (g_fresh G)|].
        intros <-. exact (F _ T).
      * intros k n I. apply Sub. exact (g_from G _ _ I).
      * intros k a' r' I I' E.
        assert (Old : In r' seen \/ (r' = r /\ state = declared h0 r)).
        { apply in_app_or in I' as [I'|[<-|[]]]; [now left|].
          destruct Origin as [O|[O _]]; [right; now split | now left]. }
        destruct (addr_eqb a' b) eqn:Eab.
        -- apply addr_eqb_true in Eab. subst a'. rewrite Hm.
           pose proof (proj1 (g_sound G _ _ I)) as Ck.
           destruct Old as [I''|[-> O]].
           ++ destruct (Ga _ _ _ I I'' E) as (Al & Ai & At).
              repeat split;
                [exact (agrees_on_later _ _ Jl Al) | exact (agrees_on_later _ _ Ji Ai)
                 | exact (agrees_on_later _ _ Jt At)].
           ++ rewrite <- O.
              repeat split;
                [eapply agrees_on_merged; exact Jl | eapply agrees_on_merged; exact Ji
                 | eapply agrees_on_merged; exact Jt].
        -- rewrite Hb by (intros ->; now rewrite (proj2 (addr_eqb_true b b) eq_refl) in Eab).
           destruct Old as [I''|[-> O]]; [exact (Ga _ _ _ I I'' E)|].
           exfalso. rewrite <- E, <- Cs in I.
           rewrite (@NoDup_keys_unique _ _ _ _ (g_nodup G) I T) in Eab.
           now rewrite (proj2 (addr_eqb_true b b) eq_refl) in Eab.
      * intros k a' I.
        destruct (addr_eqb a' b) eqn:Eab.
        -- apply addr_eqb_true in Eab. subst a'. rewrite Hm.
           pose proof (proj1 (g_sound G _ _ I)) as Ck.
           assert (Ek : k = code state) by congruence. rewrite Ek.
           destruct (g_supported G _ _ T) as (Sl & Si & St).
           assert (K : forall A (f : State Code -> option A),
                      supported_on f h0 seen (code state) (heap w b) ->
                      f state = None
                      \/ exists r', In r' (seen ++ [r])
                                    /\ code (declared h0 r') = code state
                                    /\ f (declared h0 r') = f state).
           { intros A0 f Sf. destruct Origin as [O|[_ O]]; rewrite O.
             - right. exists r. repeat split; auto; congruence.
             - destruct Sf as [N|(r' & I' & C' & E')]; [now left|].
               right. exists r'. repeat split; auto; congruence. }
           repeat split.
           ++ exact (supported_on_merged _ _ _ Sub Jl Sl (K _ _ Sl)).
           ++ exact (supported_on_merged _ _ _ Sub Ji Si (K _ _ Si)).
           ++ exact (supported_on_merged _ _ _ Sub Jt St (K _ _ St)).
        -- rewrite Hb by (intros ->; now rewrite (proj2 (addr_eqb_true b b) eq_refl) in Eab).
           destruct (g_supported G _ _ I) as (Sl & Si & St).
           repeat split; eapply supported_on_more; eauto.
  - (* a new code: insert *)
    injection H as <- <-. left. split; [reflexivity|].
    pose proof (table_get_absent _ _ _ T) as Absent.
    assert (NotKey : ~ In (code state) (map fst (the_table w))).
    { intros I. apply in_map_iff in I as ([k a'] & E & I). simpl in E. subst k.
      exact (Absent _ I). }
    assert (Decl : state = declared h0 r).
    { destruct r as [c|n]; simpl in A; injection A as <- <-; [reflexivity|].
      unfold declared. simpl. apply (g_fresh G). intros k I.
      pose proof (proj1 (g_sound G _ _ I)) as Ck. simpl in Ck. subst k.
      exact (Absent _ I). }
    assert (Keep : forall k a', In (k, a') (the_table w) ->
                                keep (heap w) r a' = heap w a').
    { intros k a' I. destruct r as [c|n]; simpl; [|reflexivity].
      simpl in A. injection A as <- <-. simpl in *.
      apply heap_set_other. intros ->.
      destruct (g_sound G _ _ I) as [_ W]. specialize (W c eq_refl). subst k.
      exact (Absent _ I). }
    assert (KeepSpec : forall n, keep (heap w) r (ASpec n) = heap w (ASpec n)).
    { intros n. destruct r as [c|n']; simpl; [|reflexivity].
      now apply heap_set_other. }
    assert (New : keep (heap w) r a = state).
    { destruct r as [c|n]; simpl in *; injection A as <- <-;
        [apply heap_set_same | reflexivity]. }
    constructor;
      change (the_table (set_states (Some (the_table w ++ [(code state, a)]))
                           (set_heap (keep (heap w) r) w)))
        with (the_table w ++ [(code state, a)]);
      change (heap (set_states (Some (the_table w ++ [(code state, a)]))
                      (set_heap (keep (heap w) r) w)))
        with (keep (heap w) r).
    + intros n. rewrite KeepSpec. apply (g_codes G).
    + exact Sound'.
    + rewrite map_app. simpl. apply NoDup_app; [exact (g_nodup G) | | ].
      * repeat constructor. intros [].
      * intros c I [<-|[]]. exact (NotKey I).
    + intros c. rewrite map_app, in_app_iff, (g_keys G). simpl. split.
      * intros [(r' & I & E)|[<-|[]]]; [exists r'; auto|].
        exists r. split; [exact Last | congruence].
      * intros (r' & I & E). apply in_app_or in I as [I|[<-|[]]].
        -- left. now exists r'.
        -- right. left. congruence.
    + intros n F. rewrite KeepSpec. apply (g_fresh G).
      intros k I. apply (F k). apply in_or_app. now left.
    + intros k n I. apply in_app_or in I as [I|[I|[]]].
      * apply Sub. exact (g_from G _ _ I).
      * injection I as _ Ea.
        assert (R : r = Inst n) by (apply (as_state_addr (heap w)); now rewrite A).
        rewrite <- R. exact Last.
    + intros k a' r' I I' E.
      apply in_app_or in I as [I|[I|[]]]; apply in_app_or in I' as [I'|[I'|[]]].
      * rewrite (Keep _ _ I). exact (Ga _ _ _ I I' E).
      * subst r'. exfalso. rewrite <- E, <- Cs in I. exact (Absent _ I).
      * injection I as <- <-. exfalso. apply NotKey. apply (g_keys G).
        exists r'. split; [exact I' | congruence].
      * injection I as <- <-. subst r'. rewrite New, Decl. apply agrees_refl.
    + intros k a' I. apply in_app_or in I as [I|[I|[]]].
      * rewrite (Keep _ _ I). destruct (g_supported G _ _ I) as (Sl & Si & St).
        repeat split; eapply supported_on_more; eauto.
      * injection I as <- <-. rewrite New, Decl.
        apply supported_self. exact Last.
Qed.

Lemma conflict_among_more (refs refs' : list (Ref Code)) :
  (forall r, In r refs -> In r refs') ->
  conflict_among h0 refs -> conflict_among h0 refs'.
Proof.
  intros Sub (r1 & r2 & I1 & I2 & E & C). exists r1, r2. auto.
Qed.

Lemma gather_loop (rest : list (Ref Code)) :
  forall (seen : list (Ref Code)) (w w' : World Code Symbol) res,
    gathered h0 seen w ->
    for_each rest (gather (Symbol := Symbol)) w = (res, w') ->
    (res = inr tt /\ gathered h0 (seen ++ rest) w')
    \/ (res = inl ImproperlyConfigured /\ conflict_among h0 (seen ++ rest)).
Proof.
  induction rest as [|r rest IH]; intros seen w w' res G H; simpl in H.
  - injection H as <- <-. left. now rewrite app_nil_r.
  - apply bind_inv in H as [([] & w1 & S & H)|(e & S & ->)].
    + destruct (gather_step r G S) as [[_ G1]|[E _]]; [|discriminate].
      replace (seen ++ r :: rest) with ((seen ++ [r]) ++ rest)
        by now rewrite <- app_assoc.
      exact (IH _ _ _ _ G1 H).
    + destruct (gather_step r G S) as [[E _]|[E C]]; [discriminate|].
      right. split; [exact E|].
      apply (conflict_among_more (refs := seen ++ [r])); [|exact C].
      intros x I. apply in_app_or in I as [I|[<-|[]]]; apply in_or_app;
        [now left | right; now left].
Qed.

Lemma gathered_no_conflict (refs : list (Ref Code)) (w : World Code Symbol) :
  gathered h0 refs w -> ~ conflict_among h0 refs.
Proof.
  intros G (r1 & r2 & I1 & I2 & E & C).
  assert (K : In (code (declared h0 r1)) (map fst (the_table w)))
    by (apply (g_keys G); now exists r1).
  apply in_map_iff in K as ([k a] & Ek & I). simpl in Ek. subst k.
  pose proof (g_agrees G) as Ga.
  destruct (Ga _ _ _ I I1 eq_refl) as (L1 & N1 & T1).
  destruct (Ga _ _ _ I I2 (eq_sym E)) as (L2 & N2 & T2).
  assert (K : forall A (f : State Code -> option A),
             agrees_on f (declared h0 r1) (heap w a) ->
             agrees_on f (declared h0 r2) (heap w a) ->
             ~ conflicting (f (declared h0 r1)) (f (declared h0 r2))).
  { intros A f [N|X] [N'|Y] (x & y & Ex & Ey & Nxy); congruence. }
  destruct C as [C|[C|C]]; [exact (K _ _ L1 L2 C) | exact (K _ _ N1 N2 C)
                             | exact (K _ _ T1 T2 C)].
Qed.


End Gathering.


Lemma gather_states_result
      (transitions : list (Ref Code * list (Symbol * Ref Code)))
      (w w1 : World Code Symbol) res :
  gather_states transitions w = (res, w1) ->
  let refs := right_side transitions ++ left_side transitions in
  (res = inr tt /\ gathered (heap w) refs w1)
  \/ (res = inl ImproperlyConfigured /\ conflict_among (heap w) refs).
Proof.
  intros H. cbv zeta. unfold gather_states in H.
  apply bind_inv in H as [(? & w0 & M & H)|(? & M & _)]; [|discriminate].
  injection M as _ <-.
  apply (gather_loop (h0 := heap w) _ (seen := [])) in H; [exact H|].
  constructor;
    change (the_table (set_states (Some []) w)) with (@nil (Code * addr Code));
    change (heap (set_states (Some []) w)) with (heap w).
  - reflexivity.
  - intros k a [].
  - constructor.
  - intros c. split; [intros [] | intros (r & [] & _)].
  - reflexivity.
  - intros k n [].
  - intros k a r [].
  - intros k a [].
Qed.


(** *** Sets of states, by their codes *)

Lemma existsb_py_eq (h : Heap Code) (s : list (Value Code)) (x : Value Code) :
  existsb (fun y => py_eq h y x) s = true
  <-> In (value_code h x) (map (value_code h) s).
Proof.
  rewrite existsb_exists, in_map_iff. split.
  - intros (y & I & E). exists y. apply py_eq_iff in E. now split.
  - intros (y & E & I). exists y. split; [exact I | now apply py_eq_iff].
Qed.

Lemma py_set_from (h : Heap Code) (l : list (Value Code)) :
  forall acc : list (Value Code),
    (NoDup (map (value_code h) acc) ->
     NoDup (map (value_code h) (fold_left (set_add h) l acc)))
    /\ (forall c, In c (map (value_code h) (fold_left (set_add h) l acc))
                  <-> In c (map (value_code h) acc) \/ In c (map (value_code h) l))
    /\ (forall v, In v (fold_left (set_add h) l acc) -> In v acc \/ In v l).
Proof.
  induction l as [|x l IH]; intros acc; simpl.
  - repeat split; auto. intros [I|[]]; exact I.
  - destruct (IH (set_add h acc x)) as (N & C & S).
    assert (Codes : forall c, In c (map (value_code h) (set_add h acc x))
                              <-> In c (map (value_code h) acc)
                                  \/ value_code h x = c).
    { intros c. unfold set_add.
      destruct (existsb (fun y => py_eq h y x) acc) eqn:E.
      - apply existsb_py_eq in E. split; [now left|]. intros [I|<-]; assumption.
      - rewrite map_app, in_app_iff. simpl. tauto. }
    split; [|split].
    + intros Na. apply N. unfold set_add.
      destruct (existsb (fun y => py_eq h y x) acc) eqn:E; [exact Na|].
      rewrite map_app. simpl. apply NoDup_app; [exact Na | | ].
      * repeat constructor. intros [].
      * intros c I [<-|[]]. apply existsb_py_eq in I. congruence.
    + intros c. rewrite C, Codes. tauto.
    + intros v I. apply S in I as [I|I]; [|right; now right].
      unfold set_add in I.
      destruct (existsb (fun y => py_eq h y x) acc); [now left|].
      apply in_app_or in I as [I|[<-|[]]]; [now left | right; now left].
Qed.

Lemma py_set_codes (h : Heap Code) (l : list (Value Code)) :
  NoDup (map (value_code h) (py_set h l))
  /\ (forall c, In c (map (value_code h) (py_set h l))
                <-> In c (map (value_code h) l))
  /\ (forall v, In v (py_set h l) -> In v l).
Proof.
  unfold py_set. destruct (py_set_from h l []) as (N & C & S).
  split; [apply N; constructor|]. split.
  - intros c. rewrite C. simpl. tauto.
  - intros v I. now destruct (S v I).
Qed.

Lemma NoDup_map_filter {K E} (key : E -> K) (keep : E -> bool) :
  forall entries : list E,
    NoDup (map key entries) -> NoDup (map key (filter keep entries)).
Proof.
  intros entries. induction entries as [|x rest IH]; simpl; intros N;
    [constructor|].
  inversion N as [|? ? Nx N']; subst.
  destruct (keep x); simpl; [|now apply IH].
  constructor; [|now apply IH].
  intros I. apply Nx. apply in_map_iff in I as (y & E' & I).
  apply filter_In in I as [I _]. apply in_map_iff. now exists y.
Qed.

Lemma set_difference_codes (h : Heap Code) (a b : list (Value Code)) :
  (NoDup (map (value_code h) a) ->
   NoDup (map (value_code h) (set_difference h a b)))
  /\ (forall c, In c (map (value_code h) (set_difference h a b))
                <-> In c (map (value_code h) a) /\ ~ In c (map (value_code h) b))
  /\ (forall v, In v (set_difference h a b) -> In v a).
Proof.
  unfold set_difference. split; [apply NoDup_map_filter|]. split.
  - intros c. rewrite !in_map_iff. split.
    + intros (x & E & I). apply filter_In in I as [I P].
      split; [now exists x|]. rewrite <- E. intros J.
      apply in_map_iff, existsb_py_eq in J. now rewrite J in P.
    + intros [(x & E & I) N]. exists x. split; [exact E|].
      apply filter_In. split; [exact I|].
      destruct (existsb (fun y => py_eq h y x) b) eqn:X; [|reflexivity].
      exfalso. apply N. apply existsb_py_eq in X. rewrite <- E.
      now apply in_map_iff.
  - intros v I. now apply filter_In in I.
Qed.

Lemma NoDup_length_one {A} (l : list A) :
  NoDup l -> (List.length l = 1 <-> exactly_one (fun x => In x l)).
Proof.
  intros N. split.
  - destruct l as [|x [|y l]]; simpl; try discriminate. intros _.
    exists x. split; [now left|]. intros y [<-|[]]. reflexivity.
  - intros (x & I & U). destruct l as [|y [|z l]]; simpl in *.
    + destruct I.
    + reflexivity.
    + exfalso. inversion N as [|? ? Ny _]; subst. apply Ny.
      rewrite (U y), (U z); auto. now left.
Qed.

Lemma exactly_one_iff {A} (P Q : A -> Prop) :
  (forall x, P x <-> Q x) -> (exactly_one P <-> exactly_one Q).
Proof.
  intros E. split; intros (x & Hx & U); exists x; split;
    try (now apply E); intros y Hy; apply U; now apply E.
Qed.


(** *** The initial states the construction settles on *)

Section Settling.

Variable transitions : list (Ref Code * list (Symbol * Ref Code)).
(** The heap when construction started, and the world after the loop. *)
Variable h0 : Heap Code.
Variable w1 : World Code Symbol.
Let refs := right_side transitions ++ left_side transitions.
Hypothesis G : gathered h0 refs w1.

Lemma ref_value_code (r : Ref Code) :
  value_code (heap w1) (value_of_ref r) = Some (code (declared h0 r)).
Proof.
  destruct r as [c|n]; simpl; [reflexivity|]. now rewrite (g_codes G).
Qed.

Lemma ref_codes (l : list (Ref Code)) (c : Code) :
  In (Some c) (map (value_code (heap w1)) (map (@value_of_ref _) l))
  <-> exists r, In r l /\ code (declared h0 r) = c.
Proof.
  rewrite map_map, in_map_iff. split; intros (r & E & I); exists r.
  - rewrite ref_value_code in E. injection E as <-. now split.
  - rewrite ref_value_code. split; [congruence | exact E].
Qed.

Lemma deduced_codes (c : Code) :
  In (Some c) (map (value_code (heap w1))
                   (deduce_initial_states transitions (heap w1)))
  <-> only_source h0 transitions c.
Proof.
  unfold deduce_initial_states, only_source.
  destruct (set_difference_codes (heap w1)
              (py_set (heap w1) (map (@value_of_ref _) (left_side transitions)))
              (py_set (heap w1) (map (@value_of_ref _) (right_side transitions))))
    as (_ & C & _).
  rewrite C.
  destruct (py_set_codes (heap w1) (map (@value_of_ref _) (left_side transitions)))
    as (_ & Cl & _).
  destruct (py_set_codes (heap w1) (map (@value_of_ref _) (right_side transitions)))
    as (_ & Cr & _).
  rewrite Cl, Cr, !ref_codes. reflexivity.
Qed.

Lemma deduced_from_left (v : Value Code) :
  In v (deduce_initial_states transitions (heap w1)) ->
  exists r, In r (left_side transitions) /\ v = value_of_ref r.
Proof.
  unfold deduce_initial_states. intros I.
  apply set_difference_codes in I. apply py_set_codes in I.
  apply in_map_iff in I as (r & E & I). now exists r.
Qed.

Lemma deduced_from_right (v : Value Code) :
  In v (deduce_terminal_states transitions (heap w1)) ->
  exists r, In r (right_side transitions) /\ v = value_of_ref r.
Proof.
  unfold deduce_terminal_states. intros I.
  apply set_difference_codes in I. apply py_set_codes in I.
  apply in_map_iff in I as (r & E & I). now exists r.
Qed.

Lemma length_deduced :
  List.length (deduce_initial_states transitions (heap w1)) = 1
  <-> exactly_one (only_source h0 transitions).
Proof.
  set (l := deduce_initial_states transitions (heap w1)).
  assert (N : NoDup (map (value_code (heap w1)) l)).
  { unfold l, deduce_initial_states. apply set_difference_codes.
    apply py_set_codes. }
  rewrite <- (length_map (value_code (heap w1)) l), (NoDup_length_one N).
  split.
  - intros (o & I & U).
    assert (S : exists c, o = Some c).
    { apply in_map_iff in I as (v & <- & I).
      apply deduced_from_left in I as (r & _ & ->).
      rewrite ref_value_code. now eexists. }
    destruct S as (c & ->). exists c. split; [now apply deduced_codes|].
    intros d D. apply deduced_codes in D. apply U in D. now injection D.
  - intros (c & D & U). exists (Some c). split; [now apply deduced_codes|].
    intros o I.
    assert (S : exists d, o = Some d).
    { apply in_map_iff in I as (v & <- & I).
      apply deduced_from_left in I as (r & _ & ->).
      rewrite ref_value_code. now eexists. }
    destruct S as (d & ->). f_equal. apply U. now apply deduced_codes.
Qed.

Lemma marked_codes (c : Code) :
  In c (map fst (filter (fun kv => truthy (is_initial (heap w1 (snd kv))))
                        (the_table w1)))
  <-> explicitly_initial h0 refs c.
Proof.
  rewrite in_map_iff. split.
  - intros ([k a] & E & I). simpl in E. subst k.
    apply filter_In in I as [I T]. simpl in T.
    destruct (g_supported G _ _ I) as (_ & [N|(r & Ir & Cr & Er)] & _).
    + rewrite N in T. discriminate.
    + exists r. repeat split; try assumption. rewrite Er.
      now destruct (is_initial (heap w1 a)) as [[|]|].
  - intros (r & Ir & Cr & Er).
    assert (K : In c (map fst (the_table w1)))
      by (apply (g_keys G); now exists r).
    apply in_map_iff in K as ([k a] & Ek & I). simpl in Ek. subst k.
    exists (c, a). split; [reflexivity|]. apply filter_In. split; [exact I|].
    simpl. pose proof (g_agrees G) as Ga.
    destruct (Ga _ _ _ I Ir Cr) as (_ & [N|E] & _); [congruence|].
    now rewrite <- E, Er.
Qed.

Lemma length_marked :
  List.length (marked (@is_initial _) w1) = 1
  <-> exactly_one (explicitly_initial h0 refs).
Proof.
  unfold marked. rewrite length_map.
  rewrite <- (length_map fst).
  rewrite (NoDup_length_one (NoDup_map_filter fst _ _ (g_nodup G))).
  apply exactly_one_iff. exact marked_codes.
Qed.

Lemma marked_none :
  marked (@is_initial _) w1 = [] <-> ~ exists d, explicitly_initial h0 refs d.
Proof.
  split.
  - intros E (d & D). apply marked_codes in D. unfold marked in E.
    apply map_eq_nil in E. rewrite E in D. destruct D.
  - intros N. unfold marked.
    destruct (filter _ (the_table w1)) as [|[k a] l] eqn:F; [reflexivity|].
    exfalso. apply N. exists k. apply marked_codes. rewrite F. now left.
Qed.

(** The construction finds one initial state exactly when the initial set
    of the specification has one element. *)
Lemma one_resolved_initial :
  List.length (resolved_initials transitions w1) = 1
  <-> exactly_one (initial_set h0 transitions).
Proof.
  unfold resolved_initials.
  destruct (marked (@is_initial _) w1) as [|v l] eqn:M.
  - pose proof (proj1 marked_none M) as N.
    rewrite length_deduced. apply exactly_one_iff. intros c.
    unfold initial_set. fold refs. tauto.
  - assert (Ex : exists d, explicitly_initial h0 refs d).
    { unfold marked in M.
      destruct (filter _ (the_table w1)) as [|[k a] f] eqn:F; [discriminate|].
      exists k. apply marked_codes. rewrite F. now left. }
    rewrite <- M, length_marked. apply exactly_one_iff. intros c.
    unfold initial_set. fold refs. tauto.
Qed.

(** The initial states the construction settles on are those of the
    initial set of the specification. *)
Lemma resolved_initial_codes (c : Code) :
  (exists v, In v (resolved_initials transitions w1)
             /\ value_code (heap w1) v = Some c)
  <-> initial_set h0 transitions c.
Proof.
  unfold resolved_initials.
  destruct (marked (@is_initial _) w1) as [|v0 l] eqn:M.
  - pose proof (proj1 marked_none M) as N.
    transitivity (only_source h0 transitions c);
      [|unfold initial_set; fold refs; tauto].
    rewrite <- deduced_codes, in_map_iff. split.
    + intros (v & I & E). now exists v.
    + intros (v & E & I). now exists v.
  - assert (Ex : exists d, explicitly_initial h0 refs d).
    { unfold marked in M.
      destruct (filter _ (the_table w1)) as [|[k a] f] eqn:F; [discriminate|].
      exists k. apply marked_codes. rewrite F. now left. }
    rewrite <- M.
    transitivity (explicitly_initial h0 refs c);
      [|unfold initial_set; fold refs; tauto].
    rewrite <- marked_codes. unfold marked. split.
    + intros (v & I & E). apply in_map_iff in I as ([k a] & <- & I).
      simpl in E. apply in_map_iff. exists (k, a). split; [|exact I].
      simpl. apply filter_In in I as [I _].
      rewrite (proj1 (g_sound G _ _ I)) in E. now injection E.
    + intros I. apply in_map_iff in I as ([k a] & <- & I).
      exists (VState a). split; [apply in_map_iff; now exists (k, a)|].
      simpl. apply filter_In in I as [I _]. f_equal.
      exact (proj1 (g_sound G _ _ I)).
Qed.


End Settling.


(** *** Marking never fails *)

Lemma same_codes_refl (w : World Code Symbol) : same_codes w w.
Proof. now split. Qed.

Lemma same_codes_trans (w1 w2 w3 : World Code Symbol) :
  same_codes w1 w2 -> same_codes w2 w3 -> same_codes w1 w3.
Proof. intros [T1 C1] [T2 C2]. split; [congruence|]. intros a. congruence. Qed.

Lemma value_code_same (w w' : World Code Symbol) (v : Value Code) :
  same_codes w w' -> value_code (heap w') v = value_code (heap w) v.
Proof. intros [_ C]. destruct v; simpl; try reflexivity. now rewrite C. Qed.

Lemma findable_same (w w' : World Code Symbol) (v : Value Code) :
  same_codes w w' -> findable w v -> findable w' v.
Proof.
  intros S (k & I & E). exists k. rewrite (value_code_same v S).
  destruct S as [T _]. rewrite T. now split.
Qed.

Lemma findable_get (w : World Code Symbol) (v : Value Code) :
  findable w v -> exists a, table_get (heap w) (the_table w) v = Some a.
Proof.
  intros (k & I & E). rewrite (table_get_by_code _ _ _ E).
  now apply table_get_key.
Qed.

Lemma mark_initial_returns (v : Value Code) (w : World Code Symbol) :
  findable w v ->
  exists w', mark_initial v w = (inr tt, w') /\ same_codes w w'.
Proof.
  intros F. destruct (findable_get F) as (a & T). unfold mark_initial.
  rewrite T. eexists. split; [reflexivity|]. split; [reflexivity|].
  intros b. simpl. unfold heap_set. destruct (addr_eqb b a) eqn:E; [|reflexivity].
  apply addr_eqb_true in E as ->. reflexivity.
Qed.

Lemma mark_terminal_returns (v : Value Code) (w : World Code Symbol) :
  findable w v ->
  exists w', mark_terminal v w = (inr tt, w') /\ same_codes w w'.
Proof.
  intros F. destruct (findable_get F) as (a & T). unfold mark_terminal.
  rewrite T. eexists. split; [reflexivity|]. split; [reflexivity|].
  intros b. simpl. unfold heap_set. destruct (addr_eqb b a) eqn:E; [|reflexivity].
  apply addr_eqb_true in E as ->. reflexivity.
Qed.

Lemma for_each_mark_returns (mark : Value Code -> M Code Symbol unit) :
  (forall v w, findable w v ->
               exists w', mark v w = (inr tt, w') /\ same_codes w w') ->
  forall (vs : list (Value Code)) (w : World Code Symbol),
    Forall (findable w) vs ->
    exists w', for_each vs mark w = (inr tt, w') /\ same_codes w w'.
Proof.
  intros Mk. induction vs as [|v vs IH]; intros w F; simpl.
  - exists w. split; [reflexivity | apply same_codes_refl].
  - inversion F as [|? ? Fv Fvs]; subst.
    destruct (Mk v w Fv) as (w1 & E1 & S1).
    destruct (IH w1) as (w2 & E2 & S2).
    { apply Forall_forall. intros x I. apply (findable_same S1).
      rewrite Forall_forall in Fvs. now apply Fvs. }
    exists w2. unfold bind. rewrite E1. split; [exact E2|].
    exact (same_codes_trans S1 S2).
Qed.

Section Marking.

Variable transitions : list (Ref Code * list (Symbol * Ref Code)).
Variable h0 : Heap Code.
Variable w1 : World Code Symbol.
Let refs := right_side transitions ++ left_side transitions.
Hypothesis G : gathered h0 refs w1.

Lemma findable_marked (flag : State Code -> option bool) :
  Forall (findable w1) (marked flag w1).
Proof.
  apply Forall_forall. intros v I. unfold marked in I.
  apply in_map_iff in I as ([k a] & <- & I). apply filter_In in I as [I _].
  exists k. split; [apply in_map_iff; now exists (k, a)|].
  simpl. f_equal. exact (proj1 (g_sound G _ _ I)).
Qed.

Lemma findable_ref (r : Ref Code) : In r refs -> findable w1 (value_of_ref r).
Proof.
  intros I. exists (code (declared h0 r)). split.
  - apply (g_keys G). now exists r.
  - exact (@ref_value_code transitions h0 w1 G r).
Qed.

Lemma findable_initials : Forall (findable w1) (resolved_initials transitions w1).
Proof.
  unfold resolved_initials.
  destruct (marked (@is_initial _) w1) as [|v l] eqn:M.
  - apply Forall_forall. intros v I.
    apply deduced_from_left in I as (r & I & ->).
    apply findable_ref. apply in_or_app. now right.
  - rewrite <- M. apply findable_marked.
Qed.

Lemma findable_terminals :
  Forall (findable w1)
         (match marked (@is_terminal _) w1 with
          | [] => deduce_terminal_states transitions (heap w1)
          | _ :: _ => marked (@is_terminal _) w1
          end).
Proof.
  destruct (marked (@is_terminal _) w1) as [|v l] eqn:M.
  - apply Forall_forall. intros v I.
    apply deduced_from_right in I as (r & I & ->).
    apply findable_ref. apply in_or_app. now left.
  - rewrite <- M. apply findable_marked.
Qed.

(** After the loop, the marking raises exactly when the initial states
    are not one. *)
Lemma mark_states_result :
  exists w2,
    mark_states transitions w1
    = (if List.length (resolved_initials transitions w1) =? 1
       then inr tt else inl ImproperlyConfigured, w2)
    /\ same_codes w1 w2.
Proof.
  unfold mark_states. unfold bind at 1, read at 1. unfold bind at 1, read at 1.
  destruct (List.length (resolved_initials transitions w1) =? 1) eqn:L.
  - unfold bind at 1. unfold ret at 1. cbn [negb]. cbv beta iota.
    assert (T : exists w', (match marked (@is_terminal _) w1 with
                            | [] => read (fun w => deduce_terminal_states
                                                     transitions (heap w))
                            | _ :: _ => ret (marked (@is_terminal _) w1)
                            end) w1
                           = (inr (match marked (@is_terminal _) w1 with
                                   | [] => deduce_terminal_states transitions (heap w1)
                                   | _ :: _ => marked (@is_terminal _) w1
                                   end), w') /\ w' = w1).
    { destruct (marked (@is_terminal _) w1); eexists; split; reflexivity. }
    destruct T as (w' & T & ->). unfold bind at 1. rewrite T.
    pose proof (@for_each_mark_returns) as FM.
    destruct (FM _ (@mark_initial_returns)
                 (resolved_initials transitions w1) w1 findable_initials)
      as (wi & Ei & Si).
    unfold bind at 1. rewrite Ei.
    assert (Ft : Forall (findable wi)
                        (match marked (@is_terminal _) w1 with
                         | [] => deduce_terminal_states transitions (heap w1)
                         | _ :: _ => marked (@is_terminal _) w1
                         end)).
    { apply Forall_forall. intros v I. apply (findable_same Si).
      pose proof findable_terminals as F. rewrite Forall_forall in F.
      now apply F. }
    destruct (FM _ (@mark_terminal_returns) _ wi Ft) as (wt & Et & St).
    exists wt. split; [exact Et | exact (same_codes_trans Si St)].
  - exists w1. split; [reflexivity | apply same_codes_refl].
Qed.

End Marking.


(** *** What the marking does *)

Lemma table_get_same (w w' : World Code Symbol) (v : Value Code) :
  same_codes w w' ->
  table_get (heap w') (the_table w') v = table_get (heap w) (the_table w) v.
Proof.
  intros S. rewrite (proj1 S). apply table_get_codes. exact (value_code_same v S).
Qed.

Lemma lands_same (w w' : World Code Symbol) (vs : list (Value Code)) (a : addr Code) :
  same_codes w w' -> lands w' vs a = lands w vs a.
Proof.
  intros S. unfold lands. induction vs as [|v vs IH]; simpl; [reflexivity|].
  now rewrite IH, (table_get_same v S).
Qed.

Lemma mark_by_same (upd : State Code -> State Code) (v : Value Code)
      (w : World Code Symbol) (a : addr Code) :
  (forall s, code (upd s) = code s) ->
  same_codes w (set_heap (heap_set (heap w) a (upd (heap w a))) w).
Proof.
  intros Hc. split; [reflexivity|]. intros b. simpl. unfold heap_set.
  destruct (addr_eqb b a) eqn:E; [|reflexivity].
  apply addr_eqb_true in E as ->. apply Hc.
Qed.

(** A loop of in-place updates changes the objects the values land on,
    once each, and nothing else. *)
Lemma for_each_mark_by (upd : State Code -> State Code) :
  (forall s, code (upd s) = code s) -> (forall s, upd (upd s) = upd s) ->
  forall (vs : list (Value Code)) (w : World Code Symbol),
    Forall (findable w) vs ->
    exists w',
      for_each vs (mark_by upd) w = (inr tt, w')
      /\ same_codes w w'
      /\ _states w' = _states w
      /\ current_state_code w' = current_state_code w
      /\ trace w' = trace w
      /\ forall a, heap w' a = if lands w vs a then upd (heap w a) else heap w a.
Proof.
  intros Hc Hi. induction vs as [|v vs IH]; intros w F.
  - exists w. simpl. repeat split; try reflexivity.
  - inversion F as [|? ? Fv Fvs]; subst.
    destruct (findable_get Fv) as (a0 & T).
    set (w1 := set_heap (heap_set (heap w) a0 (upd (heap w a0))) w).
    assert (S1 : same_codes w w1) by (apply mark_by_same; assumption).
    destruct (IH w1) as (w' & E & S & St & Cs & Tr & H).
    { apply Forall_forall. intros x I. apply (findable_same S1).
      rewrite Forall_forall in Fvs. now apply Fvs. }
    exists w'. simpl. unfold bind. unfold mark_by at 1. rewrite T. fold w1.
    split; [exact E|]. split; [exact (same_codes_trans S1 S)|].
    split; [exact St|]. split; [exact Cs|]. split; [exact Tr|].
    intros a. rewrite H, (lands_same vs a S1). fold (lands w vs a).
    destruct (addr_eqb a0 a) eqn:Ea; simpl.
    + apply addr_eqb_true in Ea as <-. unfold w1. simpl.
      rewrite heap_set_same. rewrite Hi. now destruct (lands w vs a0).
    + unfold w1. simpl. rewrite heap_set_other; [reflexivity|].
      intros ->. rewrite (proj2 (addr_eqb_true a0 a0) eq_refl) in Ea. discriminate.
Qed.

(** In a table that is sound and holds a key once, a value is looked up
    to the entry of its code. *)
Lemma table_get_entry (w : World Code Symbol) (v : Value Code) (k : Code)
      (a : addr Code) :
  table_sound w -> NoDup (map fst (the_table w)) -> In (k, a) (the_table w) ->
  (table_get (heap w) (the_table w) v = Some a <-> value_code (heap w) v = Some k).
Proof.
  intros So Nd I. split.
  - intros T. apply table_get_In in T as (k' & I' & E).
    apply py_eq_iff in E. simpl in E. rewrite <- E. f_equal.
    rewrite <- (proj1 (So _ _ I')). exact (proj1 (So _ _ I)).
  - intros E. rewrite (table_get_by_code _ _ _ E).
    destruct (table_get_key (heap w) (the_table w) k) as (b & T).
    { apply in_map_iff. now exists (k, a). }
    rewrite T. f_equal. apply table_get_code_Some in T.
    exact (@NoDup_keys_unique _ _ _ _ Nd T I).
Qed.

Lemma lands_entry (w : World Code Symbol) (vs : list (Value Code)) (k : Code)
      (a : addr Code) :
  table_sound w -> NoDup (map fst (the_table w)) -> In (k, a) (the_table w) ->
  (lands w vs a = true <-> exists v, In v vs /\ value_code (heap w) v = Some k).
Proof.
  intros So Nd I. unfold lands. rewrite existsb_exists. split.
  - intros (v & Iv & E). exists v. split; [exact Iv|].
    destruct (table_get (heap w) (the_table w) v) as [b|] eqn:T; [|discriminate].
    apply addr_eqb_true in E as ->. exact (proj1 (@table_get_entry w v k a So Nd I) T).
  - intros (v & Iv & E). exists v. split; [exact Iv|].
    rewrite (proj2 (@table_get_entry w v k a So Nd I) E). now apply addr_eqb_true.
Qed.

Section Marks.

Variable transitions : list (Ref Code * list (Symbol * Ref Code)).
Variable h0 : Heap Code.
Variable w1 : World Code Symbol.
Let refs := right_side transitions ++ left_side transitions.
Hypothesis G : gathered h0 refs w1.

Lemma findable_resolved_terminals :
  Forall (findable w1) (resolved_terminals transitions w1).
Proof.
  unfold resolved_terminals.
  pose proof (@findable_terminals transitions h0 w1 G) as F.
  destruct (marked (@is_terminal _) w1); exact F.
Qed.

(** With one initial state, the marking returns, and leaves the objects
    as [marked_heap] tells. *)
Lemma mark_states_marks :
  List.length (resolved_initials transitions w1) = 1 ->
  exists w2,
    mark_states transitions w1 = (inr tt, w2)
    /\ same_codes w1 w2
    /\ _states w2 = _states w1
    /\ current_state_code w2 = current_state_code w1
    /\ trace w2 = trace w1
    /\ forall a, heap w2 a = marked_heap transitions w1 a.
Proof.
  intros L. unfold mark_states.
  unfold bind at 1, read at 1. unfold bind at 1, read at 1.
  apply Nat.eqb_eq in L. rewrite L.
  unfold bind at 1. unfold ret at 1. cbn [negb]. cbv beta iota.
  assert (T : (match marked (@is_terminal _) w1 with
               | [] => read (fun w => deduce_terminal_states transitions (heap w))
               | _ :: _ => ret (marked (@is_terminal _) w1)
               end) w1
              = (inr (resolved_terminals transitions w1), w1)).
  { unfold resolved_terminals. destruct (marked (@is_terminal _) w1); reflexivity. }
  unfold bind at 1. rewrite T.
  change (@mark_initial Code Code_eq_dec Symbol)
    with (mark_by (Symbol := Symbol) (@set_initial Code)).
  change (@mark_terminal Code Code_eq_dec Symbol)
    with (mark_by (Symbol := Symbol) (@set_terminal Code)).
  destruct (@for_each_mark_by (@set_initial Code)
              (fun s => eq_refl) (fun s => eq_refl)
              (resolved_initials transitions w1) w1 (@findable_initials transitions h0 w1 G))
    as (wi & Ei & Si & Sti & Csi & Tri & Hi).
  unfold bind at 1. rewrite Ei.
  assert (Ft : Forall (findable wi) (resolved_terminals transitions w1)).
  { apply Forall_forall. intros v I. apply (findable_same Si).
    pose proof findable_resolved_terminals as F. rewrite Forall_forall in F.
    now apply F. }
  destruct (@for_each_mark_by (@set_terminal Code)
              (fun s => eq_refl) (fun s => eq_refl)
              (resolved_terminals transitions w1) wi Ft)
    as (wt & Et & St & Stt & Cst & Trt & Ht).
  exists wt. split; [exact Et|]. split; [exact (same_codes_trans Si St)|].
  split; [congruence|]. split; [congruence|]. split; [congruence|].
  intros a. unfold marked_heap.
  rewrite Ht, (lands_same _ a Si), Hi. reflexivity.
Qed.

(** The attributes of an object after the marking. *)
Lemma marked_heap_label (a : addr Code) :
  label (marked_heap transitions w1 a) = label (heap w1 a).
Proof.
  unfold marked_heap.
  now destruct (lands w1 (resolved_initials transitions w1) a),
               (lands w1 (resolved_terminals transitions w1) a).
Qed.

Lemma marked_heap_code (a : addr Code) :
  code (marked_heap transitions w1 a) = code (heap w1 a).
Proof.
  unfold marked_heap.
  now destruct (lands w1 (resolved_initials transitions w1) a),
               (lands w1 (resolved_terminals transitions w1) a).
Qed.

Lemma marked_heap_initial (a : addr Code) :
  is_initial (marked_heap transitions w1 a)
  = if lands w1 (resolved_initials transitions w1) a then Some true
    else is_initial (heap w1 a).
Proof.
  unfold marked_heap.
  now destruct (lands w1 (resolved_initials transitions w1) a),
               (lands w1 (resolved_terminals transitions w1) a).
Qed.

Lemma marked_heap_terminal (a : addr Code) :
  is_terminal (marked_heap transitions w1 a)
  = if lands w1 (resolved_terminals transitions w1) a then Some true
    else is_terminal (heap w1 a).
Proof.
  unfold marked_heap.
  now destruct (lands w1 (resolved_initials transitions w1) a),
               (lands w1 (resolved_terminals transitions w1) a).
Qed.

(** The codes of the deduced terminal states. *)
Lemma deduced_terminal_codes (c : Code) :
  In (Some c) (map (value_code (heap w1))
                   (deduce_terminal_states transitions (heap w1)))
  <-> only_destination h0 transitions c.
Proof.
  unfold deduce_terminal_states, only_destination.
  destruct (set_difference_codes (heap w1)
              (py_set (heap w1) (map (@value_of_ref _) (right_side transitions)))
              (py_set (heap w1) (map (@value_of_ref _) (left_side transitions))))
    as (_ & C & _).
  rewrite C.
  destruct (py_set_codes (heap w1) (map (@value_of_ref _) (left_side transitions)))
    as (_ & Cl & _).
  destruct (py_set_codes (heap w1) (map (@value_of_ref _) (right_side transitions)))
    as (_ & Cr & _).
  rewrite Cl, Cr, !(@ref_codes transitions h0 w1 G). reflexivity.
Qed.

(** The entries flagged [is_terminal] after the loop are those a
    declaration marks. *)
Lemma terminal_flag_codes (k : Code) (a : addr Code) :
  In (k, a) (the_table w1) ->
  (truthy (is_terminal (heap w1 a)) = true <-> explicitly_terminal h0 refs k).
Proof.
  intros I. split.
  - intros T.
    destruct (g_supported G _ _ I) as (_ & _ & [N|(r & Ir & Cr & Er)]).
    + rewrite N in T. discriminate.
    + exists r. repeat split; try assumption. rewrite Er.
      now destruct (is_terminal (heap w1 a)) as [[|]|].
  - intros (r & Ir & Cr & Er). pose proof (g_agrees G) as Ga.
    destruct (Ga _ _ _ I Ir Cr) as (_ & _ & [N|E]); [congruence|].
    now rewrite <- E, Er.
Qed.

Lemma initial_flag_codes (k : Code) (a : addr Code) :
  In (k, a) (the_table w1) ->
  (truthy (is_initial (heap w1 a)) = true <-> explicitly_initial h0 refs k).
Proof.
  intros I. split.
  - intros T.
    destruct (g_supported G _ _ I) as (_ & [N|(r & Ir & Cr & Er)] & _).
    + rewrite N in T. discriminate.
    + exists r. repeat split; try assumption. rewrite Er.
      now destruct (is_initial (heap w1 a)) as [[|]|].
  - intros (r & Ir & Cr & Er). pose proof (g_agrees G) as Ga.
    destruct (Ga _ _ _ I Ir Cr) as (_ & [N|E] & _); [congruence|].
    now rewrite <- E, Er.
Qed.

Lemma no_terminal_flag :
  marked (@is_terminal _) w1 = [] <-> ~ exists d, explicitly_terminal h0 refs d.
Proof.
  split.
  - intros E (d & D).
    assert (K : In d (map fst (the_table w1))).
    { destruct D as (r & Ir & Cr & _). apply (g_keys G). now exists r. }
    apply in_map_iff in K as ([k a] & Ek & I). simpl in Ek. subst k.
    apply (terminal_flag_codes _ _ I) in D. unfold marked in E.
    apply map_eq_nil in E.
    assert (F : In (d, a) (filter (fun kv => truthy (is_terminal (heap w1 (snd kv))))
                                  (the_table w1)))
      by (apply filter_In; now split).
    rewrite E in F. destruct F.
  - intros N. unfold marked.
    destruct (filter _ (the_table w1)) as [|[k a] l] eqn:F; [reflexivity|].
    exfalso. apply N. exists k.
    assert (I : In (k, a) (filter (fun kv => truthy (is_terminal (heap w1 (snd kv))))
                                  (the_table w1)))
      by (rewrite F; now left).
    apply filter_In in I as [I T]. now apply (terminal_flag_codes _ _ I).
Qed.

(** The terminal states the construction settles on are those of the
    terminal set of the specification. *)
Lemma resolved_terminal_codes (c : Code) :
  (exists v, In v (resolved_terminals transitions w1)
             /\ value_code (heap w1) v = Some c)
  <-> terminal_set h0 transitions c.
Proof.
  unfold resolved_terminals.
  destruct (marked (@is_terminal _) w1) as [|v0 l] eqn:M.
  - pose proof (proj1 no_terminal_flag M) as N.
    transitivity (only_destination h0 transitions c);
      [|unfold terminal_set; fold refs; tauto].
    rewrite <- deduced_terminal_codes, in_map_iff. split.
    + intros (v & I & E). now exists v.
    + intros (v & E & I). now exists v.
  - assert (Ex : exists d, explicitly_terminal h0 refs d).
    { destruct (marked (@is_terminal _) w1) eqn:M'; [discriminate|].
      assert (NE : marked (@is_terminal _) w1 <> []) by (rewrite M'; discriminate).
      destruct (filter (fun kv => truthy (is_terminal (heap w1 (snd kv))))
                       (the_table w1)) as [|[k a] f] eqn:F.
      { exfalso. apply NE. unfold marked. now rewrite F. }
      assert (I : In (k, a) (filter (fun kv => truthy (is_terminal (heap w1 (snd kv))))
                                    (the_table w1)))
        by (rewrite F; now left).
      apply filter_In in I as [I T]. exists k. now apply (terminal_flag_codes _ _ I). }
    rewrite <- M.
    transitivity (explicitly_terminal h0 refs c);
      [|unfold terminal_set; fold refs; tauto].
    unfold marked. split.
    + intros (v & I & E). apply in_map_iff in I as ([k a] & <- & I).
      simpl in E. apply filter_In in I as [I T].
      rewrite (proj1 (g_sound G _ _ I)) in E. injection E as <-.
      now apply (terminal_flag_codes _ _ I).
    + intros D.
      assert (K : In c (map fst (the_table w1))).
      { destruct D as (r & Ir & Cr & _). apply (g_keys G). now exists r. }
      apply in_map_iff in K as ([k a] & Ek & I). simpl in Ek. subst k.
      exists (VState a). split.
      * apply in_map_iff. exists (c, a). split; [reflexivity|].
        apply filter_In. split; [exact I|]. now apply (terminal_flag_codes _ _ I).
      * simpl. f_equal. exact (proj1 (g_sound G _ _ I)).
Qed.

(** After the marking, the entries flagged initial are those of the
    initial set, and the entries flagged terminal those of the terminal
    set. *)
Lemma marked_initial_iff (k : Code) (a : addr Code) :
  In (k, a) (the_table w1) ->
  (truthy (is_initial (marked_heap transitions w1 a)) = true
   <-> initial_set h0 transitions k).
Proof.
  intros I. rewrite marked_heap_initial.
  pose proof (@lands_entry w1 (resolved_initials transitions w1) k a
                           (g_sound G) (g_nodup G) I) as Le.
  pose proof (@resolved_initial_codes transitions h0 w1 G k) as Rc.
  destruct (lands w1 (resolved_initials transitions w1) a).
  - split; [intros _|reflexivity]. apply Rc, Le. reflexivity.
  - rewrite (initial_flag_codes _ _ I). split.
    + intros D. left. split; [now exists k | exact D].
    + intros S. apply Rc, Le in S. discriminate.
Qed.

Lemma marked_terminal_iff (k : Code) (a : addr Code) :
  In (k, a) (the_table w1) ->
  (truthy (is_terminal (marked_heap transitions w1 a)) = true
   <-> terminal_set h0 transitions k).
Proof.
  intros I. rewrite marked_heap_terminal.
  pose proof (@lands_entry w1 (resolved_terminals transitions w1) k a
                           (g_sound G) (g_nodup G) I) as Le.
  pose proof (resolved_terminal_codes k) as Rc.
  destruct (lands w1 (resolved_terminals transitions w1) a).
  - split; [intros _|reflexivity]. apply Rc, Le. reflexivity.
  - rewrite (terminal_flag_codes _ _ I). split.
    + intros D. left. split; [now exists k | exact D].
    + intros S. apply Rc, Le in S. discriminate.
Qed.

End Marks.


(** ** The table that [states] builds *)

Lemma not_states_false (w : World Code Symbol) :
  not_states w = false -> has_table w.
Proof.
  unfold not_states, has_table, the_table.
  destruct (_states w) as [[|kv t]|]; intros N; discriminate.
Qed.

Lemma preserves_has_table_gather (r : Ref Code) :
  preserves (@has_table _ _) (gather (Symbol := Symbol) r).
Proof.
  intros w res w' H N. unfold gather in H.
  destruct (as_state (heap w) r) as [a state].
  destruct (table_get (heap w) (the_table w) (VCode (code state))) as [b|].
  - destruct (merge_data (heap w b) state) as [m e].
    assert (W : w' = set_heap (heap_set (heap w) b m) w)
      by (destruct e; now injection H as <- <-).
    subst w'. exact N.
  - injection H as <- <-. unfold has_table. simpl. intros E.
    apply app_eq_nil in E as [_ E]. discriminate.
Qed.

Lemma preserves_has_table_mark_initial (v : Value Code) :
  preserves (@has_table _ _) (mark_initial (Symbol := Symbol) v).
Proof.
  intros w res w' H N. unfold mark_initial in H.
  destruct (table_get _ _ _) as [b|]; injection H as <- <-; exact N.
Qed.

Lemma preserves_has_table_mark_terminal (v : Value Code) :
  preserves (@has_table _ _) (mark_terminal (Symbol := Symbol) v).
Proof.
  intros w res w' H N. unfold mark_terminal in H.
  destruct (table_get _ _ _) as [b|]; injection H as <- <-; exact N.
Qed.

(** The first round of the loop puts its state into the empty table. *)
Lemma gather_first (r : Ref Code) (w : World Code Symbol) :
  the_table w = [] -> has_table (snd (gather r w)).
Proof.
  intros E. unfold gather. destruct (as_state (heap w) r) as [a state].
  rewrite E. simpl. discriminate.
Qed.

Lemma initial_set_declared (h0 : Heap Code)
      (transitions : list (Ref Code * list (Symbol * Ref Code))) (c : Code) :
  initial_set h0 transitions c ->
  exists r, In r (right_side transitions ++ left_side transitions)
            /\ code (declared h0 r) = c.
Proof.
  intros [[_ (r & I & C & _)]|[_ [(r & I & C) _]]]; exists r; split;
    try assumption.
  apply in_or_app. now right.
Qed.

Lemma terminal_set_declared (h0 : Heap Code)
      (transitions : list (Ref Code * list (Symbol * Ref Code))) (c : Code) :
  terminal_set h0 transitions c ->
  exists r, In r (right_side transitions ++ left_side transitions)
            /\ code (declared h0 r) = c.
Proof.
  intros [[_ (r & I & C & _)]|[_ [(r & I & C) _]]]; exists r; split;
    try assumption.
  apply in_or_app. now left.
Qed.

Section Built.

Variable transitions : list (Ref Code * list (Symbol * Ref Code)).
Let refs := right_side transitions ++ left_side transitions.

Lemma preserves_has_table_mark_states :
  preserves (@has_table _ _) (mark_states transitions).
Proof.
  unfold mark_states.
  apply preserves_bind; [apply preserves_read|].
  intros initials. apply preserves_bind; [apply preserves_read|].
  intros terminals. apply preserves_bind.
  { destruct (negb _); [apply preserves_raise | apply preserves_ret]. }
  intros _. apply preserves_bind.
  { destruct terminals; [apply preserves_read | apply preserves_ret]. }
  intros terminals'.
  apply preserves_bind;
    [apply preserves_for_each, preserves_has_table_mark_initial|].
  intros _. apply preserves_for_each, preserves_has_table_mark_terminal.
Qed.

(** Whether it returns or raises, the gathering loop leaves a table that
    is not empty, unless [transitions] is. *)
Lemma gather_states_has_table (w w' : World Code Symbol) r :
  transitions <> [] -> gather_states transitions w = (r, w') -> has_table w'.
Proof.
  intros NE H. unfold gather_states in H.
  apply bind_inv in H as [(? & w0 & M & H)|(? & M & _)]; [|discriminate].
  injection M as _ <-.
  destruct (right_side transitions ++ left_side transitions) as [|r0 rest] eqn:R.
  { apply app_eq_nil in R as [_ R]. unfold left_side in R.
    apply map_eq_nil in R. contradiction. }
  simpl in H.
  pose proof (@gather_first r0 (set_states (Some []) w) eq_refl) as F.
  apply bind_inv in H as [(? & wa & Ga & H)|(? & Ga & _)].
  - rewrite Ga in F. simpl in F.
    apply (preserves_for_each (P := @has_table _ _)) in H;
      [exact (H F) | apply preserves_has_table_gather].
  - rewrite Ga in F. exact F.
Qed.

(** A construction that returns: the world after the loop, and what the
    marking made of it. *)
Lemma states_built (w w2 : World Code Symbol) (t : list (Code * addr Code)) :
  not_states w = true -> states transitions w = (inr t, w2) ->
  exists w1,
    gathered (heap w) refs w1
    /\ List.length (resolved_initials transitions w1) = 1
    /\ t = the_table w2
    /\ same_codes w1 w2
    /\ (forall a, heap w2 a = marked_heap transitions w1 a)
    /\ untouched w w2.
Proof.
  intros N H. pose proof (@quiet_states transitions _ _ _ H) as [U _].
  unfold states in H. rewrite N in H. unfold build_states in H.
  apply bind_inv in H as [(x & wb & B & R)|(e & _ & Ex)]; [|discriminate].
  injection R as <- <-.
  apply bind_inv in B as [(y & w1 & Gs & Ms)|(e & _ & Ex)]; [|discriminate].
  destruct (gather_states_result _ _ Gs) as [[_ G]|[Ex _]]; [|discriminate].
  exists w1. split; [exact G|].
  destruct (@mark_states_result transitions (heap w) w1 G) as (w2' & Ms' & _).
  rewrite Ms in Ms'.
  destruct (List.length (resolved_initials transitions w1) =? 1) eqn:L;
    [|discriminate].
  apply Nat.eqb_eq in L. split; [exact L|].
  destruct (@mark_states_marks transitions (heap w) w1 G L)
    as (w3 & Ms3 & S & _ & _ & _ & Hh).
  destruct x. rewrite Ms in Ms3. injection Ms3 as <-.
  split; [reflexivity|]. split; [exact S|]. split; [exact Hh | exact U].
Qed.

Lemma built_sound (w1 w2 : World Code Symbol) :
  table_sound w1 -> same_codes w1 w2 -> table_sound w2.
Proof.
  intros So [T C] k a I. rewrite T in I. rewrite C. exact (So _ _ I).
Qed.

(** The initial state of a table that was built: the one entry flagged
    [is_initial], under the one code of the initial set. *)
Lemma built_initial (w w2 : World Code Symbol) (t : list (Code * addr Code)) :
  not_states w = true -> states transitions w = (inr t, w2) ->
  exists c a,
    find (fun kv => truthy (is_initial (heap w2 (snd kv)))) t = Some (c, a)
    /\ In (c, a) t
    /\ initial_set (heap w) transitions c
    /\ code (heap w2 a) = c
    /\ table_get (heap w2) t (VState a) = Some a
    /\ forall k b, In (k, b) t ->
                   (truthy (is_initial (heap w2 b)) = true <-> k = c).
Proof.
  intros N H.
  destruct (@states_built _ _ _ N H) as (w1 & G & L & Et & S & Hh & _).
  pose proof (proj1 (@one_resolved_initial transitions (heap w) w1 G) L)
    as (c & Ic & Uc).
  assert (T : the_table w2 = the_table w1) by apply S.
  assert (Fl : forall k b, In (k, b) t ->
                 (truthy (is_initial (heap w2 b)) = true <-> k = c)).
  { intros k b I. rewrite Et, T in I. rewrite Hh.
    rewrite (@marked_initial_iff transitions (heap w) w1 G k b I). split.
    - apply Uc.
    - now intros ->. }
  destruct (find (fun kv => truthy (is_initial (heap w2 (snd kv)))) t)
    as [[k a]|] eqn:F.
  - apply find_some in F as [I Tr]. simpl in Tr.
    pose proof (proj1 (Fl _ _ I) Tr) as ->.
    exists c, a. repeat split; try assumption; try reflexivity.
    + pose proof (built_sound (g_sound G) S) as So. rewrite Et in I.
      exact (proj1 (So _ _ I)).
    + pose proof (built_sound (g_sound G) S) as So.
      assert (Nd : NoDup (map fst (the_table w2)))
        by (rewrite T; exact (g_nodup G)).
      rewrite Et in *.
      apply (proj2 (@table_get_entry w2 (VState a) c a So Nd I)).
      simpl. f_equal. exact (proj1 (So _ _ I)).
    + exact (proj1 (Fl k b H0)).
    + exact (proj2 (Fl k b H0)).
  - exfalso.
    destruct (initial_set_declared Ic) as (r & Ir & Cr).
    assert (K : In c (map fst (the_table w1)))
      by (apply (g_keys G); now exists r).
    apply in_map_iff in K as ([k a] & Ek & I). simpl in Ek. subst k.
    rewrite <- T, <- Et in I.
    pose proof (find_none _ _ F _ I) as Fa. simpl in Fa.
    rewrite (proj2 (Fl _ _ I) eq_refl) in Fa. discriminate.
Qed.

(** X1: once [states] has returned a table, the table is not empty, and
    every later access returns the same table and changes nothing: the
    table of a class is built once. *)
Theorem X1_the_table_is_built_once (w w1 : World Code Symbol)
        (t : list (Code * addr Code)) :
  states transitions w = (inr t, w1) ->
  t <> [] /\ states transitions w1 = (inr t, w1).
Proof.
  intros H. destruct (not_states w) eqn:N.
  - destruct (@states_built _ _ _ N H) as (wg & G & L & Et & S & _).
    assert (NE : the_table w1 <> []).
    { rewrite (proj1 S).
      pose proof (@findable_initials transitions (heap w) wg G) as F.
      destruct (resolved_initials transitions wg) as [|v l]; [discriminate|].
      inversion F as [|? ? (k & I & _) _]; subst.
      intros E. rewrite E in I. destruct I. }
    rewrite Et. split; [exact NE | now apply states_cached].
  - pose proof (not_states_false _ N) as NE.
    unfold states in H. rewrite N in H. injection H as <- <-.
    split; [exact NE | now apply states_cached].
Qed.

(** X2: a construction that raises leaves the table it has gathered so
    far in [_states]; unless [transitions] is empty that table is not
    empty, so the next access to [states] takes it for built and returns
    it without raising. *)
Theorem X2_a_failed_construction_is_reported_once
        (w w1 : World Code Symbol) (e : Exc Code Symbol) :
  not_states w = true -> transitions <> [] ->
  states transitions w = (inl e, w1) ->
  the_table w1 <> []
  /\ states transitions w1 = (inr (the_table w1), w1).
Proof.
  intros N NE H.
  assert (Ht : has_table w1).
  { unfold states in H. rewrite N in H. unfold build_states in H.
    apply bind_inv in H as [(x & wb & B & R)|(e' & B & _)]; [discriminate|].
    apply bind_inv in B as [(y & wg & Gs & Ms)|(e'' & Gs & _)].
    - exact (@preserves_has_table_mark_states _ _ _ Ms
               (@gather_states_has_table _ _ _ NE Gs)).
    - exact (@gather_states_has_table _ _ _ NE Gs). }
  split; [exact Ht | now apply states_cached].
Qed.

(** X3: the table that [states] builds has one entry for each code that
    [transitions] mentions, as a key or as a destination, and no other;
    every entry sits under its own code, and every state of the
    specification, bare code or [State] instance, is looked up to the
    entry of its code. *)
Theorem X3_the_table_holds_the_declared_states
        (w w2 : World Code Symbol) (t : list (Code * addr Code)) :
  not_states w = true -> states transitions w = (inr t, w2) ->
  NoDup (map fst t)
  /\ (forall c, In c (map fst t)
                <-> exists r, In r (right_side transitions ++ left_side transitions)
                              /\ code (declared (heap w) r) = c)
  /\ (forall k a, In (k, a) t -> code (heap w2 a) = k)
  /\ (forall r, In r (right_side transitions ++ left_side transitions) ->
                exists a, table_get (heap w2) t (value_of_ref r) = Some a
                          /\ In (code (declared (heap w) r), a) t).
Proof.
  intros N H.
  destruct (@states_built _ _ _ N H) as (w1 & G & L & Et & S & Hh & _).
  assert (T : the_table w2 = the_table w1) by apply S.
  rewrite Et, T. split; [exact (g_nodup G)|]. split; [exact (g_keys G)|].
  split.
  - intros k a I. rewrite (proj2 S). exact (proj1 (g_sound G _ _ I)).
  - intros r Ir.
    pose proof (@ref_value_code transitions (heap w) w1 G r) as Vc.
    assert (K : In (code (declared (heap w) r)) (map fst (the_table w1)))
      by (apply (g_keys G); now exists r).
    apply in_map_iff in K as ([k a] & Ek & I). simpl in Ek. subst k.
    exists a. split; [|exact I].
    rewrite <- T, (table_get_same (value_of_ref r) S).
    exact (proj2 (@table_get_entry w1 (value_of_ref r) _ a
                    (g_sound G) (g_nodup G) I) Vc).
Qed.

(** X4: in the table that [states] builds, a state has the label [l]
    exactly when some declaration of its code in [transitions] gives the
    label [l]: the labels are gathered from all the declarations, and
    none is made up or lost. *)
Theorem X4_the_table_gathers_the_labels
        (w w2 : World Code Symbol) (t : list (Code * addr Code)) :
  not_states w = true -> states transitions w = (inr t, w2) ->
  forall k a l,
    In (k, a) t ->
    (label (heap w2 a) = Some l
     <-> exists r, In r (right_side transitions ++ left_side transitions)
                   /\ code (declared (heap w) r) = k
                   /\ label (declared (heap w) r) = Some l).
Proof.
  intros N H k a l I.
  destruct (@states_built _ _ _ N H) as (w1 & G & L & Et & S & Hh & _).
  rewrite Et, (proj1 S) in I.
  rewrite Hh, (@marked_heap_label transitions w1 a). split.
  - intros E. destruct (g_supported G _ _ I) as ([No|(r & Ir & Cr & Er)] & _).
    + congruence.
    + exists r. repeat split; try assumption. congruence.
  - intros (r & Ir & Cr & Er). pose proof (g_agrees G) as Ga.
    destruct (Ga _ _ _ I Ir Cr) as ([No|E] & _); congruence.
Qed.

(** X5: on a class whose table is not built yet, [get_initial_state]
    returns, when it returns, the [State] object of the table whose code
    is the one code of the initial set of the specification (marked
    explicitly, or else a key that is never a destination); it is the only
    entry of the table whose [is_initial] is true, and never [None]. *)
Theorem X5_get_initial_state_returns_the_initial_state
        (w w2 : World Code Symbol) (v : Value Code) :
  not_states w = true ->
  get_initial_state transitions w = (inr v, w2) ->
  exists c a,
    v = VState a
    /\ In (c, a) (the_table w2)
    /\ code (heap w2 a) = c
    /\ initial_set (heap w) transitions c
    /\ forall k b, In (k, b) (the_table w2) ->
                   (truthy (is_initial (heap w2 b)) = true <-> k = c).
Proof.
  intros N H. unfold get_initial_state in H.
  apply bind_inv in H as [(t & wb & St & R)|(e & _ & Ex)]; [|discriminate].
  injection R as <- <-.
  destruct (@built_initial _ _ _ N St) as (c & a & F & I & Is & C & _ & U).
  assert (Et : t = the_table wb) by (destruct (@states_built _ _ _ N St); tauto).
  exists c, a. rewrite F, <- Et. repeat split; try assumption.
  - exact (proj1 (U k b H)).
  - exact (proj2 (U k b H)).
Qed.

(** What [get_terminals] returns on a class whose table is not built
    yet: the [State] objects of the table whose codes make the terminal
    set of the specification. *)
Lemma built_terminals
        (w w2 : World Code Symbol) (vs : list (Value Code)) :
  not_states w = true ->
  get_terminals transitions w = (inr vs, w2) ->
  (forall v, In v vs -> exists k a, v = VState a /\ In (k, a) (the_table w2))
  /\ forall c, (exists a, In (VState a) vs /\ code (heap w2 a) = c)
               <-> terminal_set (heap w) transitions c.
Proof.
  intros N H. unfold get_terminals in H.
  apply bind_inv in H as [(t & wb & St & R)|(e & _ & Ex)]; [|discriminate].
  injection R as <- <-.
  destruct (@states_built _ _ _ N St) as (w1 & G & L & Et & S & Hh & _).
  assert (T : the_table wb = the_table w1) by apply S.
  rewrite Et, T.
  assert (Fl : forall k a, In (k, a) (the_table w1) ->
                 (truthy (is_terminal (heap wb a)) = true
                  <-> terminal_set (heap w) transitions k)).
  { intros k a I. rewrite Hh.
    exact (@marked_terminal_iff transitions (heap w) w1 G k a I). }
  split.
  - intros v I. apply in_map_iff in I as ([k a] & <- & I).
    apply filter_In in I as [I _]. now exists k, a.
  - intros c. split.
    + intros (a & I & C). apply in_map_iff in I as ([k b] & E & I).
      simpl in E. injection E as ->. apply filter_In in I as [I Tr].
      simpl in Tr. rewrite (proj2 S), (proj1 (g_sound G _ _ I)) in C.
      subst c. now apply (Fl k a I).
    + intros Ts. destruct (terminal_set_declared Ts) as (r & Ir & Cr).
      assert (K : In c (map fst (the_table w1)))
        by (apply (g_keys G); now exists r).
      apply in_map_iff in K as ([k a] & Ek & I). simpl in Ek. subst k.
      exists a. split.
      * apply in_map_iff. exists (c, a). split; [reflexivity|].
        apply filter_In. split; [exact I|]. simpl. now apply (Fl c a I).
      * rewrite (proj2 S). exact (proj1 (g_sound G _ _ I)).
Qed.

(** X7: [__init__] on an instance without a code, of a class whose table
    is not built yet and can be built: it returns, and the one thing it
    does to the instance is to assign the code of the initial set of the
    specification, a key of the table. *)
Theorem X7_a_new_instance_starts_in_the_initial_state
        (w w2 : World Code Symbol) (t : list (Code * addr Code)) :
  not_states w = true -> current_state_code w = None ->
  states transitions w = (inr t, w2) ->
  exists c,
    initial_set (heap w) transitions c
    /\ In c (map fst t)
    /\ __init__ transitions w
       = (inr tt, emit (EvAssign c) (set_current_state_code (Some c) w2)).
Proof.
  intros N C H.
  destruct (@built_initial _ _ _ N H) as (c & a & F & I & Is & Cc & Tg & _).
  assert (Et : t = the_table w2) by (destruct (@states_built _ _ _ N H); tauto).
  exists c. split; [exact Is|]. split; [apply in_map_iff; now exists (c, a)|].
  unfold __init__. unfold bind at 1, read at 1. rewrite C.
  unfold bind at 1. unfold get_initial_state. unfold bind at 1. rewrite H.
  unfold read. rewrite F. cbn [snd].
  assert (NE : the_table w2 <> []).
  { rewrite <- Et. intros E. rewrite E in I. destruct I. }
  rewrite (@set_current_state_cached transitions (VState a) w2 NE).
  rewrite <- Et, Tg, Cc. reflexivity.
Qed.

(** X8: after an assignment to [current_state] that returns, the getter
    returns the [State] object the table holds for the assigned value: it
    compares equal to what was assigned (a [State] instance or a bare
    code), its code is what [current_state_code] now holds, and the
    assignment is the one thing that happened to the instance. *)
Theorem X8_the_getter_returns_what_the_setter_stored
        (state : Value Code) (w w' : World Code Symbol) :
  table_ok w ->
  set_current_state transitions state w = (inr tt, w') ->
  exists b,
    current_state transitions w' = (inr (VState b), w')
    /\ In (code (heap w' b), b) (the_table w')
    /\ py_eq (heap w') (VState b) state = true
    /\ current_state_code w' = Some (code (heap w' b))
    /\ trace w' = trace w ++ [EvAssign (code (heap w' b))].
Proof.
  intros Ok H. unfold set_current_state in H.
  apply bind_inv in H as [(t & w1 & St & H)|(e & _ & Ex)]; [|discriminate].
  pose proof (states_returns_the_table _ _ St) as Et.
  pose proof (@preserves_states transitions _ _ _ St Ok) as Ok1.
  pose proof (@quiet_states transitions _ _ _ St) as [[_ Tr] _].
  destruct (table_get (heap w1) t state) as [b|] eqn:Tg; [|discriminate].
  injection H as <-. exists b.
  destruct (table_get_In _ _ _ Tg) as (k & I & E).
  rewrite Et in I. pose proof (Ok1 _ _ I) as Ck.
  assert (Vc : value_code (heap w1) state = Some k).
  { apply py_eq_iff in E. now rewrite <- E. }
  change (heap (emit (EvAssign (code (heap w1 b)))
                  (set_current_state_code (Some (code (heap w1 b))) w1)))
    with (heap w1).
  change (the_table (emit (EvAssign (code (heap w1 b)))
                       (set_current_state_code (Some (code (heap w1 b))) w1)))
    with (the_table w1).
  split.
  - apply current_state_again. simpl. rewrite Ck.
    change (table_get (heap w1) (the_table w1) (VCode k) = Some b).
    rewrite <- (table_get_by_code _ _ _ Vc), <- Et. exact Tg.
  - rewrite Ck. split; [exact I|]. split.
    + apply py_eq_iff. simpl. now rewrite Ck, Vc.
    + split; [reflexivity|]. simpl. now rewrite Tr.
Qed.


End Built.


(** ** Registration and matching *)

Lemma symbol_eqb_true (a b : Symbol) : symbol_eqb a b = true <-> a = b.
Proof. unfold symbol_eqb. destruct (eq_dec a b); split; congruence. Qed.

Lemma py_eq_refl (h : Heap Code) (v : Value Code) : py_eq h v v = true.
Proof. now apply py_eq_iff. Qed.

Lemma py_eq_trans (h : Heap Code) (u v w : Value Code) :
  py_eq h u v = true -> py_eq h v w = true -> py_eq h u w = true.
Proof. rewrite !py_eq_iff. congruence. Qed.

Section MatcherEq.

Context {A : Type}.
Variable eqb : A -> A -> bool.
Hypothesis eqb_refl : forall x, eqb x x = true.
Hypothesis eqb_sym : forall x y, eqb x y = eqb y x.
Hypothesis eqb_trans : forall x y z, eqb x y = true -> eqb y z = true ->
                                     eqb x z = true.

Lemma eqb_cong (x y z : A) : eqb x y = true -> eqb x z = eqb y z.
Proof.
  intros E. destruct (eqb x z) eqn:X, (eqb y z) eqn:Y; try reflexivity.
  - rewrite eqb_sym in E. rewrite (@eqb_trans _ _ _ E X) in Y. discriminate.
  - rewrite (@eqb_trans _ _ _ E Y) in X. discriminate.
Qed.

Lemma matcher_eq_refl (m : Matcher A) : matcher_eq eqb m m = true.
Proof. destruct m; simpl; auto. Qed.

Lemma matcher_eq_sym (m n : Matcher A) : matcher_eq eqb m n = matcher_eq eqb n m.
Proof. destruct m, n; simpl; auto. Qed.

Lemma matcher_eq_trans (m n o : Matcher A) :
  matcher_eq eqb m n = true -> matcher_eq eqb n o = true ->
  matcher_eq eqb m o = true.
Proof. destruct m, n, o; simpl; try discriminate; eauto. Qed.

(** Two keys that are equal match the same arguments. *)
Lemma condition_ok_cong (m n : Matcher A) (arg : A) :
  matcher_eq eqb m n = true -> condition_ok eqb m arg = condition_ok eqb n arg.
Proof. destruct m, n; simpl; try discriminate; auto using eqb_cong. Qed.

End MatcherEq.

Lemma symbol_eqb_refl (s : Symbol) : symbol_eqb s s = true.
Proof. now apply symbol_eqb_true. Qed.

Lemma symbol_eqb_sym (s t : Symbol) : symbol_eqb s t = symbol_eqb t s.
Proof.
  destruct (symbol_eqb s t) eqn:E, (symbol_eqb t s) eqn:F; try reflexivity.
  - apply symbol_eqb_true in E as ->. now rewrite symbol_eqb_refl in F.
  - apply symbol_eqb_true in F as ->. now rewrite symbol_eqb_refl in E.
Qed.

Lemma symbol_eqb_trans (s t u : Symbol) :
  symbol_eqb s t = true -> symbol_eqb t u = true -> symbol_eqb s u = true.
Proof. rewrite !symbol_eqb_true. congruence. Qed.

Lemma rule_eq_refl (h : Heap Code) (k : Rule Code Symbol) : rule_eq h k k = true.
Proof.
  destruct k as [[f s] t]. unfold rule_eq.
  rewrite !(@matcher_eq_refl _ (py_eq h) (@py_eq_refl h)).
  now rewrite (@matcher_eq_refl _ (@symbol_eqb Symbol _) symbol_eqb_refl).
Qed.

Lemma rule_eq_sym (h : Heap Code) (k l : Rule Code Symbol) :
  rule_eq h k l = rule_eq h l k.
Proof.
  destruct k as [[f s] t], l as [[f' s'] t']. unfold rule_eq.
  rewrite (@matcher_eq_sym _ (py_eq h) (@py_eq_sym h) f f').
  rewrite (@matcher_eq_sym _ (@symbol_eqb Symbol _) symbol_eqb_sym s s').
  now rewrite (@matcher_eq_sym _ (py_eq h) (@py_eq_sym h) t t').
Qed.

Lemma rule_eq_trans (h : Heap Code) (k l m : Rule Code Symbol) :
  rule_eq h k l = true -> rule_eq h l m = true -> rule_eq h k m = true.
Proof.
  destruct k as [[f s] t], l as [[f' s'] t'], m as [[f'' s''] t''].
  unfold rule_eq. rewrite !andb_true_iff.
  intros [[F S] T] [[F' S'] T']. repeat split.
  - exact (@matcher_eq_trans _ (py_eq h) (@py_eq_trans h) _ _ _ F F').
  - exact (@matcher_eq_trans _ (@symbol_eqb Symbol _) symbol_eqb_trans _ _ _ S S').
  - exact (@matcher_eq_trans _ (py_eq h) (@py_eq_trans h) _ _ _ T T').
Qed.

Lemma matches_rule_eq (h : Heap Code) (k l : Rule Code Symbol)
      (from_state : Value Code) (symbol : Symbol) (to_state : Value Code) :
  rule_eq h k l = true ->
  matches h k from_state symbol to_state = matches h l from_state symbol to_state.
Proof.
  destruct k as [[f s] t], l as [[f' s'] t']. unfold rule_eq, matches.
  rewrite !andb_true_iff. intros [[F S] T].
  rewrite (@condition_ok_cong _ (py_eq h) (@py_eq_sym h) (@py_eq_trans h)
             _ _ from_state F).
  rewrite (@condition_ok_cong _ (@symbol_eqb Symbol _) symbol_eqb_sym symbol_eqb_trans
             _ _ symbol S).
  now rewrite (@condition_ok_cong _ (py_eq h) (@py_eq_sym h) (@py_eq_trans h)
                 _ _ to_state T).
Qed.

(** *** Sets of functions and the dict of rules *)

Lemma handlers_add_has (s : list (Handler Code Symbol RetVal))
      (f : Handler Code Symbol RetVal) :
  exists g, In g (handlers_add s f) /\ handler_id g = handler_id f.
Proof.
  unfold handlers_add.
  destruct (existsb _ s) eqn:E.
  - apply existsb_exists in E as (g & I & Eg). exists g. split; [exact I|].
    now apply Nat.eqb_eq.
  - exists f. split; [apply in_or_app; right; now left | reflexivity].
Qed.

Lemma handlers_add_again (s : list (Handler Code Symbol RetVal))
      (f : Handler Code Symbol RetVal) :
  handlers_add (handlers_add s f) f = handlers_add s f.
Proof.
  unfold handlers_add at 2.
  destruct (existsb _ s) eqn:E.
  - unfold handlers_add. now rewrite E.
  - unfold handlers_add. rewrite existsb_app. simpl.
    now rewrite Nat.eqb_refl, E.
Qed.

Lemma rules_add_registered (h : Heap Code) (d : Rules Code Symbol RetVal)
      (k : Rule Code Symbol) (f : Handler Code Symbol RetVal) :
  registered h (rules_add h d k f) k f.
Proof.
  unfold rules_add, registered.
  destruct (existsb (fun kv => rule_eq h (fst kv) k) d) eqn:E.
  - split.
    + apply existsb_exists in E as (kv & I & Ek).
      exists (fst kv, handlers_add (snd kv) f). split; [|exact Ek].
      apply in_map_iff. exists kv. now rewrite Ek.
    + intros kv' I Ek. apply in_map_iff in I as (kv & <- & I).
      destruct (rule_eq h (fst kv) k) eqn:Ekv.
      * apply handlers_add_has.
      * rewrite Ekv in Ek. discriminate.
  - split.
    + exists (k, [f]). split; [apply in_or_app; right; now left|].
      apply rule_eq_refl.
    + intros kv I Ek. apply in_app_or in I as [I|[<-|[]]].
      * assert (T : existsb (fun kv => rule_eq h (fst kv) k) d = true)
          by (apply existsb_exists; now exists kv).
        rewrite T in E. discriminate.
      * exists f. split; [now left | reflexivity].
Qed.

(** An assignment [d[k1] = v] leaves [f] registered under [k] when [k1] is
    another key, and registers it when [k1] equals [k] and [v] holds [f]. *)
Lemma rules_set_other (h : Heap Code) (d : Rules Code Symbol RetVal)
      (k k1 : Rule Code Symbol) (v : list (Handler Code Symbol RetVal))
      (f : Handler Code Symbol RetVal) :
  rule_eq h k1 k = false -> registered h d k f ->
  registered h (rules_set h d k1 v) k f.
Proof.
  intros Ne [(kv & I & Ek) All]. unfold rules_set.
  assert (Other : forall e : Rule Code Symbol * list (Handler Code Symbol RetVal),
             rule_eq h (fst e) k = true -> rule_eq h (fst e) k1 = false).
  { intros e Ee. destruct (rule_eq h (fst e) k1) eqn:E1; [|reflexivity].
    rewrite rule_eq_sym in E1. rewrite (@rule_eq_trans _ _ _ _ E1 Ee) in Ne.
    discriminate. }
  destruct (existsb _ d).
  - split.
    + exists kv. split; [|exact Ek]. apply in_map_iff. exists kv.
      now rewrite (Other kv Ek).
    + intros e' I' Ek'. apply in_map_iff in I' as (e & <- & Ie).
      destruct (rule_eq h (fst e) k1) eqn:E1.
      * simpl in Ek'. rewrite (Other e Ek') in E1. discriminate.
      * now apply All.
  - split.
    + exists kv. split; [apply in_or_app; now left | exact Ek].
    + intros e I' Ek'. apply in_app_or in I' as [I'|[<-|[]]]; [now apply All|].
      simpl in Ek'. rewrite Ek' in Ne. discriminate.
Qed.

Lemma rules_set_same (h : Heap Code) (d : Rules Code Symbol RetVal)
      (k k1 : Rule Code Symbol) (v : list (Handler Code Symbol RetVal))
      (f : Handler Code Symbol RetVal) :
  rule_eq h k1 k = true ->
  (exists g, In g v /\ handler_id g = handler_id f) ->
  registered h (rules_set h d k1 v) k f.
Proof.
  intros Eq Hv. unfold rules_set.
  destruct (existsb (fun kv => rule_eq h (fst kv) k1) d) eqn:E.
  - split.
    + apply existsb_exists in E as (kv & I & Ek).
      exists (fst kv, v). split.
      * apply in_map_iff. exists kv. now rewrite Ek.
      * exact (@rule_eq_trans _ _ _ _ Ek Eq).
    + intros e' I' Ek'. apply in_map_iff in I' as (e & <- & Ie).
      destruct (rule_eq h (fst e) k1) eqn:E1; [exact Hv|].
      rewrite rule_eq_sym in Eq. rewrite (@rule_eq_trans _ _ _ _ Ek' Eq) in E1.
      discriminate.
  - split.
    + exists (k1, v). split; [apply in_or_app; right; now left | exact Eq].
    + intros e I' Ek'. apply in_app_or in I' as [I'|[<-|[]]]; [|exact Hv].
      assert (T : existsb (fun kv => rule_eq h (fst kv) k1) d = true).
      { apply existsb_exists. exists e. split; [exact I'|].
        rewrite rule_eq_sym in Eq. exact (@rule_eq_trans _ _ _ _ Ek' Eq). }
      rewrite T in E. discriminate.
Qed.

(** [handlers.update(cls.handlers)] keeps what the dict of the class has
    registered, whatever was inherited. *)
Lemma rules_update_registered (h : Heap Code) (k : Rule Code Symbol)
      (f : Handler Code Symbol RetVal) (other : Rules Code Symbol RetVal) :
  (forall kv, In kv other -> rule_eq h (fst kv) k = true ->
              exists g, In g (snd kv) /\ handler_id g = handler_id f) ->
  forall d : Rules Code Symbol RetVal,
    registered h d k f \/ (exists kv, In kv other /\ rule_eq h (fst kv) k = true) ->
    registered h (rules_update h d other) k f.
Proof.
  unfold rules_update. induction other as [|[k1 v] other IH]; intros All d H; simpl.
  - destruct H as [H|(kv & [] & _)]. exact H.
  - apply IH; [intros kv I; apply All; now right|].
    destruct (rule_eq h k1 k) eqn:E1.
    + left. apply rules_set_same; [exact E1|].
      apply (All (k1, v)); [now left | exact E1].
    + destruct H as [H|(kv & [<-|I] & Ek)].
      * left. now apply rules_set_other.
      * simpl in Ek. rewrite Ek in E1. discriminate.
      * right. now exists kv.
Qed.

(** What the class attribute [handlers] is after a registration. *)
Lemma cls_handlers_handle (h : Heap Code) (rule : Rule Code Symbol)
      (f : Handler Code Symbol RetVal) (mro : Hierarchy Code Symbol RetVal) :
  exists d, cls_handlers (handle h rule f mro) = rules_add h d rule f
            /\ above (handle h rule f mro) = above mro.
Proof.
  unfold handle, cls_handlers. destruct (below mro) as [|own bases]; simpl.
  - now exists (base_handlers mro).
  - now exists (match own with Some d => d | None => [] end).
Qed.

Lemma existsb_false_map {E} (p : E -> bool) (g : E -> E) (l : list E) :
  (forall x, p x = false -> g x = x) -> existsb p l = false -> map g l = l.
Proof.
  intros Hg. induction l as [|x l IH]; simpl; [reflexivity|].
  intros Ex. apply orb_false_iff in Ex as [Px Pl].
  now rewrite (Hg x Px), (IH Pl).
Qed.

Lemma rules_add_again (h : Heap Code) (d : Rules Code Symbol RetVal)
      (k : Rule Code Symbol) (f : Handler Code Symbol RetVal) :
  rules_add h (rules_add h d k f) k f = rules_add h d k f.
Proof.
  set (upd := fun kv : Rule Code Symbol * list (Handler Code Symbol RetVal) =>
                if rule_eq h (fst kv) k
                then (fst kv, handlers_add (snd kv) f) else kv).
  assert (Key : forall kv, rule_eq h (fst (upd kv)) k = rule_eq h (fst kv) k).
  { intros kv. unfold upd. now destruct (rule_eq h (fst kv) k) eqn:E. }
  assert (Twice : forall kv, upd (upd kv) = upd kv).
  { intros kv. unfold upd at 2. destruct (rule_eq h (fst kv) k) eqn:E.
    - unfold upd. simpl. now rewrite E, handlers_add_again.
    - unfold upd. now rewrite E. }
  unfold rules_add at 2 3. fold upd.
  destruct (existsb (fun kv => rule_eq h (fst kv) k) d) eqn:E.
  - unfold rules_add. fold upd.
    assert (E' : existsb (fun kv => rule_eq h (fst kv) k) (map upd d) = true).
    { apply existsb_exists in E as (kv & I & Ek). apply existsb_exists.
      exists (upd kv). split; [now apply in_map | now rewrite Key]. }
    rewrite E', map_map. apply map_ext. exact Twice.
  - unfold rules_add. fold upd. rewrite existsb_app. simpl.
    rewrite E, rule_eq_refl. simpl. rewrite map_app. simpl. f_equal.
    + apply (existsb_false_map (fun kv => rule_eq h (fst kv) k)); [|exact E].
      intros kv Ek. unfold upd. now rewrite Ek.
    + unfold upd. simpl. rewrite rule_eq_refl. unfold handlers_add. simpl.
      now rewrite Nat.eqb_refl.
Qed.

(** After [cls.handle(rule)(f)], the function is among the handlers of
    every rule of [cls] that matches what [rule] matches. *)
Lemma handle_selected
      (h : Heap Code) (rule : Rule Code Symbol) (f : Handler Code Symbol RetVal)
      (mro : Hierarchy Code Symbol RetVal)
      (from_state : Value Code) (symbol : Symbol) (to_state : Value Code) :
  matches h rule from_state symbol to_state = true ->
  exists g,
    In g (selected h (get_handlers h (handle h rule f mro))
                   from_state symbol to_state)
    /\ handler_id g = handler_id f.
Proof.
  intros Ma. destruct (cls_handlers_handle h rule f mro) as (d & Ed & _).
  pose proof (rules_add_registered h d rule f) as [Ex All].
  assert (R : registered h (get_handlers h (handle h rule f mro)) rule f).
  { unfold get_handlers. rewrite Ed. apply rules_update_registered.
    - exact All.
    - now right. }
  destruct R as [(kv & I & Ek) Allr].
  destruct (Allr kv I Ek) as (g & Ig & Eg).
  exists g. split; [|exact Eg]. unfold selected. apply in_flat_map.
  exists kv. split; [exact I|].
  now rewrite (matches_rule_eq h _ _ from_state symbol to_state Ek), Ma.
Qed.

(** X11: a function registered with [cls.handle(from_state, symbol,
    to_state)] is called by [call_handlers] on an instance of [cls] for
    every transition that the rule matches, whatever else is registered
    on the class or inherited: when no handler that is called raises past
    [except Exception], [call_handlers] returns a list with an entry for
    the function, and has called it with the three arguments. *)
Theorem X11_a_registered_handler_is_called
        (rule : Rule Code Symbol) (f : Handler Code Symbol RetVal)
        (mro : Hierarchy Code Symbol RetVal)
        (from_state : Value Code) (symbol : Symbol) (to_state : Value Code)
        (w : World Code Symbol) :
  matches (heap w) rule from_state symbol to_state = true ->
  Forall (raises_only_Exception w from_state symbol to_state)
         (selected (heap w) (get_handlers (heap w) (handle (heap w) rule f mro))
                   from_state symbol to_state) ->
  exists results w' out,
    call_handlers (handle (heap w) rule f mro) from_state symbol to_state w
    = (inr results, w')
    /\ In (handler_id f, out) results
    /\ In (EvHandler (handler_id f) from_state symbol to_state) (trace w').
Proof.
  intros Ma Fa.
  destruct (handle_selected (heap w) rule f mro from_state symbol to_state Ma)
    as (g & Ig & Eg).
  destruct (@call_handlers_of_rules from_state symbol to_state w
              (get_handlers (heap w) (handle (heap w) rule f mro)) [] w Fa
              (conj eq_refl eq_refl))
    as (w' & E & _ & T).
  eexists. exists w', (snd (recorded w from_state symbol to_state g)).
  split; [unfold call_handlers, bind at 1, read at 1; exact E|]. split.
  - rewrite <- Eg. apply in_map_iff. now exists g.
  - rewrite T, <- Eg. apply in_or_app. right. apply in_flat_map.
    exists g. split; [exact Ig | now left].
Qed.

(** X12: registering the same function a second time under the same
    rule changes nothing: the handlers of a rule are a set. *)
Theorem X12_registering_twice_is_registering_once
        (h : Heap Code) (rule : Rule Code Symbol) (f : Handler Code Symbol RetVal)
        (mro : Hierarchy Code Symbol RetVal) :
  handle h rule f (handle h rule f mro) = handle h rule f mro.
Proof.
  unfold handle. destruct (below mro) as [|own bases]; simpl.
  - now rewrite rules_add_again.
  - now rewrite rules_add_again.
Qed.

(** X13: a rule matches a transition exactly when each of its three
    components is [ANY] or stands for the same code (or symbol) as the
    argument: a rule written with a bare code matches the [State] object
    of that code and the other way round, and [None] as a state matches
    [None] only. *)
Theorem X13_a_rule_matches_by_code
        (h : Heap Code) (f t : Matcher (Value Code)) (s : Matcher Symbol)
        (from_state : Value Code) (symbol : Symbol) (to_state : Value Code) :
  matches h (f, s, t) from_state symbol to_state = true
  <-> stands_for h f from_state /\ is_symbol s symbol /\ stands_for h t to_state.
Proof.
  unfold matches. rewrite !andb_true_iff.
  assert (Sf : forall m arg, condition_ok (py_eq h) m arg = true
                             <-> stands_for h m arg).
  { intros [|v] arg; simpl; [tauto | apply py_eq_iff]. }
  assert (Ss : condition_ok (@symbol_eqb Symbol _) s symbol = true <-> is_symbol s symbol).
  { destruct s as [|x]; simpl; [tauto | apply symbol_eqb_true]. }
  rewrite !Sf, Ss. tauto.
Qed.


(** ** States and codes as keys *)

Lemma py_eq_right (h : Heap Code) (x u v : Value Code) :
  py_eq h u v = true -> py_eq h x u = py_eq h x v.
Proof.
  intros E. rewrite (py_eq_sym h x u), (py_eq_sym h x v).
  exact (@eqb_cong _ (py_eq h) (@py_eq_sym h) (@py_eq_trans h) u v x E).
Qed.

Lemma find_same {E} (p q : E -> bool) (l : list E) :
  (forall x, p x = q x) -> find p l = find q l.
Proof.
  intros Pq. induction l as [|x l IH]; simpl; [reflexivity|].
  now rewrite Pq, IH.
Qed.

Section Keys.

Variable hash_code : Code -> Z.

(** X14: [==] between states, codes and [None] is an equivalence, values
    that are equal have the same hash, and [!=] on a [State] is its
    negation; so a dict keyed by [State] instances or by bare codes gives
    the same entry for a [State] and for its code, in [transitions] and
    in the state table alike. *)
Theorem X14_equal_values_are_one_key (h : Heap Code) :
  (forall v, py_eq h v v = true)
  /\ (forall u v, py_eq h u v = py_eq h v u)
  /\ (forall u v w, py_eq h u v = true -> py_eq h v w = true ->
                    py_eq h u w = true)
  /\ (forall u v, py_eq h u v = true ->
                  py_hash hash_code h u = py_hash hash_code h v)
  /\ (forall a v, State__ne__ h a v = negb (py_eq h (VState a) v))
  /\ (forall (d : list (Ref Code * list (Symbol * Ref Code))) u v,
         py_eq h u v = true -> spec_get h d u = spec_get h d v)
  /\ (forall (t : list (Code * addr Code)) u v,
         py_eq h u v = true -> table_get h t u = table_get h t v).
Proof.
  split; [exact (py_eq_refl h)|]. split; [exact (py_eq_sym h)|].
  split; [exact (@py_eq_trans h)|]. split.
  { intros u v E. apply py_eq_iff in E.
    destruct u, v; simpl in *; congruence. }
  split; [reflexivity|]. split.
  - intros d u v E. unfold spec_get.
    rewrite (find_same (fun kv => py_eq h (value_of_ref (fst kv)) u)
                       (fun kv => py_eq h (value_of_ref (fst kv)) v));
      [reflexivity|].
    intros kv. now apply py_eq_right.
  - intros t u v E. unfold table_get.
    rewrite (find_same (fun kv => py_eq h (VCode (fst kv)) u)
                       (fun kv => py_eq h (VCode (fst kv)) v));
      [reflexivity|].
    intros kv. now apply py_eq_right.
Qed.

End Keys.

(** ** The system check of a model *)

Section Checking.

Variable transitions : list (Ref Code * list (Symbol * Ref Code)).

(** A construction on a class whose table is not built returns when the
    specification is free of conflicts and has one initial state, and
    raises [ImproperlyConfigured] when not. *)
Lemma states_fresh (w : World Code Symbol) :
  not_states w = true ->
  let refs := right_side transitions ++ left_side transitions in
  (exists t w2, states transitions w = (inr t, w2)
                /\ ~ conflict_among (heap w) refs
                /\ exactly_one (initial_set (heap w) transitions))
  \/ (exists w2, states transitions w = (inl ImproperlyConfigured, w2)
                 /\ (conflict_among (heap w) refs
                     \/ ~ exactly_one (initial_set (heap w) transitions))).
Proof.
  intros N. cbv zeta. unfold states. rewrite N. unfold build_states.
  destruct (gather_states transitions w) as [res w1] eqn:Gs.
  destruct (gather_states_result _ _ Gs) as [[-> G]|[-> C]].
  - destruct (@mark_states_result transitions (heap w) w1 G) as (w2 & Ms & _).
    unfold bind. rewrite Gs, Ms.
    pose proof (@one_resolved_initial transitions (heap w) w1 G) as One.
    destruct (List.length (resolved_initials transitions w1) =? 1) eqn:L.
    + apply Nat.eqb_eq in L. left. eexists. eexists.
      split; [reflexivity|]. split; [exact (gathered_no_conflict G)|].
      now apply One.
    + apply Nat.eqb_neq in L. right. eexists. split; [reflexivity|].
      right. intros E. apply L. now apply One.
  - right. unfold bind. rewrite Gs. eexists. split; [reflexivity | now left].
Qed.

(** X6: on a class whose table is not built yet, [get_terminals] returns
    exactly when the specification is free of conflicts and has one
    initial state, whatever the terminal states are.  It then returns the
    [State] objects of the table whose codes make the terminal set of the
    specification: the codes some declaration marks [is_terminal], or,
    when no declaration does, the destinations that are never a key.  No
    terminal state at all is no error: [get_terminals] then returns the
    empty list. *)
Theorem X6_get_terminals_returns_the_terminal_set (w : World Code Symbol) :
  not_states w = true ->
  let refs := right_side transitions ++ left_side transitions in
  ((exists vs w2, get_terminals transitions w = (inr vs, w2))
   <-> ~ conflict_among (heap w) refs
       /\ exactly_one (initial_set (heap w) transitions))
  /\ (forall vs w2,
         get_terminals transitions w = (inr vs, w2) ->
         (forall v, In v vs -> exists k a, v = VState a /\ In (k, a) (the_table w2))
         /\ forall c, (exists a, In (VState a) vs /\ code (heap w2 a) = c)
                      <-> terminal_set (heap w) transitions c)
  /\ (~ conflict_among (heap w) refs ->
      exactly_one (initial_set (heap w) transitions) ->
      (forall c, ~ terminal_set (heap w) transitions c) ->
      exists w2, get_terminals transitions w = (inr [], w2)).
Proof.
  intros N. cbv zeta.
  assert (Returns : ~ conflict_among (heap w)
                      (right_side transitions ++ left_side transitions) ->
                    exactly_one (initial_set (heap w) transitions) ->
                    exists vs w2, get_terminals transitions w = (inr vs, w2)).
  { intros Nc One.
    destruct (states_fresh w N) as [(t & w2 & St & _)|(w2 & _ & [C|No])];
      [|contradiction|contradiction].
    unfold get_terminals, bind. rewrite St. unfold read. now eexists; eexists. }
  split; [|split].
  - split; [|intros [Nc One]; now apply Returns].
    intros (vs & w2 & H). unfold get_terminals in H.
    apply bind_inv in H as [(t & wb & St & _)|(e & _ & Ex)]; [|discriminate].
    destruct (states_fresh w N) as [(_ & _ & _ & Nc & One)|(w3 & St' & _)].
    + now split.
    + rewrite St in St'. discriminate.
  - intros vs w2 H. exact (@built_terminals transitions w w2 vs N H).
  - intros Nc One Empty. destruct (Returns Nc One) as (vs & w2 & H).
    destruct (@built_terminals transitions w w2 vs N H) as [Objects Codes].
    destruct vs as [|v vs]; [now exists w2|]. exfalso.
    destruct (Objects v (or_introl eq_refl)) as (k & a & -> & _).
    apply (Empty (code (heap w2 a))). apply Codes. exists a.
    split; [now left | reflexivity].
Qed.

(** X15: [check] on a model class whose table is not built yet never
    adds an error to the list it got from [super().check()].  When the
    specification is free of conflicts and has exactly one initial state
    it returns that list as it is; when not, the [ImproperlyConfigured]
    that [states] raises is caught, and reading [e.message] to build the
    [checks.Error] raises [AttributeError], which leaves [check]. *)
Theorem X15_check_adds_no_error
        (Message : Type) (Error : string -> Message) (errors : list Message)
        (w : World Code Symbol) :
  not_states w = true ->
  let refs := right_side transitions ++ left_side transitions in
  let result := fst (check transitions Error errors w) in
  (result = inr errors
   <-> ~ conflict_among (heap w) refs
       /\ exactly_one (initial_set (heap w) transitions))
  /\ (result = inl AttributeError
      <-> conflict_among (heap w) refs
          \/ ~ exactly_one (initial_set (heap w) transitions)).
Proof.
  intros N. cbv zeta. unfold check.
  destruct (states_fresh w N) as [(t & w2 & -> & Nc & One)|(w2 & -> & Bad)];
    simpl.
  - split; split; try discriminate; try tauto.
  - split; split; try discriminate; try tauto.
Qed.

End Checking.


(** ** The deduced states *)

Section Deducing.

Variable transitions : list (Ref Code * list (Symbol * Ref Code)).

Lemma set_difference_spec (h : Heap Code) (a b : list (Value Code)) (v : Value Code) :
  In v (set_difference h (py_set h a) (py_set h b)) ->
  In v a /\ forall y, In y b -> py_eq h y v = false.
Proof.
  intros I.
  destruct (set_difference_codes h (py_set h a) (py_set h b)) as (_ & C & F).
  split; [apply (py_set_codes h a), F, I|].
  intros y Iy. destruct (py_eq h y v) eqn:E; [|reflexivity]. exfalso.
  assert (Iv : In (value_code h v)
                  (map (value_code h) (set_difference h (py_set h a) (py_set h b))))
    by now apply in_map.
  apply C in Iv as [_ N]. apply N. apply (py_set_codes h b).
  apply py_eq_iff in E. rewrite <- E. now apply in_map.
Qed.

Lemma set_difference_has (h : Heap Code) (a b : list (Value Code)) (x : Value Code) :
  In x a -> (forall y, In y b -> py_eq h y x = false) ->
  exists v, In v (set_difference h (py_set h a) (py_set h b))
            /\ py_eq h v x = true.
Proof.
  intros Ix No.
  destruct (set_difference_codes h (py_set h a) (py_set h b)) as (_ & C & _).
  assert (Iv : In (value_code h x)
                  (map (value_code h) (set_difference h (py_set h a) (py_set h b)))).
  { apply C. split.
    - apply (py_set_codes h a). now apply in_map.
    - intros Ib. apply (py_set_codes h b) in Ib.
      apply in_map_iff in Ib as (y & Ey & Iy).
      pose proof (No y Iy) as F. apply not_true_iff_false in F. apply F.
      now apply py_eq_iff. }
  apply in_map_iff in Iv as (v & Ev & Iv). exists v. split; [exact Iv|].
  now apply py_eq_iff.
Qed.

(** X16: [deduce_initial_states] returns keys of [transitions] that
    equal no destination, and one for every such key;
    [deduce_terminal_states] returns destinations that equal no key, and
    one for every such destination; no state is in both. *)
Theorem X16_the_deduced_states (h : Heap Code) :
  (forall v, In v (deduce_initial_states transitions h) ->
             In v (map (@value_of_ref _) (left_side transitions))
             /\ forall r, In r (right_side transitions) ->
                          py_eq h (value_of_ref r) v = false)
  /\ (forall r, In r (left_side transitions) ->
                (forall r', In r' (right_side transitions) ->
                            py_eq h (value_of_ref r') (value_of_ref r) = false) ->
                exists v, In v (deduce_initial_states transitions h)
                          /\ py_eq h v (value_of_ref r) = true)
  /\ (forall v, In v (deduce_terminal_states transitions h) ->
                In v (map (@value_of_ref _) (right_side transitions))
                /\ forall r, In r (left_side transitions) ->
                             py_eq h (value_of_ref r) v = false)
  /\ (forall r, In r (right_side transitions) ->
                (forall r', In r' (left_side transitions) ->
                            py_eq h (value_of_ref r') (value_of_ref r) = false) ->
                exists v, In v (deduce_terminal_states transitions h)
                          /\ py_eq h v (value_of_ref r) = true)
  /\ (forall u v, In u (deduce_initial_states transitions h) ->
                  In v (deduce_terminal_states transitions h) ->
                  py_eq h u v = false).
Proof.
  unfold deduce_initial_states, deduce_terminal_states.
  split; [|split; [|split; [|split]]].
  - intros v I. apply set_difference_spec in I as [I No]. split; [exact I|].
    intros r Ir. apply No. now apply in_map.
  - intros r Ir No. apply set_difference_has; [now apply in_map|].
    intros y Iy. apply in_map_iff in Iy as (r' & <- & Ir'). now apply No.
  - intros v I. apply set_difference_spec in I as [I No]. split; [exact I|].
    intros r Ir. apply No. now apply in_map.
  - intros r Ir No. apply set_difference_has; [now apply in_map|].
    intros y Iy. apply in_map_iff in Iy as (r' & <- & Ir'). now apply No.
  - intros u v Iu Iv.
    apply set_difference_spec in Iu as [_ No].
    apply set_difference_spec in Iv as [Iv _].
    rewrite py_eq_sym. now apply No.
Qed.

(** X17: a class that declares no transitions has no state table.
    Every access to [states] raises [ImproperlyConfigured] and leaves the
    empty dict in [_states], which the next access does not take for
    built; so do [get_initial_state] and the [__init__] of an instance
    without a code. *)
Theorem X17_no_transitions_no_table (w : World Code Symbol) :
  not_states w = true ->
  let w' := set_states (Some []) w in
  states (@nil (Ref Code * list (Symbol * Ref Code))) w
  = (inl ImproperlyConfigured, w')
  /\ not_states w' = true
  /\ get_initial_state (@nil (Ref Code * list (Symbol * Ref Code))) w
     = (inl ImproperlyConfigured, w')
  /\ (current_state_code w = None ->
      __init__ (@nil (Ref Code * list (Symbol * Ref Code))) w
      = (inl ImproperlyConfigured, w')).
Proof.
  intros N. cbv zeta.
  assert (S : states (@nil (Ref Code * list (Symbol * Ref Code))) w
              = (inl ImproperlyConfigured, set_states (Some []) w)).
  { unfold states. rewrite N. reflexivity. }
  split; [exact S|]. split; [reflexivity|]. split.
  - unfold get_initial_state, bind. now rewrite S.
  - intros C. unfold __init__, bind, read. rewrite C.
    unfold get_initial_state, bind. now rewrite S.
Qed.

End Deducing.


(** ** The course of a transition *)

Section Course.

Variable transitions : list (Ref Code * list (Symbol * Ref Code)).
Variable allow_transition : Seen Code -> Symbol -> Seen Code -> bool.
Variables save_override super_save : option (option Code -> option UserExc).
Variable mro : Hierarchy Code Symbol RetVal.

Lemma raise_IllegalTransition_cached {A} (symbol : Symbol) (w : World Code Symbol)
      (a : addr Code) :
  table_get (heap w) (the_table w) (value_of_code (current_state_code w)) = Some a ->
  raise_IllegalTransition (A := A) transitions symbol w
  = (inl (IllegalTransition (VState a) symbol), w).
Proof.
  intros G. unfold raise_IllegalTransition, bind.
  now rewrite (current_state_again transitions w G).
Qed.

Lemma raise_IllegalTransition_cases {A} (symbol : Symbol) (w w' : World Code Symbol) r :
  raise_IllegalTransition (A := A) transitions symbol w = (r, w') ->
  untouched w w'
  /\ ((exists cs, r = inl (IllegalTransition cs symbol))
      \/ (exists e, r = inl e /\ table_exc e)).
Proof.
  unfold raise_IllegalTransition. intros H.
  pose proof (quiet_current_state transitions) as Q.
  apply bind_inv in H as [(cs & w1 & C & H)|(e & C & ->)].
  - injection H as <- <-. split; [apply (Q _ _ _ C)|]. left. now exists cs.
  - destruct (Q _ _ _ C) as [U T]. split; [exact U|]. right. exists e.
    split; [reflexivity | now apply T].
Qed.

Lemma self_save_run (w : World Code Symbol) :
  self_save save_override super_save w
  = match commit_hook save_override super_save (current_state_code w) with
    | Some e => (inl (Foreign e), emit EvSave w)
    | None => (inr tt, emit EvSave w)
    end.
Proof.
  unfold self_save, save, commit_hook, bind, modify, run_hook, ret.
  destruct save_override as [f|]; simpl.
  - now destruct (f (current_state_code w)).
  - destruct super_save as [g|]; [|reflexivity].
    change (current_state_code (emit EvSave w)) with (current_state_code w).
    now destruct (g (current_state_code w)).
Qed.

(** Every run of [transition] takes one of five courses: no move for the
    symbol (or no table), a veto of the guard, a destination the table
    does not know, a failing commit hook, or dispatch. *)
Lemma transition_cases (symbol : Symbol) (w w' : World Code Symbol) r :
  transition transitions allow_transition save_override super_save mro symbol w
  = (r, w') ->
  (untouched w w'
   /\ ((exists cs, r = inl (IllegalTransition cs symbol))
       \/ (exists e, r = inl e /\ table_exc e)))
  \/ exists (a : addr Code) row (next : Ref Code) (w1 : World Code Symbol),
      get_next transitions symbol w = (inr next, w1)
      /\ untouched w w1
      /\ table_get (heap w1) (the_table w1)
                   (value_of_code (current_state_code w1)) = Some a
      /\ spec_get (heap w1) transitions (VState a) = Some row
      /\ symbol_get row symbol = Some next
      /\ let guarded := emit (EvGuard (VState a) symbol (value_of_ref next)) w1 in
         let allowed := allow_transition (see (heap w1) (VState a)) symbol
                                         (see (heap w1) (value_of_ref next)) in
         (allowed = false
          /\ r = inl (IllegalTransition (VState a) symbol) /\ w' = guarded)
         \/ (allowed = true
             /\ ((table_get (heap w1) (the_table w1) (value_of_ref next) = None
                  /\ r = inl KeyError /\ w' = guarded)
                 \/ exists b,
                     table_get (heap w1) (the_table w1) (value_of_ref next) = Some b
                     /\ let c := code (heap w1 b) in
                        let saved :=
                          emit EvSave
                            (emit (EvAssign c)
                               (set_current_state_code (Some c) guarded)) in
                        match commit_hook save_override super_save (Some c) with
                        | Some e => r = inl (Foreign e) /\ w' = saved
                        | None =>
                            call_handlers mro (VState a) symbol
                                          (value_of_ref next) saved = (r, w')
                        end)).
Proof.
  unfold transition. intros H.
  apply bind_inv in H as [(next & w1 & N & H)|(e & N & ->)].
  - (* get_next returned *)
    unfold try_except_KeyError in N.
    destruct (get_next transitions symbol w) as [[e|n] w2] eqn:GN.
    { destruct e; try discriminate.
      apply raise_IllegalTransition_cases in N as [_ [(? & ?)|(? & ? & _)]];
        discriminate. }
    injection N as <- <-.
    pose proof (quiet_get_next transitions symbol) as Q.
    destruct (Q _ _ _ GN) as [U _].
    destruct (get_next_cases _ _ _ GN) as (a & row & G & Sp & Sy).
    right. exists a, row, n, w2. split; [reflexivity|].
    repeat (split; [assumption|]).
    unfold bind in H. rewrite (current_state_again transitions w2 G) in H.
    unfold call_guard, bind, modify, read in H. simpl in H.
    set (guarded := emit (EvGuard (VState a) symbol (value_of_ref n)) w2) in *.
    assert (Gg : table_get (heap guarded) (the_table guarded)
                   (value_of_code (current_state_code guarded)) = Some a)
      by exact G.
    destruct (allow_transition _ _ _) eqn:Al; simpl in H.
    + right. split; [reflexivity|].
      rewrite (current_state_again transitions guarded Gg) in H.
      rewrite (set_current_state_cached transitions (value_of_ref n) guarded
                 (@table_get_nonempty _ _ _ _ Gg)) in H.
      change (heap guarded) with (heap w2) in H.
      change (the_table guarded) with (the_table w2) in H.
      destruct (table_get (heap w2) (the_table w2) (value_of_ref n)) as [b|] eqn:Gn.
      * right. exists b. split; [reflexivity|]. rewrite self_save_run in H.
        simpl in H. cbv zeta.
        destruct (commit_hook save_override super_save (Some (code (heap w2 b)))).
        -- now injection H as <- <-.
        -- exact H.
      * left. now injection H as <- <-.
    + left. split; [reflexivity|].
      rewrite (raise_IllegalTransition_cached symbol guarded Gg) in H.
      now injection H as <- <-.
  - (* get_next raised *)
    left. unfold try_except_KeyError in N.
    destruct (get_next transitions symbol w) as [[e'|n] w2] eqn:GN; [|discriminate].
    pose proof (quiet_get_next transitions symbol) as Q.
    destruct (Q _ _ _ GN) as [U T]. specialize (T _ eq_refl).
    destruct e'; try destruct T;
      try (injection N as <- <-; split; [exact U|]; right;
           eexists; split; [reflexivity | exact I]).
    apply raise_IllegalTransition_cases in N as [U' C].
    split; [eapply untouched_trans; eauto|].
    destruct C as [(cs & E)|(e0 & E & T')]; injection E as ->.
    + left. now exists cs.
    + right. now exists e0.
Qed.

End Course.


(** ** The claims about [transition] *)

Section Transition.

Variable transitions : list (Ref Code * list (Symbol * Ref Code)).
Variable allow_transition : Seen Code -> Symbol -> Seen Code -> bool.
Variables save_override super_save : option (option Code -> option UserExc).
Variable mro : Hierarchy Code Symbol RetVal.

(** C9: when the table can be had and [current_state_code] is no key of
    it, the getter [current_state] returns [None]: the [KeyError] of the
    lookup does not leave it. *)
Theorem C9_current_state_of_unknown_code (w w1 : World Code Symbol)
        (t : list (Code * addr Code)) :
  states transitions w = (inr t, w1) ->
  table_get (heap w1) t (value_of_code (current_state_code w)) = None ->
  current_state transitions w = (inr VNone, w1).
Proof.
  intros S G. unfold current_state, try_except_KeyError, bind. rewrite S.
  pose proof (quiet_states transitions) as Q.
  destruct (Q _ _ _ S) as [[C _] _]. rewrite C, G. reflexivity.
Qed.

(** C3: when [transition] raises [IllegalTransition], the instance holds
    the code it held before, and nothing was called but, at most, the
    guard: no assignment, no commit hook, no handler. *)
Theorem C3_illegal_transition_changes_nothing
        (symbol s : Symbol) (cs : Value Code) (w w' : World Code Symbol) :
  transition transitions allow_transition save_override super_save mro symbol w
  = (inl (IllegalTransition cs s), w') ->
  current_state_code w' = current_state_code w
  /\ (trace w' = trace w
      \/ exists from_state next_state,
          trace w' = trace w ++ [EvGuard from_state symbol next_state]).
Proof.
  intros H. apply transition_cases in H
    as [[[C T] _]|(a & row & next & w1 & _ & [C T] & _ & _ & _ & H)].
  - split; [exact C | now left].
  - cbv zeta in H. destruct H as [(_ & _ & ->)|(_ & [(_ & E & _)|(b & _ & H)])].
    + split; [exact C|]. right. exists (VState a), (value_of_ref next).
      simpl. now rewrite T.
    + discriminate.
    + destruct (commit_hook _ _ _).
      * destruct H. discriminate.
      * pose proof (only_dispatches_call_handlers mro (VState a) symbol
                      (value_of_ref next)) as D.
        destruct (D _ _ _ H) as (_ & _ & _ & _ & E).
        destruct (E _ eq_refl) as (u & E' & _). discriminate.
Qed.

Lemma dispatch_events_hold_no_save (post : list (Event Code Symbol)) :
  Forall (@is_dispatch_event _ _) post -> ~ In EvSave post.
Proof.
  intros F I. rewrite Forall_forall in F. exact (F _ I).
Qed.

Lemma split_at_save (before after pre post : list (Event Code Symbol)) :
  ~ In EvSave before -> ~ In EvSave after ->
  before ++ EvSave :: after = pre ++ EvSave :: post ->
  pre = before /\ post = after.
Proof.
  revert pre. induction before as [|x before IH]; intros pre Nb Na E.
  - destruct pre as [|y pre]; simpl in E.
    + injection E as <-. now split.
    + injection E as <- E. exfalso. apply Na. rewrite E.
      apply in_or_app. right. now left.
  - destruct pre as [|y pre]; simpl in E.
    + injection E as -> _. exfalso. apply Nb. now left.
    + injection E as <- E.
      destruct (IH pre) as [-> ->]; try assumption; [|now split].
      intros I. apply Nb. now right.
Qed.

(** A move that the specification gives and the guard allows, to a
    destination the table holds: the run up to the commit hook. *)
Lemma transition_allowed
      (symbol : Symbol) (w : World Code Symbol) (a b : addr Code)
      (row : list (Symbol * Ref Code)) (next : Ref Code) :
  table_get (heap w) (the_table w) (value_of_code (current_state_code w)) = Some a ->
  spec_get (heap w) transitions (VState a) = Some row ->
  symbol_get row symbol = Some next ->
  allow_transition (see (heap w) (VState a)) symbol
                   (see (heap w) (value_of_ref next)) = true ->
  table_get (heap w) (the_table w) (value_of_ref next) = Some b ->
  transition transitions allow_transition save_override super_save mro symbol w
  = let c := code (heap w b) in
    let saved :=
      emit EvSave
        (emit (EvAssign c)
           (set_current_state_code (Some c)
              (emit (EvGuard (VState a) symbol (value_of_ref next)) w))) in
    match commit_hook save_override super_save (Some c) with
    | Some e => (inl (Foreign e), saved)
    | None => call_handlers mro (VState a) symbol (value_of_ref next) saved
    end.
Proof.
  intros G Sp Sy Al Gn. cbv zeta.
  unfold transition. unfold bind at 1. unfold try_except_KeyError.
  unfold get_next. unfold bind at 1.
  rewrite (current_state_again transitions w G), Sp, Sy.
  unfold bind at 1. rewrite (current_state_again transitions w G).
  unfold bind at 1. unfold call_guard, bind at 1, modify, read.
  set (guarded := emit (EvGuard (VState a) symbol (value_of_ref next)) w).
  change (heap guarded) with (heap w). rewrite Al. cbn [negb]. cbv beta iota.
  assert (Gg : table_get (heap guarded) (the_table guarded)
                 (value_of_code (current_state_code guarded)) = Some a)
    by exact G.
  unfold bind at 1. rewrite (current_state_again transitions guarded Gg).
  unfold bind at 1.
  rewrite (set_current_state_cached transitions (value_of_ref next) guarded
             (@table_get_nonempty _ _ _ _ Gg)).
  change (heap guarded) with (heap w). change (the_table guarded) with (the_table w).
  rewrite Gn. unfold bind at 1. rewrite self_save_run.
  change (current_state_code
            (emit (EvAssign (code (heap w b)))
                  (set_current_state_code (Some (code (heap w b))) guarded)))
    with (Some (code (heap w b))).
  now destruct (commit_hook save_override super_save (Some (code (heap w b)))).
Qed.

(** What a run of [transition] adds to the trace: nothing, or the guard
    call alone, or the guard call, the assignment and the commit, followed
    by dispatch events when the commit hook has returned. *)
Lemma transition_trace_cases (symbol : Symbol) (w w' : World Code Symbol) r :
  transition transitions allow_transition save_override super_save mro symbol w
  = (r, w') ->
  (trace w' = trace w /\ current_state_code w' = current_state_code w
   /\ exists e, r = inl e)
  \/ (exists from_state next_state,
         trace w' = trace w ++ [EvGuard from_state symbol next_state]
         /\ current_state_code w' = current_state_code w
         /\ exists e, r = inl e)
  \/ (exists from_state next_state c post,
         trace w' = trace w
                    ++ [EvGuard from_state symbol next_state; EvAssign c; EvSave]
                    ++ post
         /\ current_state_code w' = Some c
         /\ match commit_hook save_override super_save (Some c) with
            | Some e => r = inl (Foreign e) /\ post = []
            | None => Forall (@is_dispatch_event _ _) post
            end).
Proof.
  intros H. apply transition_cases in H
    as [[[C T] R]|(a & row & next & w1 & _ & [C T] & _ & _ & _ & H)].
  - left. split; [exact T|]. split; [exact C|].
    destruct R as [(cs & ->)|(e & -> & _)]; now eexists.
  - cbv zeta in H.
    destruct H as [(_ & -> & ->)|(_ & [(_ & -> & ->)|(b & G & H)])].
    + right. left. exists (VState a), (value_of_ref next). simpl. rewrite T, C.
      split; [reflexivity|]. split; [reflexivity | now eexists].
    + right. left. exists (VState a), (value_of_ref next). simpl. rewrite T, C.
      split; [reflexivity|]. split; [reflexivity | now eexists].
    + right. right. set (c := code (heap w1 b)) in *.
      destruct (commit_hook save_override super_save (Some c)) as [e|] eqn:Hook.
      * destruct H as [-> ->]. exists (VState a), (value_of_ref next), c, [].
        rewrite Hook. simpl. rewrite T, <- !app_assoc.
        split; [reflexivity|]. now repeat split.
      * pose proof (only_dispatches_call_handlers mro (VState a) symbol
                      (value_of_ref next)) as D.
        destruct (D _ _ _ H) as (_ & _ & Cc & (post & Tp & F) & _).
        exists (VState a), (value_of_ref next), c, post. rewrite Hook, Tp.
        simpl. rewrite T, <- !app_assoc.
        split; [reflexivity|]. split; [exact Cc | exact F].
Qed.

(** The commit in the trace of a run: what comes before it and what
    comes after it. *)
Lemma commit_order
        (symbol : Symbol) (w w' : World Code Symbol) r :
  transition transitions allow_transition save_override super_save mro symbol w
  = (r, w') ->
  exists new,
    trace w' = trace w ++ new
    /\ (forall results, r = inr results ->
          exists from_state next_state c post,
            new = [EvGuard from_state symbol next_state; EvAssign c; EvSave] ++ post
            /\ Forall (@is_dispatch_event _ _) post
            /\ code_in_table w' next_state c
            /\ current_state_code w' = Some c
            /\ commit_hook save_override super_save (Some c) = None)
    /\ (forall pre post, new = pre ++ EvSave :: post ->
          exists from_state next_state c,
            pre = [EvGuard from_state symbol next_state; EvAssign c]
            /\ code_in_table w' next_state c
            /\ current_state_code w' = Some c
            /\ match commit_hook save_override super_save (Some c) with
               | Some e => r = inl (Foreign e) /\ post = []
               | None => Forall (@is_dispatch_event _ _) post
               end).
Proof.
  intros H. apply transition_cases in H
    as [[[C T] R]|(a & row & next & w1 & _ & [C T] & _ & _ & _ & H)].
  - exists []. rewrite app_nil_r. split; [exact T|]. split.
    + intros results ->. destruct R as [(? & ?)|(? & ? & _)]; discriminate.
    + intros [|? ?] ? ?; discriminate.
  - cbv zeta in H.
    destruct H as [(_ & -> & ->)|(_ & [(_ & -> & ->)|(b & G & H)])].
    + exists [EvGuard (VState a) symbol (value_of_ref next)]. simpl. rewrite T.
      split; [reflexivity|]. split; [discriminate|].
      intros [|? [|? ?]] ? ?; discriminate.
    + exists [EvGuard (VState a) symbol (value_of_ref next)]. simpl. rewrite T.
      split; [reflexivity|]. split; [discriminate|].
      intros [|? [|? ?]] ? ?; discriminate.
    + set (c := code (heap w1 b)) in *.
      set (before := [EvGuard (VState a) symbol (value_of_ref next); EvAssign c]).
      assert (Nb : ~ In EvSave before).
      { intros [I|[I|[]]]; discriminate. }
      assert (K : heap w' = heap w1 -> _states w' = _states w1 ->
                  code_in_table w' (value_of_ref next) c).
      { intros Hh Hs. exists b. unfold the_table. rewrite Hh, Hs.
        split; [exact G | reflexivity]. }
      destruct (commit_hook save_override super_save (Some c)) as [e|] eqn:Hook.
      * destruct H as [-> ->]. exists (before ++ [EvSave]). simpl. rewrite T.
        rewrite <- !app_assoc. split; [reflexivity|]. split; [discriminate|].
        intros pre post E.
        destruct (split_at_save before [] pre post Nb (fun I => I) E) as [-> ->].
        exists (VState a), (value_of_ref next), c. rewrite Hook.
        split; [reflexivity|]. split; [now apply K|]. now repeat split.
      * pose proof (only_dispatches_call_handlers mro (VState a) symbol
                      (value_of_ref next)) as D.
        destruct (D _ _ _ H) as (Hh & Hs & Cc & (post & Tp & F) & _).
        specialize (K Hh Hs).
        exists (before ++ EvSave :: post). rewrite Tp. simpl. rewrite T.
        rewrite <- !app_assoc. split; [reflexivity|]. split.
        -- intros results _. exists (VState a), (value_of_ref next), c, post.
           now repeat split.
        -- intros pre post' E.
           destruct (split_at_save before post pre post' Nb
                       (dispatch_events_hold_no_save F) E) as [-> ->].
           exists (VState a), (value_of_ref next), c. rewrite Hook.
           now repeat split.
Qed.

(** C7: [transition] assigns the destination's code, as the table has it,
    before it invokes the commit hook; when the hook fails, its exception
    leaves [transition], the new code stays, and no handler has run;
    handlers run only after the hook has returned.  A handler event in the
    trace of a run, whatever the run ends in, comes after the guard call,
    the assignment and a commit whose hook raised nothing; a run without a
    commit has called no handler, assigned nothing and raised; and a move
    that the specification gives, the guard allows and the table holds
    does assign and then commit. *)
Theorem C7_commit_after_assignment_before_dispatch
        (symbol : Symbol) (w w' : World Code Symbol) r :
  transition transitions allow_transition save_override super_save mro symbol w
  = (r, w') ->
  exists new,
    trace w' = trace w ++ new
    /\ (forall results, r = inr results ->
          exists from_state next_state c post,
            new = [EvGuard from_state symbol next_state; EvAssign c; EvSave] ++ post
            /\ Forall (@is_dispatch_event _ _) post
            /\ code_in_table w' next_state c
            /\ current_state_code w' = Some c
            /\ commit_hook save_override super_save (Some c) = None)
    /\ (forall pre post, new = pre ++ EvSave :: post ->
          exists from_state next_state c,
            pre = [EvGuard from_state symbol next_state; EvAssign c]
            /\ code_in_table w' next_state c
            /\ current_state_code w' = Some c
            /\ match commit_hook save_override super_save (Some c) with
               | Some e => r = inl (Foreign e) /\ post = []
               | None => Forall (@is_dispatch_event _ _) post
               end)
    /\ (forall pre ev post, new = pre ++ ev :: post -> is_dispatch_event ev ->
          exists from_state next_state c rest,
            pre = [EvGuard from_state symbol next_state; EvAssign c; EvSave] ++ rest
            /\ Forall (@is_dispatch_event _ _) rest
            /\ current_state_code w' = Some c
            /\ commit_hook save_override super_save (Some c) = None)
    /\ (~ In EvSave new ->
        (new = [] \/ exists from_state next_state,
                       new = [EvGuard from_state symbol next_state])
        /\ current_state_code w' = current_state_code w
        /\ exists e, r = inl e)
    /\ (forall (a b : addr Code) (row : list (Symbol * Ref Code)) (next : Ref Code),
          table_get (heap w) (the_table w) (value_of_code (current_state_code w))
          = Some a ->
          spec_get (heap w) transitions (VState a) = Some row ->
          symbol_get row symbol = Some next ->
          allow_transition (see (heap w) (VState a)) symbol
                           (see (heap w) (value_of_ref next)) = true ->
          table_get (heap w) (the_table w) (value_of_ref next) = Some b ->
          exists post,
            new = [EvGuard (VState a) symbol (value_of_ref next);
                   EvAssign (code (heap w b)); EvSave] ++ post
            /\ current_state_code w' = Some (code (heap w b))
            /\ match commit_hook save_override super_save
                                (Some (code (heap w b))) with
               | Some e => r = inl (Foreign e) /\ post = []
               | None => Forall (@is_dispatch_event _ _) post
               end).
Proof.
  intros H. destruct (@commit_order symbol w w' r H) as (new & T & A & B).
  exists new. split; [exact T|]. split; [exact A|]. split; [exact B|].
  pose proof (@transition_trace_cases symbol w w' r H) as Cases.
  assert (New : forall l, trace w' = trace w ++ l -> new = l).
  { intros l E. rewrite T in E. exact (app_inv_head _ _ _ E). }
  split; [|split].
  - intros pre ev post E Dv.
    destruct Cases as [(Tr & _)|[(f & n & Tr & _)|(f & n & c & post0 & Tr & Cc & Hk)]].
    + rewrite <- (app_nil_r (trace w)) in Tr. apply New in Tr.
      rewrite Tr in E. exfalso. exact (app_cons_not_nil _ _ _ E).
    + apply New in Tr. rewrite Tr in E. exfalso.
      destruct pre as [|p [|q pre]]; simpl in E.
      * injection E as <- _. exact Dv.
      * discriminate.
      * discriminate.
    + apply New in Tr. rewrite Tr in E.
      destruct pre as [|p1 [|p2 [|p3 rest]]]; simpl in E.
      * injection E as <- _. destruct Dv.
      * injection E as _ <- _. destruct Dv.
      * injection E as _ _ <- _. destruct Dv.
      * injection E as <- <- <- E. exists f, n, c, rest.
        destruct (commit_hook save_override super_save (Some c)) as [e|].
        -- destruct Hk as [_ ->]. exfalso. exact (app_cons_not_nil _ _ _ E).
        -- rewrite E in Hk. apply Forall_app in Hk as [Hr _].
           now repeat split.
  - intros No.
    destruct Cases as [(Tr & Cc & Ex)|[(f & n & Tr & Cc & Ex)
                                      |(f & n & c & post0 & Tr & _)]].
    + rewrite <- (app_nil_r (trace w)) in Tr. apply New in Tr.
      split; [now left|]. now split.
    + apply New in Tr. split; [right; now exists f, n|]. now split.
    + apply New in Tr. exfalso. apply No. rewrite Tr. simpl. tauto.
  - intros a b row next G Sp Sy Al Gn.
    rewrite (@transition_allowed symbol w a b row next G Sp Sy Al Gn) in H. cbv zeta in H.
    destruct (commit_hook save_override super_save (Some (code (heap w b))))
      as [e|] eqn:Hook.
    + injection H as <- <-. exists []. split.
      * apply New. simpl. now rewrite <- !app_assoc.
      * now repeat split.
    + pose proof (only_dispatches_call_handlers mro (VState a) symbol
                    (value_of_ref next)) as D.
      destruct (D _ _ _ H) as (_ & _ & Cc & (post & Tp & F) & _).
      exists post. split.
      * apply New. rewrite Tp. simpl. now rewrite <- !app_assoc.
      * split; [exact Cc | exact F].
Qed.



(** Initialisation without a code and every transition that returns
    leave a code under which the table holds a state. *)
Lemma code_stays_in_table (w : World Code Symbol) :
  table_ok w ->
  (forall w', current_state_code w = None ->
              __init__ transitions w = (inr tt, w') ->
              in_table w' /\ table_ok w')
  /\ (forall symbol results w',
         transition transitions allow_transition save_override super_save mro
                    symbol w = (inr results, w') ->
         in_table w' /\ table_ok w')
  /\ (in_table w ->
      exists a, current_state transitions w = (inr (VState a), w)).
Proof.
  intros Ok. split; [|split].
  - intros w' Hc H. unfold __init__, bind at 1, read in H. rewrite Hc in H.
    apply bind_inv in H as [(state & w1 & I & S)|(? & _ & ?)]; [|discriminate].
    pose proof (preserves_states transitions) as P.
    assert (Ok1 : table_ok w1).
    { unfold get_initial_state in I.
      apply bind_inv in I as [(t & w2 & St & R)|(? & _ & ?)]; [|discriminate].
      injection R as _ <-. exact (P _ _ _ St Ok). }
    unfold set_current_state in S.
    apply bind_inv in S as [(t & w2 & St & S)|(? & _ & ?)]; [|discriminate].
    pose proof (P _ _ _ St Ok1) as Ok2.
    apply states_returns_the_table in St as ->.
    destruct (table_get (heap w2) (the_table w2) state) as [b|] eqn:G;
      [|discriminate].
    injection S as <-.
    now apply (stored_code_in_table (w := w2) state (b := b)).
  - intros symbol results w' H.
    apply transition_cases in H
      as [[_ [(? & ?)|(? & ? & _)]]
         |(a & row & next & w1 & GN & _ & _ & _ & _ & H)]; try discriminate.
    cbv zeta in H. destruct H as [(_ & ? & _)|(_ & [(_ & ? & _)|(b & G & H)])];
      try discriminate.
    pose proof (preserves_get_next transitions symbol) as P.
    pose proof (P _ _ _ GN Ok) as Ok1.
    destruct (commit_hook _ _ _); [destruct H; discriminate|].
    pose proof (only_dispatches_call_handlers mro (VState a) symbol
                  (value_of_ref next)) as D.
    destruct (D _ _ _ H) as (Hh & Hs & Hc & _ & _).
    now apply (stored_code_in_table (w := w1) (value_of_ref next) (b := b)).
  - intros (c & a & Hc & G & _). exists a.
    apply current_state_again. now rewrite Hc.
Qed.


(** C10, amended: on an instance that comes to [__init__] with no code
    yet, initialisation leaves a code under which the table holds a state;
    every transition that returns leaves such a code, whatever the code
    was before; and on such an instance the getter [current_state] returns
    that state, not [None].  The table of the class is not built yet, or
    it is one whose entries sit under their own codes, as [states] builds
    them ([table_ok], which every step keeps).  An instance that comes to
    [__init__] with a code keeps it, whatever it is: [__init__] returns
    and changes nothing. *)
Theorem C10_current_code_is_a_key_of_the_table :
  (forall w w' : World Code Symbol,
      table_ok w -> current_state_code w = None ->
      __init__ transitions w = (inr tt, w') ->
      in_table w' /\ table_ok w'
      /\ exists a, current_state transitions w' = (inr (VState a), w'))
  /\ (forall (w : World Code Symbol) symbol results w',
         table_ok w ->
         transition transitions allow_transition save_override super_save mro
                    symbol w = (inr results, w') ->
         in_table w' /\ table_ok w'
         /\ exists a, current_state transitions w' = (inr (VState a), w'))
  /\ (forall w : World Code Symbol,
         in_table w ->
         exists a, current_state transitions w = (inr (VState a), w))
  /\ (forall (w : World Code Symbol) (c : Code),
         current_state_code w = Some c ->
         __init__ transitions w = (inr tt, w)).
Proof.
  assert (Getter : forall w : World Code Symbol,
             in_table w ->
             exists a, current_state transitions w = (inr (VState a), w)).
  { intros w (c & a & Hc & G & _). exists a.
    apply current_state_again. now rewrite Hc. }
  split; [|split; [|split]].
  - intros w w' Ok Hc H.
    destruct (proj1 (code_stays_in_table Ok) w' Hc H) as [I Ok'].
    split; [exact I|]. split; [exact Ok' | exact (Getter w' I)].
  - intros w symbol results w' Ok H.
    destruct (proj1 (proj2 (code_stays_in_table Ok)) symbol results w' H)
      as [I Ok'].
    split; [exact I|]. split; [exact Ok' | exact (Getter w' I)].
  - exact Getter.
  - intros w c Hc. unfold __init__, bind, read. now rewrite Hc.
Qed.


Lemma selected_In (h : Heap Code) (rules : Rules Code Symbol RetVal)
      (from_state : Value Code) (symbol : Symbol) (to_state : Value Code)
      (handler : Handler Code Symbol RetVal) :
  In handler (selected h rules from_state symbol to_state) ->
  exists rule handlers, In (rule, handlers) rules /\ In handler handlers.
Proof.
  unfold selected. intros I. apply in_flat_map in I as ([rule handlers] & I & J).
  simpl in J. destruct (matches _ _ _ _ _); [|destruct J].
  now exists rule, handlers.
Qed.

Lemma well_behaved_selected (w : World Code Symbol) (from_state : Value Code)
      (symbol : Symbol) (to_state : Value Code) :
  well_behaved mro ->
  Forall (raises_only_Exception w from_state symbol to_state)
         (selected (heap w) (get_handlers (heap w) mro) from_state symbol to_state).
Proof.
  intros W. apply Forall_forall. intros handler I.
  apply selected_In in I as (rule & handlers & I & J).
  intros e E. exact (W _ _ _ _ I J _ _ _ _ _ E).
Qed.

(** C5, amended: when the handlers that match raise nothing but
    exceptions deriving from [Exception], dispatch returns: it has called
    every one of them, in order, and recorded for each what it returned or
    the exception it raised (logged before it is recorded).  When one of
    them raises an exception that does not derive from [Exception], the
    handlers before it have been called and theirs logged, the exception
    leaves [call_handlers], and the handlers after it are not called;
    after a move that was committed it leaves [transition] too, with the
    new code in place.  With handlers that raise nothing but exceptions
    deriving from [Exception], an exception that leaves [transition] and
    is not the engine's own comes from the commit hook, not from a
    handler; with any handlers, it comes from the commit hook or does not
    derive from [Exception]. *)
Theorem C5_handler_exceptions_are_recorded :
  (forall (from_state : Value Code) (symbol : Symbol) (to_state : Value Code)
          (w : World Code Symbol),
      let called := selected (heap w) (get_handlers (heap w) mro)
                             from_state symbol to_state in
      Forall (raises_only_Exception w from_state symbol to_state) called ->
      exists w',
        call_handlers mro from_state symbol to_state w
        = (inr (map (recorded w from_state symbol to_state) called), w')
        /\ trace w' = trace w
                      ++ flat_map (dispatch_events w from_state symbol to_state)
                                  called
        /\ current_state_code w' = current_state_code w)
  /\ (well_behaved mro ->
      forall (symbol : Symbol) (w w' : World Code Symbol) (e : UserExc),
        transition transitions allow_transition save_override super_save mro
                   symbol w = (inl (Foreign e), w') ->
        commit_hook save_override super_save (current_state_code w') = Some e)
  /\ (forall (from_state : Value Code) (symbol : Symbol) (to_state : Value Code)
             (w : World Code Symbol)
             (before after : list (Handler Code Symbol RetVal))
             (handler : Handler Code Symbol RetVal) (e : UserExc),
         selected (heap w) (get_handlers (heap w) mro) from_state symbol to_state
         = before ++ handler :: after ->
         Forall (raises_only_Exception w from_state symbol to_state) before ->
         outcome w from_state symbol to_state handler = Raises e ->
         derives_Exception e = false ->
         exists w',
           call_handlers mro from_state symbol to_state w = (inl (Foreign e), w')
           /\ trace w'
              = trace w
                ++ flat_map (dispatch_events w from_state symbol to_state) before
                ++ [EvHandler (handler_id handler) from_state symbol to_state]
           /\ current_state_code w' = current_state_code w)
  /\ (forall (symbol : Symbol) (w : World Code Symbol) (a b : addr Code)
             (row : list (Symbol * Ref Code)) (next : Ref Code)
             (before after : list (Handler Code Symbol RetVal))
             (handler : Handler Code Symbol RetVal) (e : UserExc),
         table_get (heap w) (the_table w) (value_of_code (current_state_code w))
         = Some a ->
         spec_get (heap w) transitions (VState a) = Some row ->
         symbol_get row symbol = Some next ->
         allow_transition (see (heap w) (VState a)) symbol
                          (see (heap w) (value_of_ref next)) = true ->
         table_get (heap w) (the_table w) (value_of_ref next) = Some b ->
         commit_hook save_override super_save (Some (code (heap w b))) = None ->
         let c := code (heap w b) in
         let to_state := value_of_ref next in
         let saved := set_current_state_code (Some c) w in
         selected (heap w) (get_handlers (heap w) mro) (VState a) symbol to_state
         = before ++ handler :: after ->
         Forall (raises_only_Exception saved (VState a) symbol to_state) before ->
         outcome saved (VState a) symbol to_state handler = Raises e ->
         derives_Exception e = false ->
         exists w',
           transition transitions allow_transition save_override super_save mro
                      symbol w = (inl (Foreign e), w')
           /\ current_state_code w' = Some c
           /\ trace w'
              = trace w
                ++ [EvGuard (VState a) symbol to_state; EvAssign c; EvSave]
                ++ flat_map (dispatch_events saved (VState a) symbol to_state)
                            before
                ++ [EvHandler (handler_id handler) (VState a) symbol to_state])
  /\ (forall (symbol : Symbol) (w w' : World Code Symbol) (e : UserExc),
         transition transitions allow_transition save_override super_save mro
                    symbol w = (inl (Foreign e), w') ->
         commit_hook save_override super_save (current_state_code w') = Some e
         \/ derives_Exception e = false).
Proof.
  split; [|split; [|split; [|split]]].
  - intros from_state symbol to_state w called F.
    unfold call_handlers, bind at 1, read at 1.
    destruct (@call_handlers_of_rules from_state symbol to_state w
                (get_handlers (heap w) mro) [] w F (conj eq_refl eq_refl))
      as (w' & E & [_ C] & T).
    exists w'. split; [exact E|]. now split.
  - intros W symbol w w' e H.
    apply transition_cases in H
      as [[_ [(? & ?)|(? & E & T)]]
         |(a & row & next & w1 & _ & _ & _ & _ & _ & H)]; try discriminate.
    { injection E as <-. destruct T. }
    cbv zeta in H. destruct H as [(_ & ? & _)|(_ & [(_ & ? & _)|(b & G & H)])];
      try discriminate.
    destruct (commit_hook save_override super_save (Some (code (heap w1 b))))
      as [e'|] eqn:Hook.
    + destruct H as [E ->]. injection E as <-. exact Hook.
    + match type of H with call_handlers _ _ _ _ ?s = _ =>
        destruct (@call_handlers_of_rules (VState a) symbol (value_of_ref next) s
                    (get_handlers (heap s) mro) [] s
                    (well_behaved_selected s (VState a) symbol (value_of_ref next) W)
                    (conj eq_refl eq_refl)) as (w2 & E & _)
      end.
      unfold call_handlers, bind at 1, read at 1 in H. rewrite E in H.
      discriminate.
  - intros from_state symbol to_state w before after handler e Sel F Out Ne.
    unfold call_handlers, bind at 1, read at 1.
    destruct (@escape_in_rules from_state symbol to_state w handler e Out Ne
                (get_handlers (heap w) mro) before after [] w Sel F
                (conj eq_refl eq_refl))
      as (w' & E & [_ C] & T).
    exists w'. split; [exact E|]. now split.
  - intros symbol w a b row next before after handler e G Sp Sy Al Gn Hook.
    cbv zeta. intros Sel F Out Ne.
    rewrite (@transition_allowed symbol w a b row next G Sp Sy Al Gn).
    cbv zeta. rewrite Hook.
    set (saved := set_current_state_code (Some (code (heap w b))) w) in *.
    set (s := emit EvSave
                (emit (EvAssign (code (heap w b)))
                   (set_current_state_code (Some (code (heap w b)))
                      (emit (EvGuard (VState a) symbol (value_of_ref next)) w)))).
    unfold call_handlers, bind at 1, read at 1.
    destruct (@escape_in_rules (VState a) symbol (value_of_ref next) saved
                handler e Out Ne
                (get_handlers (heap w) mro) before after [] s Sel F
                (conj eq_refl eq_refl))
      as (w' & E & [_ C] & T).
    exists w'. change (heap s) with (heap w).
    split; [exact E|]. split; [exact C|].
    rewrite T. unfold s. simpl. now rewrite <- !app_assoc.
  - intros symbol w w' e H.
    apply transition_cases in H
      as [[_ [(? & ?)|(? & E & T)]]
         |(a & row & next & w1 & _ & _ & _ & _ & _ & H)]; try discriminate.
    { injection E as <-. destruct T. }
    cbv zeta in H. destruct H as [(_ & ? & _)|(_ & [(_ & ? & _)|(b & G & H)])];
      try discriminate.
    destruct (commit_hook save_override super_save (Some (code (heap w1 b))))
      as [e'|] eqn:Hook.
    + destruct H as [E ->]. injection E as <-. left. exact Hook.
    + pose proof (only_dispatches_call_handlers mro (VState a) symbol
                    (value_of_ref next)) as D.
      destruct (D _ _ _ H) as (_ & _ & _ & _ & Fo).
      destruct (Fo _ eq_refl) as (u & Eu & Nu). injection Eu as ->.
      right. exact Nu.
Qed.


(** C4: when [states] builds the table, the initial states it settles on
    after the gathering loop are those of the initial set: the codes some
    declaration marks [is_initial], if there are any, and otherwise the
    codes that are keys of [transitions] and never a destination.
    Construction raises [ImproperlyConfigured] exactly when two
    declarations of a code conflict or that set has not exactly one
    element, and raises nothing else. *)
Theorem C4_exactly_one_initial_state (w : World Code Symbol) :
  not_states w = true ->
  let result := fst (states transitions w) in
  (forall w1, gather_states transitions w = (inr tt, w1) ->
              forall c,
                (exists v, In v (resolved_initials transitions w1)
                           /\ value_code (heap w1) v = Some c)
                <-> initial_set (heap w) transitions c)
  /\ (result = inl ImproperlyConfigured
      <-> conflict_among (heap w) (right_side transitions ++ left_side transitions)
          \/ ~ exactly_one (initial_set (heap w) transitions))
  /\ (result = inl ImproperlyConfigured \/ exists t, result = inr t).
Proof.
  intros N. cbv zeta. split.
  { intros w1 Gs c. destruct (gather_states_result _ _ Gs) as [[_ G]|[E _]];
      [|discriminate].
    exact (@resolved_initial_codes transitions (heap w) w1 G c). }
  unfold states. rewrite N. unfold build_states.
  destruct (gather_states transitions w) as [res w1] eqn:Gs.
  destruct (gather_states_result _ _ Gs) as [[-> G]|[-> C]].
  - destruct (@mark_states_result transitions (heap w) w1 G) as (w2 & Ms & _).
    unfold bind. rewrite Gs, Ms.
    pose proof (@one_resolved_initial transitions (heap w) w1 G) as One.
    destruct (List.length (resolved_initials transitions w1) =? 1) eqn:L; simpl.
    + apply Nat.eqb_eq in L. split; [|right; now eexists].
      split; [discriminate|].
      intros [C|No]; [destruct (gathered_no_conflict G C)|].
      destruct No. now apply One.
    + apply Nat.eqb_neq in L. split; [|now left].
      split; [|reflexivity]. intros _. right. intros E. apply L. now apply One.
  - unfold bind. rewrite Gs. simpl. split; [|now left].
    split; [now left | reflexivity].
Qed.


(** *** Moves that are made, and moves that are refused *)

Lemma get_next_cached (symbol : Symbol) (w : World Code Symbol) (a : addr Code) :
  table_get (heap w) (the_table w) (value_of_code (current_state_code w)) = Some a ->
  get_next transitions symbol w
  = match spec_get (heap w) transitions (VState a) with
    | None => (inl KeyError, w)
    | Some row =>
        match symbol_get row symbol with
        | None => (inl KeyError, w)
        | Some next_state => (inr next_state, w)
        end
    end.
Proof.
  intros G. unfold get_next, bind.
  now rewrite (current_state_again transitions w G).
Qed.

(** X9: a move that the specification gives is made.  When the current
    code has a state in the table, [transitions] has a row for it with
    the symbol, the guard allows the move, the destination has a state in
    the table, the commit hook raises nothing for its code and no handler
    raises past [except Exception], then [transition] returns: it has
    called the guard, assigned the destination's code, run the commit
    hook and then the matching handlers, whose outcomes it returns in
    dispatch order; the objects and the table are as before. *)
Theorem X9_a_specified_move_is_made
        (symbol : Symbol) (w : World Code Symbol) (a b : addr Code)
        (row : list (Symbol * Ref Code)) (next : Ref Code) :
  table_get (heap w) (the_table w) (value_of_code (current_state_code w)) = Some a ->
  spec_get (heap w) transitions (VState a) = Some row ->
  symbol_get row symbol = Some next ->
  allow_transition (see (heap w) (VState a)) symbol
                   (see (heap w) (value_of_ref next)) = true ->
  table_get (heap w) (the_table w) (value_of_ref next) = Some b ->
  commit_hook save_override super_save (Some (code (heap w b))) = None ->
  well_behaved mro ->
  let c := code (heap w b) in
  let to_state := value_of_ref next in
  let saved := set_current_state_code (Some c) w in
  let called := selected (heap w) (get_handlers (heap w) mro)
                         (VState a) symbol to_state in
  exists w',
    transition transitions allow_transition save_override super_save mro symbol w
    = (inr (map (recorded saved (VState a) symbol to_state) called), w')
    /\ current_state_code w' = Some c
    /\ heap w' = heap w /\ _states w' = _states w
    /\ trace w'
       = trace w
         ++ [EvGuard (VState a) symbol to_state; EvAssign c; EvSave]
         ++ flat_map (dispatch_events saved (VState a) symbol to_state) called.
Proof.
  intros G Sp Sy Al Gn Hook W. cbv zeta.
  unfold transition. unfold bind at 1. unfold try_except_KeyError.
  rewrite (get_next_cached symbol w G), Sp, Sy.
  unfold bind at 1. rewrite (current_state_again transitions w G).
  unfold bind at 1. unfold call_guard, bind at 1, modify, read.
  set (guarded := emit (EvGuard (VState a) symbol (value_of_ref next)) w).
  change (heap guarded) with (heap w). rewrite Al. cbn [negb]. cbv beta iota.
  assert (Gg : table_get (heap guarded) (the_table guarded)
                 (value_of_code (current_state_code guarded)) = Some a)
    by exact G.
  unfold bind at 1. rewrite (current_state_again transitions guarded Gg).
  unfold bind at 1.
  rewrite (set_current_state_cached transitions (value_of_ref next) guarded
             (@table_get_nonempty _ _ _ _ Gg)).
  change (heap guarded) with (heap w). change (the_table guarded) with (the_table w).
  rewrite Gn. unfold bind at 1. rewrite self_save_run.
  change (current_state_code
            (emit (EvAssign (code (heap w b)))
                  (set_current_state_code (Some (code (heap w b))) guarded)))
    with (Some (code (heap w b))).
  rewrite Hook.
  set (s := emit EvSave
              (emit (EvAssign (code (heap w b)))
                    (set_current_state_code (Some (code (heap w b))) guarded))).
  set (saved := set_current_state_code (Some (code (heap w b))) w).
  pose proof (well_behaved_selected saved (VState a) symbol (value_of_ref next) W)
    as Wb.
  destruct (@call_handlers_of_rules (VState a) symbol (value_of_ref next) saved
              (get_handlers (heap w) mro) [] s Wb (conj eq_refl eq_refl))
    as (w' & E & [Hh Cc] & Tr).
  assert (Ec : call_handlers mro (VState a) symbol (value_of_ref next) s
               = (inr (map (recorded saved (VState a) symbol (value_of_ref next))
                           (selected (heap w) (get_handlers (heap w) mro)
                                     (VState a) symbol (value_of_ref next))), w')).
  { unfold call_handlers, bind at 1, read at 1. exact E. }
  exists w'. rewrite Ec. split; [reflexivity|]. split; [exact Cc|].
  split; [exact Hh|]. split.
  - pose proof (@only_dispatches_call_handlers mro (VState a) symbol
                  (value_of_ref next)) as Od.
    destruct (Od _ _ _ Ec) as (_ & St & _). exact St.
  - rewrite Tr. unfold s, guarded. simpl. rewrite <- !app_assoc. reflexivity.
Qed.

(** X10: a move that the specification does not give is refused before
    anything happens.  When [transitions] has no row for the current
    state, or the row has no entry for the symbol, [transition] raises
    [IllegalTransition] with the current state and the symbol, and the
    world is exactly as it was: no guard call, no assignment, no commit,
    no handler.  A state without a row refuses every symbol. *)
Theorem X10_an_unspecified_move_is_refused
        (symbol : Symbol) (w : World Code Symbol) (a : addr Code) :
  table_get (heap w) (the_table w) (value_of_code (current_state_code w)) = Some a ->
  (forall row, spec_get (heap w) transitions (VState a) = Some row ->
               symbol_get row symbol = None) ->
  transition transitions allow_transition save_override super_save mro symbol w
  = (inl (IllegalTransition (VState a) symbol), w).
Proof.
  intros G No. unfold transition. unfold bind at 1. unfold try_except_KeyError.
  rewrite (get_next_cached symbol w G).
  destruct (spec_get (heap w) transitions (VState a)) as [row|] eqn:Sp.
  - rewrite (No row eq_refl).
    now rewrite (raise_IllegalTransition_cached transitions symbol w G).
  - now rewrite (raise_IllegalTransition_cached transitions symbol w G).
Qed.


(** *** What a transition leaves alone *)

Section Frame.

Variable w0 : World Code Symbol.
Hypothesis built0 : has_table w0.

Lemma keeps_cached (w : World Code Symbol) :
  keeps_class w0 w -> states transitions w = (inr (the_table w), w).
Proof.
  intros [_ S]. apply states_cached. unfold the_table. rewrite S. exact built0.
Qed.

Lemma keeps_states : preserves (keeps_class w0) (states transitions).
Proof.
  intros w r w' H K. rewrite (keeps_cached K) in H. now injection H as <- <-.
Qed.

Lemma keeps_current_state : preserves (keeps_class w0) (current_state transitions).
Proof.
  unfold current_state. apply preserves_try; [|apply preserves_ret].
  apply preserves_bind; [apply keeps_states|].
  intros t w r w' H K.
  destruct (table_get _ _ _); now injection H as <- <-.
Qed.

Lemma keeps_get_next (symbol : Symbol) :
  preserves (keeps_class w0) (get_next transitions symbol).
Proof.
  unfold get_next. apply preserves_bind; [apply keeps_current_state|].
  intros cs w r w' H K.
  destruct (spec_get _ _ _) as [row|]; [|now injection H as <- <-].
  destruct (symbol_get row symbol); now injection H as <- <-.
Qed.

Lemma keeps_raise_IllegalTransition {A} (symbol : Symbol) :
  preserves (keeps_class w0) (raise_IllegalTransition (A := A) transitions symbol).
Proof.
  unfold raise_IllegalTransition.
  apply preserves_bind; [apply keeps_current_state|].
  intros cs. apply preserves_raise.
Qed.

Lemma keeps_transition (symbol : Symbol) :
  preserves (keeps_class w0)
            (transition transitions allow_transition save_override super_save
                        mro symbol).
Proof.
  unfold transition. apply preserves_bind.
  { apply preserves_try; [apply keeps_get_next | apply keeps_raise_IllegalTransition]. }
  intros next. apply preserves_bind; [apply keeps_current_state|].
  intros from_state. apply preserves_bind.
  { unfold call_guard. intros w r w' H K.
    unfold bind, modify, read in H. now injection H as <- <-. }
  intros allowed. destruct (negb allowed); [apply keeps_raise_IllegalTransition|].
  apply preserves_bind; [apply keeps_current_state|].
  intros current_state_. apply preserves_bind.
  { unfold set_current_state. apply preserves_bind; [apply keeps_states|].
    intros t w r w' H K.
    destruct (table_get _ _ _); now injection H as <- <-. }
  intros _. apply preserves_bind.
  { intros w r w' H K. rewrite self_save_run in H.
    destruct (commit_hook _ _ _); now injection H as <- <-. }
  intros _ w r w' H [Kh Ks].
  destruct (@only_dispatches_call_handlers mro current_state_ symbol
              (value_of_ref next) _ _ _ H) as (Hh & Hs & _).
  split; congruence.
Qed.

End Frame.

(** X18: on a class whose table is built, [transition] changes nothing
    of the class: whether it returns or raises, the engine leaves the
    [State] objects and the table as they were, and does not build the
    table again (the guard, the commit hook and the handlers count for
    what they return or raise).  What it changes is the code of the
    instance. *)
Theorem X18_a_transition_leaves_the_class_alone
        (symbol : Symbol) (w w' : World Code Symbol)
        (r : Exc Code Symbol + list (Result RetVal)) :
  has_table w ->
  transition transitions allow_transition save_override super_save mro symbol w
  = (r, w') ->
  heap w' = heap w /\ _states w' = _states w.
Proof.
  intros B H. exact (@keeps_transition w B symbol w r w' H (conj eq_refl eq_refl)).
Qed.

(** *** What a transition raises *)

Lemma current_state_built (w : World Code Symbol) :
  has_table w ->
  current_state transitions w
  = (inr match table_get (heap w) (the_table w)
                         (value_of_code (current_state_code w)) with
         | Some a => VState a
         | None => VNone
         end, w).
Proof.
  intros B. unfold current_state, try_except_KeyError, bind.
  rewrite (@states_cached transitions w B).
  now destruct (table_get _ _ _).
Qed.

Lemma raise_IllegalTransition_built {A} (symbol : Symbol) (w : World Code Symbol) :
  has_table w ->
  exists cs, raise_IllegalTransition (A := A) transitions symbol w
             = (inl (IllegalTransition cs symbol), w).
Proof.
  intros B. unfold raise_IllegalTransition, bind.
  rewrite (@current_state_built w B). now eexists.
Qed.

Lemma symbol_get_In {V} (row : list (Symbol * V)) (symbol : Symbol) (x : V) :
  symbol_get row symbol = Some x -> In x (map snd row).
Proof.
  unfold symbol_get. destruct (find _ row) as [kv|] eqn:F; [|discriminate].
  intros E. injection E as <-. apply find_some in F as [I _]. now apply in_map.
Qed.

Lemma spec_get_In {V} (h : Heap Code) (d : list (Ref Code * V)) (key : Value Code)
      (x : V) :
  spec_get h d key = Some x -> In x (map snd d).
Proof.
  unfold spec_get. destruct (find _ d) as [kv|] eqn:F; [|discriminate].
  intros E. injection E as <-. apply find_some in F as [I _]. now apply in_map.
Qed.

(** X19: on a class whose table is built and holds every destination of
    [transitions], as the table that [states] builds does, [transition]
    raises nothing of its own but [IllegalTransition]: any other
    exception that leaves it was raised by the commit hook or by a
    handler.  No [KeyError] and no [ImproperlyConfigured] reaches the
    caller. *)
Theorem X19_transition_raises_IllegalTransition_only
        (symbol : Symbol) (w w' : World Code Symbol) (e : Exc Code Symbol) :
  has_table w ->
  (forall r, In r (right_side transitions) ->
             exists b, table_get (heap w) (the_table w) (value_of_ref r) = Some b) ->
  transition transitions allow_transition save_override super_save mro symbol w
  = (inl e, w') ->
  (exists cs, e = IllegalTransition cs symbol) \/ (exists u, e = Foreign u).
Proof.
  intros B Complete H. unfold transition in H.
  apply bind_inv in H as [(next & w1 & N & H)|(e' & N & E)].
  - unfold try_except_KeyError in N.
    destruct (get_next transitions symbol w) as [[e0|n] w2] eqn:GN.
    { destruct e0; try discriminate.
      pose proof (@keeps_get_next w B symbol _ _ _ GN (conj eq_refl eq_refl))
        as [Kh Ks].
      assert (B2 : has_table w2) by (unfold has_table, the_table; now rewrite Ks).
      destruct (@raise_IllegalTransition_built (Ref Code) symbol w2 B2)
        as (cs & R).
      rewrite R in N. discriminate. }
    injection N as <- <-.
    pose proof (@keeps_get_next w B symbol _ _ _ GN (conj eq_refl eq_refl))
      as [Kh Ks].
    assert (T2 : the_table w2 = the_table w) by (unfold the_table; now rewrite Ks).
    destruct (get_next_cases _ _ _ GN) as (a & row & G & Sp & Sy).
    assert (In_right : In n (right_side transitions)).
    { unfold right_side. apply in_flat_map.
      apply spec_get_In in Sp. apply in_map_iff in Sp as (kv & <- & Ikv).
      exists kv. split; [exact Ikv | now apply (symbol_get_In _ _ Sy)]. }
    destruct (Complete n In_right) as (b & Gn). rewrite <- Kh, <- T2 in Gn.
    unfold bind in H. rewrite (current_state_again transitions w2 G) in H.
    unfold call_guard, bind, modify, read in H. simpl in H.
    set (guarded := emit (EvGuard (VState a) symbol (value_of_ref n)) w2) in *.
    assert (Gg : table_get (heap guarded) (the_table guarded)
                   (value_of_code (current_state_code guarded)) = Some a)
      by exact G.
    destruct (allow_transition _ _ _); simpl in H.
    + rewrite (current_state_again transitions guarded Gg) in H.
      rewrite (set_current_state_cached transitions (value_of_ref n) guarded
                 (@table_get_nonempty _ _ _ _ Gg)) in H.
      change (heap guarded) with (heap w2) in H.
      change (the_table guarded) with (the_table w2) in H.
      rewrite Gn, self_save_run in H. simpl in H.
      destruct (commit_hook save_override super_save (Some (code (heap w2 b))))
        as [u|].
      * injection H as <- _. right. now exists u.
      * destruct (@only_dispatches_call_handlers mro (VState a) symbol
                    (value_of_ref n) _ _ _ H) as (_ & _ & _ & _ & Fo).
        destruct (Fo e eq_refl) as (u & -> & _). right. now exists u.
    + rewrite (raise_IllegalTransition_cached transitions symbol guarded Gg) in H.
      injection H as <- _. left. now eexists.
  - injection E as <-. unfold try_except_KeyError in N.
    destruct (get_next transitions symbol w) as [[e0|n] w2] eqn:GN; [|discriminate].
    pose proof (@keeps_get_next w B symbol _ _ _ GN (conj eq_refl eq_refl))
      as [Kh Ks].
    assert (B2 : has_table w2) by (unfold has_table, the_table; now rewrite Ks).
    pose proof (quiet_get_next transitions symbol) as Q.
    destruct (Q _ _ _ GN) as [_ T]. specialize (T _ eq_refl).
    destruct (@raise_IllegalTransition_built (Ref Code) symbol w2 B2) as (cs & R).
    destruct e0; try destruct T.
    + rewrite R in N. injection N as <- _. left. now exists cs.
    + exfalso. revert GN. unfold get_next, bind.
      rewrite (@current_state_built w B).
      destruct (spec_get _ _ _) as [row|]; [|discriminate].
      destruct (symbol_get row symbol); discriminate.
    + exfalso. revert GN. unfold get_next, bind.
      rewrite (@current_state_built w B).
      destruct (spec_get _ _ _) as [row|]; [|discriminate].
      destruct (symbol_get row symbol); discriminate.
Qed.



End Transition.


End Properties.

(** * The claims on the machines of the tests *)

Import Tests.
Open Scope string_scope.
Open Scope list_scope.

(** C1: with [@SMSuper.handle(from_state=0)] on handler 1 and
    [@SMSub.handle(to_state=1)] on handler 2, the move from 0 to 1 on an
    [SMSub] instance calls handler 2 only, although handler 1 matches it
    (an [SMSuper] instance calls it, and so does an [SMSub] instance as
    long as [SMSub] registers nothing itself): [get_handlers] finds no
    [get_handlers] after [StateMachine] in the MRO, and [cls.handlers] is
    the dict of [SMSub] alone.  So it is for every class that has a
    [handlers] dict of its own: what [get_handlers] returns does not
    depend on the dicts of its bases. *)
Theorem C1_subclass_handlers_hide_those_of_the_parent :
  (forall (h : Heap nat) (own : Rules nat Sym string)
          (bases : list (option (Rules nat Sym string)))
          (base : Rules nat Sym string),
      get_handlers h (mkHierarchy (Some own :: bases) base [None])
      = rules_update h [] own)
  /\ fst (machine SMSub_both (Some "success") started) = inr [(2, inl "ok")]
  /\ ~ In (EvHandler 1 (VState (ASpec 0)) (Some "success") (VState (ASpec 1)))
          (trace (snd (machine SMSub_both (Some "success") started)))
  /\ fst (machine SMSuper_both (Some "success") started) = inr [(1, inl "ok")]
  /\ fst (machine SMSub_inherits (Some "success") started) = inr [(1, inl "ok")]
  /\ map fst (get_handlers heap0 SMSub_both) = [to_1]
  /\ map fst (cls_handlers SMSuper_both) = [from_0].
Proof.
  split; [reflexivity|].
  split; [vm_compute; reflexivity|]. split.
  { vm_compute. intros [E|[E|[E|[E|[E|[]]]]]]; discriminate. }
  repeat split; vm_compute; reflexivity.
Qed.



Lemma C3_witness :
  current_state_code (snd (machine plain (Some "success") after_success))
  = current_state_code after_success
  /\ (trace (snd (machine plain (Some "success") after_success))
      = trace after_success
      \/ exists from_state next_state,
          trace (snd (machine plain (Some "success") after_success))
          = trace after_success ++ [EvGuard from_state (Some "success") next_state]).
Proof.
  apply (@C3_illegal_transition_changes_nothing
           nat _ Sym _ string transitions always None None plain
           (Some "success") (Some "success") (VState (ASpec 1)) after_success
           (snd (machine plain (Some "success") after_success))).
  reflexivity.
Defined.

Lemma C4_witness :
  (forall w1, gather_states transitions world0 = (inr tt, w1) ->
              forall c,
                (exists v, In v (resolved_initials transitions w1)
                           /\ value_code (heap w1) v = Some c)
                <-> initial_set (heap world0) transitions c)
  /\ (fst (states transitions world0) = inl ImproperlyConfigured
   <-> conflict_among (heap world0) (right_side transitions ++ left_side transitions)
       \/ ~ exactly_one (initial_set (heap world0) transitions))
  /\ (fst (states transitions world0) = inl ImproperlyConfigured
      \/ exists t, fst (states transitions world0) = inr t).
Proof.
  apply (@C4_exactly_one_initial_state nat _ Sym transitions world0).
  reflexivity.
Defined.

(** C5 as stated fails: a handler that leaves through [sys.exit()] raises
    [SystemExit], which [except Exception] does not catch; it leaves
    [transition], and handler 2, which matches too, is never called. *)
Lemma C5_SystemExit_leaves_transition :
  fst (machine exiting (Some "success") started)
  = inl (Foreign (mkUserExc "SystemExit" false))
  /\ map (@handler_id _ _ _)
         (selected heap0 (get_handlers heap0 exiting)
                   (VState (ASpec 0)) (Some "success") (VState (ASpec 1)))
     = [1; 2]
  /\ ~ In (EvHandler 2 (VState (ASpec 0)) (Some "success") (VState (ASpec 1)))
          (trace (snd (machine exiting (Some "success") started))).
Proof.
  split; [vm_compute; reflexivity|]. split; [vm_compute; reflexivity|].
  vm_compute. intros [E|[E|[E|[E|[E|[]]]]]]; discriminate.
Qed.

Lemma C6_witness :
  snd (merge_data (Symbol := Sym) zero_a zero_b) = Some ImproperlyConfigured
  /\ merge_data (Symbol := Sym) zero_bare zero_b = (merged zero_bare zero_b, None).
Proof.
  destruct (@C6_merge_data nat _ Sym zero_a zero_b) as (_ & Conflict & _).
  destruct (@C6_merge_data nat _ Sym zero_bare zero_b) as (_ & _ & Agree).
  split.
  - apply Conflict; [reflexivity|]. left. exists "a", "b".
    repeat split. discriminate.
  - apply Agree; [reflexivity|].
    intros [(x & y & E & _)|[(x & y & E & _)|(x & y & E & _)]]; discriminate.
Defined.

Lemma C5_witness :
  (exists w',
      call_handlers raising (VState (ASpec 0)) (Some "success") (VState (ASpec 1))
                    started
      = (inr [(1, inr (mkUserExc "CallableCalled" true)); (2, inl "ok")], w')
      /\ trace w'
         = trace started
           ++ [EvHandler 1 (VState (ASpec 0)) (Some "success") (VState (ASpec 1));
               EvLogText; EvLogHandler 1 (mkUserExc "CallableCalled" true);
               EvHandler 2 (VState (ASpec 0)) (Some "success") (VState (ASpec 1))]
      /\ current_state_code w' = current_state_code started)
  /\ (exists w',
         machine mixed (Some "success") started
         = (inl (Foreign (mkUserExc "KeyboardInterrupt" false)), w')
         /\ current_state_code w' = Some 1
         /\ trace w'
            = trace started
              ++ [EvGuard (VState (ASpec 0)) (Some "success") (VState (ASpec 1));
                  EvAssign 1; EvSave;
                  EvHandler 1 (VState (ASpec 0)) (Some "success") (VState (ASpec 1));
                  EvLogText; EvLogHandler 1 (mkUserExc "CallableCalled" true);
                  EvHandler 2 (VState (ASpec 0)) (Some "success")
                            (VState (ASpec 1))]).
Proof.
  split.
  - destruct (proj1 (@C5_handler_exceptions_are_recorded
                       nat _ Sym _ string transitions always None None raising)
                    (VState (ASpec 0)) (Some "success") (VState (ASpec 1)) started)
      as (w' & E & T & C).
    { vm_compute. repeat constructor; intros e E; now inversion E. }
    exists w'. split; [rewrite E; vm_compute; reflexivity|].
    split; [rewrite T; vm_compute; reflexivity | exact C].
  - pose proof (proj1 (proj2 (proj2 (proj2 (@C5_handler_exceptions_are_recorded
                       nat _ Sym _ string transitions always None None mixed))))
                  (Some "success") started (ASpec 0) (ASpec 1)
                  [(Some "success", Inst 1); (Some "fail", Bare 2)] (Inst 1)
                  [fails 1] [returns 3] (interrupts 2)
                  (mkUserExc "KeyboardInterrupt" false)) as Escape.
    cbv zeta in Escape.
    destruct Escape as (w' & E & C & T).
    + vm_compute. reflexivity.
    + vm_compute. reflexivity.
    + reflexivity.
    + reflexivity.
    + vm_compute. reflexivity.
    + reflexivity.
    + vm_compute. reflexivity.
    + vm_compute. repeat constructor; intros e E; now inversion E.
    + reflexivity.
    + reflexivity.
    + exists w'. split; [exact E|]. split; [exact C|].
      rewrite T. vm_compute. reflexivity.
Defined.

Lemma C7_witness :
  (exists post,
      trace (snd (machine notified (Some "success") started))
      = trace started
        ++ [EvGuard (VState (ASpec 0)) (Some "success") (VState (ASpec 1));
            EvAssign 1; EvSave] ++ post
      /\ Forall (@is_dispatch_event _ _) post
      /\ current_state_code (snd (machine notified (Some "success") started))
         = Some 1)
  /\ (fst (stored notified (Some "success") started)
      = inl (Foreign (mkUserExc "DatabaseError" true))
      /\ trace (snd (stored notified (Some "success") started))
         = trace started
           ++ [EvGuard (VState (ASpec 0)) (Some "success") (VState (ASpec 1));
               EvAssign 1; EvSave]
      /\ current_state_code (snd (stored notified (Some "success") started))
         = Some 1).
Proof.
  split.
  - destruct (@C7_commit_after_assignment_before_dispatch
                nat _ Sym _ string transitions always None None notified
                (Some "success") started
                (snd (machine notified (Some "success") started))
                (fst (machine notified (Some "success") started)))
      as (new & T & _ & _ & _ & _ & Made); [vm_compute; reflexivity|].
    destruct (Made (ASpec 0) (ASpec 1)
                   [(Some "success", Inst 1); (Some "fail", Bare 2)] (Inst 1))
      as (post & En & Cc & Hk).
    + vm_compute. reflexivity.
    + vm_compute. reflexivity.
    + reflexivity.
    + reflexivity.
    + vm_compute. reflexivity.
    + exists post. rewrite T, En. split; [reflexivity|].
      split; [exact Hk | exact Cc].
  - destruct (@C7_commit_after_assignment_before_dispatch
                nat _ Sym _ string transitions always (Some database_down) None
                notified (Some "success") started
                (snd (stored notified (Some "success") started))
                (fst (stored notified (Some "success") started)))
      as (new & T & _ & _ & _ & _ & Made); [vm_compute; reflexivity|].
    destruct (Made (ASpec 0) (ASpec 1)
                   [(Some "success", Inst 1); (Some "fail", Bare 2)] (Inst 1))
      as (post & En & Cc & Hk).
    + vm_compute. reflexivity.
    + vm_compute. reflexivity.
    + reflexivity.
    + reflexivity.
    + vm_compute. reflexivity.
    + destruct Hk as [R Ep]. split; [exact R|]. rewrite T, En, Ep.
      split; [reflexivity | exact Cc].
Defined.

(** On a class without handlers: the hook fails, its exception leaves
    [transition], and the code is 1 all the same. *)
Example commit_failure_is_not_rolled_back :
  fst (stored plain (Some "success") started)
  = inl (Foreign (mkUserExc "DatabaseError" true))
  /\ current_state_code (snd (stored plain (Some "success") started)) = Some 1
  /\ trace (snd (stored plain (Some "success") started))
     = trace started
       ++ [EvGuard (VState (ASpec 0)) (Some "success") (VState (ASpec 1));
           EvAssign 1; EvSave].
Proof. repeat split. Qed.

Lemma C9_witness :
  current_state transitions stale = (inr VNone, snd (states transitions stale)).
Proof.
  apply (@C9_current_state_of_unknown_code
           nat _ Sym transitions stale (snd (states transitions stale))
           [(1, ASpec 1); (2, AWrap 2); (0, ASpec 0)]).
  - reflexivity.
  - reflexivity.
Defined.

(** C10 as stated fails: an instance that comes to [__init__] with a
    stored code keeps it unchecked; 7 is no state of the machine, and the
    getter [current_state] returns [None]. *)
Lemma C10_a_stored_code_is_kept :
  fst (init stale) = inr tt
  /\ current_state_code (snd (init stale)) = Some 7
  /\ fst (current_state transitions (snd (init stale))) = inr VNone
  /\ map fst (the_table (snd (current_state transitions (snd (init stale)))))
     = [1; 2; 0]
  /\ ~ in_table (snd (current_state transitions (snd (init stale)))).
Proof.
  repeat split.
  intros (c & a & C & G & _). vm_compute in C. injection C as <-.
  vm_compute in G. discriminate.
Qed.

Lemma C10_witness :
  (in_table started /\ table_ok started
   /\ exists a, current_state transitions started = (inr (VState a), started))
  /\ (in_table after_success /\ table_ok after_success
      /\ exists a, current_state transitions after_success
                   = (inr (VState a), after_success))
  /\ init stale = (inr tt, stale).
Proof.
  destruct (@C10_current_code_is_a_key_of_the_table
              nat _ Sym _ string transitions always None None plain)
    as (Init & Move & _ & Preset).
  assert (Started : in_table started /\ table_ok started
                    /\ exists a, current_state transitions started
                                 = (inr (VState a), started)).
  { apply (Init world0 started).
    - intros k a I. destruct I.
    - reflexivity.
    - vm_compute. reflexivity. }
  split; [exact Started|]. split.
  - apply (Move started (Some "success") [] after_success).
    + exact (proj1 (proj2 Started)).
    + vm_compute. reflexivity.
  - apply (Preset stale 7). reflexivity.
Defined.

(** The run of the purpose example: initial state 0, then 1, then 2, and
    no move from 2. *)
Example purpose_example :
  let go := transition (RetVal := string) example always None None plain in
  let w0 := snd (__init__ example world0) in
  let w1 := snd (go (Some "go") w0) in
  let w2 := snd (go (Some "done") w1) in
  current_state_code w0 = Some 0
  /\ current_state_code w1 = Some 1
  /\ current_state_code w2 = Some 2
  /\ fst (go (Some "go") w2) = inl (IllegalTransition (VState (AWrap 2)) (Some "go"))
  /\ current_state_code (snd (go (Some "go") w2)) = Some 2.
Proof. repeat split. Qed.

(** Table construction on the configurations the specification lists:
    the machine of the tests has initial state 0 and terminal state 2,
    deduced; two labels for one code, no initial state to deduce, two
    states marked initial, and no transitions at all are refused. *)
Example construction_examples :
  (let w := snd (states transitions (Symbol := Sym) world0) in
   map (fun kv => (fst kv, is_initial (heap w (snd kv)), is_terminal (heap w (snd kv))))
       (the_table w)
   = [(1, None, None); (2, None, Some true); (0, Some true, None)])
  /\ fst (states clash (mkWorld heap_clash None None (@nil (Event nat Sym))))
     = inl ImproperlyConfigured
  /\ fst (states cycle world0) = inl ImproperlyConfigured
  /\ fst (states two_initials (mkWorld heap_two None None (@nil (Event nat Sym))))
     = inl ImproperlyConfigured
  /\ fst (states (@nil (Ref nat * list (Sym * Ref nat))) world0)
     = inl ImproperlyConfigured.
Proof. repeat split; vm_compute; reflexivity. Qed.

(** ** The extra properties on the machines of [tests.py] *)

Lemma X1_witness :
  the_table built <> []
  /\ states transitions built = (inr (the_table built), built).
Proof.
  apply (@X1_the_table_is_built_once nat _ Sym transitions world0 built
           (the_table built)).
  vm_compute. reflexivity.
Defined.

Lemma X2_witness :
  the_table failed <> []
  /\ states cycle failed = (inr (the_table failed), failed).
Proof.
  apply (@X2_a_failed_construction_is_reported_once nat _ Sym cycle world0
           failed ImproperlyConfigured).
  - reflexivity.
  - discriminate.
  - vm_compute. reflexivity.
Defined.

Lemma X3_witness :
  NoDup (map fst (the_table built))
  /\ (forall c, In c (map fst (the_table built))
                <-> exists r, In r (right_side transitions ++ left_side transitions)
                              /\ code (declared (heap world0) r) = c)
  /\ (forall k a, In (k, a) (the_table built) -> code (heap built a) = k)
  /\ (forall r, In r (right_side transitions ++ left_side transitions) ->
                exists a, table_get (heap built) (the_table built) (value_of_ref r)
                          = Some a
                          /\ In (code (declared (heap world0) r), a)
                                (the_table built)).
Proof.
  apply (@X3_the_table_holds_the_declared_states nat _ Sym transitions world0
           built (the_table built)).
  - reflexivity.
  - vm_compute. reflexivity.
Defined.

Lemma X4_witness :
  label (heap built (ASpec 1)) = Some "label1"
  <-> exists r, In r (right_side transitions ++ left_side transitions)
                /\ code (declared (heap world0) r) = 1
                /\ label (declared (heap world0) r) = Some "label1".
Proof.
  apply (@X4_the_table_gathers_the_labels nat _ Sym transitions world0
           built (the_table built)).
  - reflexivity.
  - vm_compute. reflexivity.
  - vm_compute. now left.
Defined.

Lemma X5_witness :
  exists c a,
    VState (ASpec 0) = VState a
    /\ In (c, a) (the_table built)
    /\ code (heap built a) = c
    /\ initial_set (heap world0) transitions c
    /\ forall k b, In (k, b) (the_table built) ->
                   (truthy (is_initial (heap built b)) = true <-> k = c).
Proof.
  apply (@X5_get_initial_state_returns_the_initial_state nat _ Sym transitions
           world0 built (VState (ASpec 0))).
  - reflexivity.
  - vm_compute. reflexivity.
Defined.

Lemma X6_witness :
  get_terminals loop world_loop = (inr [], snd (get_terminals loop world_loop))
  /\ (forall c, ~ terminal_set (heap world_loop) loop c)
  /\ (~ conflict_among (heap world_loop) (right_side loop ++ left_side loop)
      /\ exactly_one (initial_set (heap world_loop) loop))
  /\ get_terminals transitions world0 = (inr [VState (AWrap 2)], built)
  /\ terminal_set (heap world0) transitions 2.
Proof.
  pose proof (@X6_get_terminals_returns_the_terminal_set nat _ Sym loop
                world_loop eq_refl) as Loop.
  pose proof (@X6_get_terminals_returns_the_terminal_set nat _ Sym transitions
                world0 eq_refl) as Machine.
  cbv zeta in Loop, Machine.
  destruct Loop as (Returns & Terminals & _).
  destruct Machine as (_ & Terminals' & _).
  assert (E : get_terminals loop world_loop
              = (inr [], snd (get_terminals loop world_loop)))
    by (vm_compute; reflexivity).
  assert (E' : get_terminals transitions world0 = (inr [VState (AWrap 2)], built))
    by (vm_compute; reflexivity).
  split; [exact E|]. split; [|split; [|split; [exact E'|]]].
  - intros c Ts. destruct (Terminals _ _ E) as [_ Codes].
    apply Codes in Ts as (a & I & _). destruct I.
  - apply Returns. eexists. eexists. exact E.
  - destruct (Terminals' _ _ E') as [_ Codes]. apply Codes.
    exists (AWrap 2). split; [now left | reflexivity].
Defined.

Lemma X7_witness :
  exists c,
    initial_set (heap world0) transitions c
    /\ In c (map fst (the_table built))
    /\ __init__ transitions world0
       = (inr tt, emit (EvAssign c) (set_current_state_code (Some c) built)).
Proof.
  apply (@X7_a_new_instance_starts_in_the_initial_state nat _ Sym transitions
           world0 built (the_table built)).
  - reflexivity.
  - reflexivity.
  - vm_compute. reflexivity.
Defined.

Lemma X8_witness :
  exists b,
    current_state transitions
                  (snd (set_current_state transitions (VState (ASpec 1)) world0))
    = (inr (VState b),
       snd (set_current_state transitions (VState (ASpec 1)) world0))
    /\ In (code (heap (snd (set_current_state transitions (VState (ASpec 1))
                                              world0)) b), b)
          (the_table (snd (set_current_state transitions (VState (ASpec 1))
                                             world0)))
    /\ py_eq (heap (snd (set_current_state transitions (VState (ASpec 1)) world0)))
             (VState b) (VState (ASpec 1)) = true
    /\ current_state_code
         (snd (set_current_state transitions (VState (ASpec 1)) world0))
       = Some (code (heap (snd (set_current_state transitions (VState (ASpec 1))
                                                  world0)) b))
    /\ trace (snd (set_current_state transitions (VState (ASpec 1)) world0))
       = trace world0
         ++ [EvAssign (code (heap (snd (set_current_state transitions
                                          (VState (ASpec 1)) world0)) b))].
Proof.
  apply (@X8_the_getter_returns_what_the_setter_stored nat _ Sym transitions
           (VState (ASpec 1)) world0
           (snd (set_current_state transitions (VState (ASpec 1)) world0))).
  - intros k a [].
  - vm_compute. reflexivity.
Defined.

Lemma X9_witness :
  exists w',
    machine notified (Some "success") started = (inr [(1, inl "ok")], w')
    /\ current_state_code w' = Some 1
    /\ trace w'
       = trace started
         ++ [EvGuard (VState (ASpec 0)) (Some "success") (VState (ASpec 1));
             EvAssign 1; EvSave;
             EvHandler 1 (VState (ASpec 0)) (Some "success") (VState (ASpec 1))].
Proof.
  destruct (@X9_a_specified_move_is_made nat _ Sym _ string transitions always
              None None notified (Some "success") started (ASpec 0) (ASpec 1)
              [(Some "success", Inst 1); (Some "fail", Bare 2)] (Inst 1))
    as (w' & E & C & _ & _ & T).
  - vm_compute. reflexivity.
  - vm_compute. reflexivity.
  - reflexivity.
  - reflexivity.
  - vm_compute. reflexivity.
  - reflexivity.
  - intros h rule handlers handler I Ih c f s t e B.
    destruct I as [I|[]]. injection I as <- <-.
    destruct Ih as [<-|[]]. discriminate B.
  - exists w'. split; [exact E|]. split; [exact C | exact T].
Defined.

Lemma X10_witness :
  machine plain (Some "success") after_success
  = (inl (IllegalTransition (VState (ASpec 1)) (Some "success")), after_success).
Proof.
  apply (@X10_an_unspecified_move_is_refused nat _ Sym _ string transitions
           always None None plain (Some "success") after_success (ASpec 1)).
  - vm_compute. reflexivity.
  - intros row E. vm_compute in E. injection E as <-. reflexivity.
Defined.

Lemma X11_witness :
  exists results w' out,
    call_handlers (handle (heap world0) from_0 (returns 1) plain)
                  (VState (ASpec 0)) (Some "success") (VState (ASpec 1)) world0
    = (inr results, w')
    /\ In (handler_id (returns 1), out) results
    /\ In (EvHandler (handler_id (returns 1)) (VState (ASpec 0)) (Some "success")
                     (VState (ASpec 1)))
          (trace w').
Proof.
  apply (@X11_a_registered_handler_is_called nat _ Sym _ string from_0
           (returns 1) plain (VState (ASpec 0)) (Some "success") (VState (ASpec 1))
           world0).
  - reflexivity.
  - vm_compute. repeat constructor; intros e E; now inversion E.
Defined.

Lemma X15_witness :
  (fst (check cycle (fun text : string => text) [] world0) = inr []
   <-> ~ conflict_among (heap world0) (right_side cycle ++ left_side cycle)
       /\ exactly_one (initial_set (heap world0) cycle))
  /\ (fst (check cycle (fun text : string => text) [] world0) = inl AttributeError
      <-> conflict_among (heap world0) (right_side cycle ++ left_side cycle)
          \/ ~ exactly_one (initial_set (heap world0) cycle)).
Proof.
  apply (@X15_check_adds_no_error nat _ Sym cycle string
           (fun text : string => text) [] world0).
  reflexivity.
Defined.

Lemma X17_witness :
  states (@nil (Ref nat * list (Sym * Ref nat))) world0
  = (inl ImproperlyConfigured, set_states (Some []) world0)
  /\ not_states (set_states (Some []) world0) = true
  /\ get_initial_state (@nil (Ref nat * list (Sym * Ref nat))) world0
     = (inl ImproperlyConfigured, set_states (Some []) world0)
  /\ (current_state_code world0 = None ->
      __init__ (@nil (Ref nat * list (Sym * Ref nat))) world0
      = (inl ImproperlyConfigured, set_states (Some []) world0)).
Proof.
  apply (@X17_no_transitions_no_table nat _ Sym world0). reflexivity.
Defined.

Lemma X18_witness :
  heap after_success = heap started /\ _states after_success = _states started.
Proof.
  apply (@X18_a_transition_leaves_the_class_alone nat _ Sym _ string transitions
           always None None plain (Some "success") started after_success
           (fst (machine plain (Some "success") started))).
  - vm_compute. discriminate.
  - vm_compute. reflexivity.
Defined.

Lemma X19_witness :
  (exists cs, @IllegalTransition nat Sym (VState (ASpec 1)) (Some "success")
              = IllegalTransition cs (Some "success"))
  \/ (exists u, @IllegalTransition nat Sym (VState (ASpec 1)) (Some "success")
                = Foreign u).
Proof.
  apply (@X19_transition_raises_IllegalTransition_only nat _ Sym _ string
           transitions always None None plain (Some "success") after_success
           (snd (machine plain (Some "success") after_success))).
  - vm_compute. discriminate.
  - intros r I. vm_compute in I.
    destruct I as [<-|[<-|[<-|[]]]]; eexists; vm_compute; reflexivity.
  - vm_compute. reflexivity.
Defined.
